(** * A video-library indexer and its viewer: model and verified properties

    The repository has two programs.  The indexer (a Node script) walks the
    [videos] directory, builds a tree of directory and video nodes, sorts
    every sibling list with [compareEntries] and writes the manifest.  The
    viewer ([src/app.js]) loads that manifest, derives the set of valid
    video paths, and keeps a persisted set of completed videos.

    The first part of this file embeds the functions of both programs; the
    second part states and proves their properties. *)

From Stdlib Require Import ZArith List Bool Lia Permutation String Ascii.
From Stdlib Require Import SpecFloat.
Import ListNotations.
Open Scope Z_scope.
Set Warnings "-register-all".

(* ===================================================================== *)
(** * Part I: the embedding                                               *)
(* ===================================================================== *)

(** ** JavaScript values used by both programs *)
Module JS.

(** A string is the sequence of its code points.  [codePointAt(0)] is the
    head of the list; every character the programs test for (whitespace,
    ASCII digits, the dot, the circled digits U+2460..U+2473) lies in the
    basic plane, where code points and UTF-16 code units coincide. *)
Definition jsstring := list Z.

(** ASCII text written as a Rocq string, for readable examples. *)
Fixpoint str (s : string) : jsstring :=
  match s with
  | EmptyString => []
  | String c rest => Z.of_N (N_of_ascii c) :: str rest
  end.

Fixpoint str_eqb (a b : jsstring) : bool :=
  match a, b with
  | [], [] => true
  | x :: a', y :: b' => (x =? y) && str_eqb a' b'
  | _, _ => false
  end.

(** Truthiness of a string: only the empty string is falsy. *)
Definition truthy (s : jsstring) : bool :=
  match s with [] => false | _ :: _ => true end.

(** [s.startsWith(p)] *)
Fixpoint startsWith (s p : jsstring) : bool :=
  match p, s with
  | [], _ => true
  | x :: p', y :: s' => (x =? y) && startsWith s' p'
  | _ :: _, [] => false
  end.

(** [a.join(sep)] for an array of strings. *)
Fixpoint join (sep : jsstring) (parts : list jsstring) : jsstring :=
  match parts with
  | [] => []
  | [p] => p
  | p :: rest => p ++ sep ++ join sep rest
  end.

(** The characters [String.prototype.trim] removes: WhiteSpace and
    LineTerminator of the ECMAScript grammar. *)
Definition isWhiteSpace (c : Z) : bool :=
  ((0x09 <=? c) && (c <=? 0x0D)) || (c =? 0x20) || (c =? 0xA0)
  || (c =? 0x1680) || ((0x2000 <=? c) && (c <=? 0x200A))
  || (c =? 0x2028) || (c =? 0x2029) || (c =? 0x202F) || (c =? 0x205F)
  || (c =? 0x3000) || (c =? 0xFEFF).

Fixpoint dropWhile (p : Z -> bool) (s : jsstring) : jsstring :=
  match s with
  | [] => []
  | c :: rest => if p c then dropWhile p rest else s
  end.

Fixpoint takeWhile (p : Z -> bool) (s : jsstring) : jsstring :=
  match s with
  | [] => []
  | c :: rest => if p c then c :: takeWhile p rest else []
  end.

(** [s.trim()] *)
Definition trim (s : jsstring) : jsstring :=
  rev (dropWhile isWhiteSpace (rev (dropWhile isWhiteSpace s))).

(** The class [\d] of a regular expression: the ten ASCII digits. *)
Definition isDigit (c : Z) : bool := (0x30 <=? c) && (c <=? 0x39).

(** Decimal value of a run of ASCII digits. *)
Definition digitsValue (ds : jsstring) : Z :=
  fold_left (fun acc d => acc * 10 + (d - 0x30)) ds 0.

(** [s.toLowerCase()] on the letters A..Z.  The other characters are left
    as they are; none of them has a lower-case form made of the characters
    of [".mp4"], the only string the indexer compares the result with. *)
Definition lowerChar (c : Z) : Z :=
  if (0x41 <=? c) && (c <=? 0x5A) then c + 0x20 else c.

Definition toLowerCase (s : jsstring) : jsstring := map lowerChar s.

(** *** Numbers

    A JavaScript Number is an IEEE 754 binary64 value.  The reference
    implementation of the Standard Library is used at precision 53 with
    maximal exponent 1024, so that infinities, NaN and rounding are the
    ones of the language. *)
Definition Number := spec_float.

Definition POSITIVE_INFINITY : Number := S754_infinity false.
Definition NaN : Number := S754_nan.
Definition zero : Number := S754_zero false.

(** The Number nearest to an integer (ties to even), as produced by a
    numeric literal or by [Number(s)] on a string of digits. *)
Definition Number_of_Z (z : Z) : Number := binary_normalize 53 1024 z 0 false.

Definition sub : Number -> Number -> Number := SFsub 53 1024.
Definition mul : Number -> Number -> Number := SFmul 53 1024.
Definition div : Number -> Number -> Number := SFdiv 53 1024.

(** [x !== y] on Numbers: NaN differs from everything, itself included. *)
Definition strictNe (x y : Number) : bool := negb (SFeqb x y).
Definition lt (x y : Number) : bool := SFltb x y.

(** *** Sets of strings

    A [Set] keeps its elements in insertion order, without repetition;
    [Array.from(set)] and the spread [[...set]] list them in that order. *)
Definition JSSet := list jsstring.

Definition Set_empty : JSSet := [].

Fixpoint Set_has (s : JSSet) (x : jsstring) : bool :=
  match s with
  | [] => false
  | y :: rest => str_eqb y x || Set_has rest x
  end.

Definition Set_add (s : JSSet) (x : jsstring) : JSSet :=
  if Set_has s x then s else s ++ [x].

Fixpoint Set_delete (s : JSSet) (x : jsstring) : JSSet :=
  match s with
  | [] => []
  | y :: rest => if str_eqb y x then Set_delete rest x else y :: Set_delete rest x
  end.

Definition Set_size (s : JSSet) : Z := Z.of_nat (List.length s).

(** [new Set(iterable)]: the elements are added one after the other. *)
Definition Set_from (l : list jsstring) : JSSet := fold_left Set_add l Set_empty.

Definition Array_from (s : JSSet) : list jsstring := s.

End JS.

(** [Array.prototype.sort(comparefn)].  The language requires a stable sort
    and reads the comparator's result [v] as: [v > 0] puts the first
    argument after the second, anything else (negative, zero, and NaN,
    which the sort takes for [+0]) leaves the two as they are.  For a
    comparator that is a consistent ordering the result is fixed by these
    rules; a stable insertion computes it. *)
Module JSArray.
Import JS.

Section Sort.
Context {A : Type}.
Variable comparefn : A -> A -> Number.

Definition sortsAfter (x y : A) : bool := lt zero (comparefn x y).

Fixpoint insert (x : A) (sorted : list A) : list A :=
  match sorted with
  | [] => [x]
  | y :: rest => if sortsAfter x y then y :: insert x rest else x :: sorted
  end.

Definition sort (l : list A) : list A := fold_right insert [] l.

End Sort.

End JSArray.

(** ** The manifest: the tree both programs share *)
Module Manifest.
Import JS.

(** The two kinds of node of the manifest, with the fields the indexer
    writes: [type] is the constructor.  Counts and sizes are integers far
    below 2^53, where the arithmetic of Numbers is exact; they are kept as
    integers. *)
Inductive ManifestNode : Type :=
| Directory (name path : jsstring) (videoCount : Z) (children : list ManifestNode)
| Video (name path : jsstring) (size : Z) (videoCount : Z).

Definition name (n : ManifestNode) : jsstring :=
  match n with Directory nm _ _ _ => nm | Video nm _ _ _ => nm end.

Definition path (n : ManifestNode) : jsstring :=
  match n with Directory _ p _ _ => p | Video _ p _ _ => p end.

(** [node.videoCount ?? 0] *)
Definition videoCount (n : ManifestNode) : Z :=
  match n with Directory _ _ c _ => c | Video _ _ _ c => c end.

(** [node.children ?? []] *)
Definition children (n : ManifestNode) : list ManifestNode :=
  match n with Directory _ _ _ cs => cs | Video _ _ _ _ => [] end.

End Manifest.

(** ** The indexer *)
Module Indexer.
Import JS Manifest.

(** *** The file system the indexer reads

    What [fs.stat] and [fs.readdir] report below the [videos] directory.
    [stat] follows symbolic links, so a node is what its path resolves to:
    a regular file with its size, a directory with its listing in
    [readdir] order, something that is neither (a socket, a device), a
    path on which [stat] rejects (a dangling link, a missing file), or a
    directory on which [readdir] rejects (one that may not be read).  The
    tree is finite, links that lead back into the tree are not modelled,
    and it stays as it is while the run lasts. *)
Inductive FsNode : Type :=
| FsFile (size : Z)
| FsDir (entries : list (jsstring * FsNode))
| FsOther
| FsBroken
| FsLocked.

(** The errors a run can end with: the rejection of [fs.stat] or of
    [fs.readdir] on a path of the walk, the error of [ensureVideosDir], the
    error of [main] for a missing root node, and the rejection of
    [fs.mkdir] or of [fs.writeFile]. *)
Inductive error : Type :=
| StatFailed (fullPath : list jsstring)
| VideosDirNotFound
| NothingBuilt
| ReaddirFailed (fullPath : list jsstring)
| MkdirFailed
| WriteFailed.

(** An awaited promise: fulfilled with a value or rejected. *)
Inductive result (A : Type) : Type :=
| OK (a : A)
| Err (e : error).
Arguments OK {A} a.
Arguments Err {A} e.

(** *** Paths

    A path at or below [videosDir] is the list of the names leading to it
    from there; [videosDir] itself is the empty list.  [path.relative]
    followed by [split(path.sep).join("/")] joins these names with [/]. *)
Definition DOT : Z := 0x2E.

Definition basename (fullPath : list jsstring) : jsstring :=
  last fullPath (str "videos").

Definition normalized (fullPath : list jsstring) : jsstring :=
  join (str "/") fullPath.

(** [normalized ? `videos/${normalized}` : "videos"] *)
Definition manifestPath (fullPath : list jsstring) : jsstring :=
  if truthy (normalized fullPath) then str "videos/" ++ normalized fullPath
  else str "videos".

(** The part of a file name from its last dot on, if it has a dot. *)
Fixpoint fromLastDot (base : jsstring) : option jsstring :=
  match base with
  | [] => None
  | c :: rest =>
      match fromLastDot rest with
      | Some ext => Some ext
      | None => if c =? DOT then Some base else None
      end
  end.

(** [path.extname] on the last component of a path: from the last dot to
    the end; empty when there is no dot, when the only dot is the first
    character, and for the name [..]. *)
Definition extname (fullPath : list jsstring) : jsstring :=
  let base := basename fullPath in
  match fromLastDot base with
  | None => []
  | Some ext =>
      if (List.length ext =? List.length base)%nat then []
      else if str_eqb base [DOT; DOT] then []
      else ext
  end.

(** *** The sort key *)
Definition getLeadingNumberWeight (name : jsstring) : Number :=
  if negb (truthy name) then POSITIVE_INFINITY
  else
    let trimmed := trim name in
    if negb (truthy trimmed) then POSITIVE_INFINITY
    else
      let firstCode := hd 0 trimmed in
      if (0x2460 <=? firstCode) && (firstCode <=? 0x2473)
      then Number_of_Z (firstCode - 0x245f)
      else
        match takeWhile isDigit trimmed with
        | [] => POSITIVE_INFINITY
        | d :: ds => Number_of_Z (digitsValue (d :: ds))
        end.

Section WithCollator.

(** [collator.compare] of [Intl.Collator("ja-JP-u-nu-latn", { numeric:
    true, sensitivity: "base" })]: the platform's collation, taken as
    given. *)
Variable collator_compare : jsstring -> jsstring -> Number.

Definition compareEntries (a b : ManifestNode) : Number :=
  let weightDiff :=
    sub (getLeadingNumberWeight (name a)) (getLeadingNumberWeight (name b)) in
  if strictNe weightDiff zero then weightDiff
  else collator_compare (name a) (name b).

(** The reducer of [buildNode]: [total + (child.videoCount ?? 0)]. *)
Definition sumVideoCount (children : list ManifestNode) : Z :=
  fold_left (fun total child => total + videoCount child) children 0.

(** One turn of the loop over the entries of a directory; [build] is the
    recursive call. *)
Definition visitEntry
    (build : list jsstring -> FsNode -> result (option ManifestNode))
    (fullPath : list jsstring) (children : list ManifestNode)
    (entry : jsstring * FsNode) : result (list ManifestNode) :=
  let (entryName, target) := entry in
  if startsWith entryName [DOT] then OK children
  else
    let childPath := fullPath ++ [entryName] in
    match build childPath target with
    | Err e => Err e
    | OK None => OK children
    | OK (Some childNode) => OK (children ++ [childNode])
    end.

Definition walkEntries
    (build : list jsstring -> FsNode -> result (option ManifestNode))
    (fullPath : list jsstring) :=
  fix loop (entries : list (jsstring * FsNode)) (children : list ManifestNode)
    : result (list ManifestNode) :=
    match entries with
    | [] => OK children
    | entry :: rest =>
        match visitEntry build fullPath children entry with
        | Err e => Err e
        | OK children' => loop rest children'
        end
    end.

Fixpoint buildNode (fullPath : list jsstring) (stats : FsNode) {struct stats}
  : result (option ManifestNode) :=
  match stats with
  | FsBroken => Err (StatFailed fullPath)
  | FsLocked => Err (ReaddirFailed fullPath)
  | FsDir entries =>
      match walkEntries buildNode fullPath entries [] with
      | Err e => Err e
      | OK children =>
          let sorted := JSArray.sort compareEntries children in
          OK (Some (Directory (basename fullPath) (manifestPath fullPath)
                              (sumVideoCount sorted) sorted))
      end
  | FsFile size =>
      if str_eqb (toLowerCase (extname fullPath)) (str ".mp4")
      then OK (Some (Video (basename fullPath) (manifestPath fullPath) size 1))
      else OK None
  | FsOther => OK None
  end.

(** *** The run *)

(** What a run meets: the [videos] path, the clock, and whether
    [fs.mkdir] of the output directory and [fs.writeFile] of the manifest
    reject. *)
Record World : Type :=
  { videos : FsNode;
    now : jsstring;
    mkdirFails : bool;
    writeFileFails : bool }.

(** The content of [site/data/videos.json]. *)
Record ManifestFile : Type :=
  { generatedAt : jsstring; categories : list ManifestNode }.

(** How a run ends: the manifest is written and the exit status is 0, or
    an error is reported and the exit status is 1; the write of the
    manifest has then not been called or has been rejected.  A run that
    the system stops (no memory left) is not modelled. *)
Inductive Outcome : Type :=
| Wrote (file : ManifestFile)
| Fatal (e : error).

Definition exitCode (o : Outcome) : Z :=
  match o with Wrote _ => 0 | Fatal _ => 1 end.

Definition ensureVideosDir (w : World) : result unit :=
  match videos w with
  | FsDir _ => OK tt
  | FsLocked => OK tt
  | _ => Err VideosDirNotFound
  end.

Definition main (w : World) : Outcome :=
  match ensureVideosDir w with
  | Err e => Fatal e
  | OK _ =>
      match buildNode [] (videos w) with
      | Err e => Fatal e
      | OK None => Fatal NothingBuilt
      | OK (Some rootNode) =>
          if mkdirFails w then Fatal MkdirFailed
          else if writeFileFails w then Fatal WriteFailed
          else Wrote {| generatedAt := now w; categories := children rootNode |}
      end
  end.

End WithCollator.

End Indexer.

(** ** The viewer *)
Module Viewer.
Import JS Manifest.

(** *** Printing numbers *)

Fixpoint uintChars (d : Decimal.uint) : jsstring :=
  match d with
  | Decimal.Nil => []
  | Decimal.D0 r => 0x30 :: uintChars r
  | Decimal.D1 r => 0x31 :: uintChars r
  | Decimal.D2 r => 0x32 :: uintChars r
  | Decimal.D3 r => 0x33 :: uintChars r
  | Decimal.D4 r => 0x34 :: uintChars r
  | Decimal.D5 r => 0x35 :: uintChars r
  | Decimal.D6 r => 0x36 :: uintChars r
  | Decimal.D7 r => 0x37 :: uintChars r
  | Decimal.D8 r => 0x38 :: uintChars r
  | Decimal.D9 r => 0x39 :: uintChars r
  end.

(** An integer in a template literal: its decimal digits. *)
Definition decimal (z : Z) : jsstring :=
  match Z.to_int z with
  | Decimal.Pos u => uintChars u
  | Decimal.Neg u => 0x2D :: uintChars u
  end.

(** The integer [n] for which [n / 10] is nearest to [m * 2^e], the larger
    one when two are as near. *)
Definition nearestTenths (m : positive) (e : Z) : Z :=
  if 0 <=? e then 10 * Z.pos m * 2 ^ e
  else (20 * Z.pos m + 2 ^ (- e)) / 2 ^ (1 - e).

(** [x.toFixed(1)], for the values below [10^21] that are printed in
    positional notation; a percentage never exceeds 100. *)
Definition toFixed1 (x : Number) : jsstring :=
  match x with
  | S754_nan => str "NaN"
  | S754_infinity s => (if s then str "-" else []) ++ str "Infinity"
  | S754_zero _ => str "0.0"
  | S754_finite s m e =>
      let digits := decimal (nearestTenths m e) in
      let padded :=
        if (List.length digits <=? 1)%nat then 0x30 :: digits else digits in
      let k := List.length padded in
      (if s then str "-" else [])
        ++ firstn (k - 1) padded ++ str "." ++ skipn (k - 1) padded
  end.

(** *** The page

    The fields of [state] the completion logic uses, and the two things
    outside it that the logic writes: the payloads passed to
    [localStorage.setItem("learning:completedVideos", _)], oldest first
    (each is the array given to [JSON.stringify]; a rejected write is
    caught by [persistCompletedVideos] and changes nothing else), and the
    texts of the progress elements. *)
Record ProgressUI : Type :=
  { progressFill : Number;        (* the width, in percent *)
    progressText : jsstring;
    progressCount : jsstring }.

Record Page : Type :=
  { categories : list ManifestNode;
    completedVideos : JSSet;
    totalVideos : Z;
    validVideoPaths : JSSet;
    setItemCalls : list (list jsstring);
    progress : ProgressUI }.

Definition initialPage : Page :=
  {| categories := [];
     completedVideos := Set_empty;
     totalVideos := 0;
     validVideoPaths := Set_empty;
     setItemCalls := [];
     progress := {| progressFill := zero; progressText := []; progressCount := [] |} |}.

(** [raw] is what the stored value parses to when it is an array of
    strings; [None] stands for a missing, empty or unreadable value, for
    which the set is empty. *)
Definition loadCompletedVideos (raw : option (list jsstring)) (pg : Page) : Page :=
  {| categories := categories pg;
     completedVideos := match raw with Some parsed => Set_from parsed | None => Set_empty end;
     totalVideos := totalVideos pg;
     validVideoPaths := validVideoPaths pg;
     setItemCalls := setItemCalls pg;
     progress := progress pg |}.

Definition persistCompletedVideos (pg : Page) : Page :=
  let serialized := Array_from (completedVideos pg) in
  {| categories := categories pg;
     completedVideos := completedVideos pg;
     totalVideos := totalVideos pg;
     validVideoPaths := validVideoPaths pg;
     setItemCalls := setItemCalls pg ++ [serialized];
     progress := progress pg |}.

(** The closure [visit] of [collectVideoStats], with the two variables it
    updates, [total] and [paths], passed along. *)
Fixpoint visit (node : ManifestNode) (acc : Z * JSSet) : Z * JSSet :=
  match node with
  | Video _ p _ _ =>
      let (total, paths) := acc in
      (total + 1, if truthy p then Set_add paths p else paths)
  | Directory _ _ _ cs => fold_left (fun a child => visit child a) cs acc
  end.

Definition collectVideoStats (cats : list ManifestNode) : Z * JSSet :=
  fold_left (fun a category => visit category a) cats (0, Set_empty).

Definition pruneCompletedVideos (pg : Page) : Page :=
  let filtered :=
    filter (fun p => Set_has (validVideoPaths pg) p) (Array_from (completedVideos pg)) in
  if negb (Z.of_nat (List.length filtered) =? Set_size (completedVideos pg))
  then
    persistCompletedVideos
      {| categories := categories pg;
         completedVideos := Set_from filtered;
         totalVideos := totalVideos pg;
         validVideoPaths := validVideoPaths pg;
         setItemCalls := setItemCalls pg;
         progress := progress pg |}
  else pg.

Definition updateProgressUI (pg : Page) : Page :=
  let total := totalVideos pg in
  let completed := Z.min (Set_size (completedVideos pg)) total in
  let percent :=
    if total =? 0 then zero
    else mul (div (Number_of_Z completed) (Number_of_Z total)) (Number_of_Z 100) in
  let percentText :=
    if total =? 0 then str "0%" else toFixed1 percent ++ str "%" in
  {| categories := categories pg;
     completedVideos := completedVideos pg;
     totalVideos := totalVideos pg;
     validVideoPaths := validVideoPaths pg;
     setItemCalls := setItemCalls pg;
     progress :=
       {| progressFill := percent;
          progressText := percentText;
          progressCount := decimal completed ++ str " / " ++ decimal total ++ [0x20; 0x672C] |} |}.

(** The change of the set made by a toggle that passes both guards. *)
Definition setCompletion (completed : JSSet) (p : jsstring) (isCompleted : bool) : JSSet :=
  if isCompleted then Set_add completed p else Set_delete completed p.

(** The last step, the class of the one leaf element, is a change of the
    document only and is left out. *)
Definition toggleVideoCompletion (p : jsstring) (isCompleted : bool) (pg : Page) : Page :=
  if negb (truthy p) then pg
  else if negb (Set_has (validVideoPaths pg) p) then pg
  else
    updateProgressUI
      (persistCompletedVideos
         {| categories := categories pg;
            completedVideos := setCompletion (completedVideos pg) p isCompleted;
            totalVideos := totalVideos pg;
            validVideoPaths := validVideoPaths pg;
            setItemCalls := setItemCalls pg;
            progress := progress pg |}).

(** The statistics step of [init]: the two fields are replaced by what
    [collectVideoStats] returns for the loaded categories. *)
Definition storeStats (cats : list ManifestNode) (pg : Page) : Page :=
  let stats := collectVideoStats cats in
  {| categories := cats;
     completedVideos := completedVideos pg;
     totalVideos := fst stats;
     validVideoPaths := snd stats;
     setItemCalls := setItemCalls pg;
     progress := progress pg |}.

(** [init], up to the first rendering: [payload] is [payload.categories ??
    []] of a successful fetch, [None] a failed one, after which only the
    stored completed set has been read. *)
Definition init (raw : option (list jsstring)) (payload : option (list ManifestNode))
    (pg : Page) : Page :=
  let pg1 := loadCompletedVideos raw pg in
  match payload with
  | None => pg1
  | Some cats => updateProgressUI (pruneCompletedVideos (storeStats cats pg1))
  end.

(** A later event of the page: one change of a check box. *)
Definition toggles (events : list (jsstring * bool)) (pg : Page) : Page :=
  fold_left (fun s ev => toggleVideoCompletion (fst ev) (snd ev) s) events pg.

End Viewer.

(** ** Notions the properties are stated with

    The definitions named [spec_...] and the predicates next to them
    follow the words of the specification, not the code; the properties of
    Part II compare the code with them.  The samples at the end are the
    inputs of the examples. *)
Module Reference.
Import JS Manifest Indexer.

(** A weight as the specification speaks of it: an integer, or positive
    infinity. *)
Inductive Weight : Type :=
| Finite (n : Z)
| Infinite.

Definition Number_of_Weight (w : Weight) : Number :=
  match w with
  | Finite n => Number_of_Z n
  | Infinite => POSITIVE_INFINITY
  end.

Definition isCircledDigit (c : Z) : bool := (0x2460 <=? c) && (c <=? 0x2473).

(** The leading-number weight of a string, read off its first characters:
    the position 1..20 of a circled digit, else the value of the leading
    run of ASCII digits, else infinity. *)
Definition spec_leadingNumberWeight (s : jsstring) : Weight :=
  match s with
  | [] => Infinite
  | c :: _ =>
      if isCircledDigit c then Finite (c - 0x2460 + 1)
      else
        match takeWhile isDigit s with
        | [] => Infinite
        | d :: ds => Finite (digitsValue (d :: ds))
        end
  end.

(** The integer a Number holds exactly, if it holds one. *)
Definition integerValue (x : Number) : option Z :=
  match x with
  | S754_zero _ => Some 0
  | S754_finite s m e =>
      let signed (v : Z) := if s then - v else v in
      if 0 <=? e then Some (signed (Z.pos m * 2 ^ e))
      else if Z.pos m mod 2 ^ (- e) =? 0 then Some (signed (Z.pos m / 2 ^ (- e)))
      else None
  | _ => None
  end.

Definition isFiniteNumber (x : Number) : bool :=
  match x with
  | S754_zero _ => true
  | S754_finite _ _ _ => true
  | _ => false
  end.

(** A name has the extension [.mp4], in either case of the letters, when
    its last four characters are a dot and the letters m, p and the digit
    4. *)
Definition hasMp4Extension (entryName : jsstring) : bool :=
  str_eqb (toLowerCase (skipn (List.length entryName - 4) entryName)) (str ".mp4").

Definition isDotName (entryName : jsstring) : bool := startsWith entryName [DOT].

(** The number of regular files with the extension [.mp4] at or below a
    node called [entryName], not counting what lies at or below an entry
    whose name starts with a dot. *)
Fixpoint spec_countVideos (entryName : jsstring) (stats : FsNode) : Z :=
  match stats with
  | FsFile _ => if hasMp4Extension entryName then 1 else 0
  | FsDir entries =>
      (fix sumOver (es : list (jsstring * FsNode)) : Z :=
         match es with
         | [] => 0
         | (nm, target) :: rest =>
             (if isDotName nm then 0 else spec_countVideos nm target) + sumOver rest
         end) entries
  | FsOther => 0
  | FsBroken => 0
  | FsLocked => 0
  end.

(** No path that the walk reaches has a failing [stat] or a failing
    [readdir]: the walk does not look below an entry whose name starts
    with a dot. *)
Fixpoint walkable (stats : FsNode) : bool :=
  match stats with
  | FsBroken => false
  | FsLocked => false
  | FsDir entries =>
      (fix allOf (es : list (jsstring * FsNode)) : bool :=
         match es with
         | [] => true
         | (nm, target) :: rest =>
             (isDotName nm || walkable target) && allOf rest
         end) entries
  | FsFile _ => true
  | FsOther => true
  end.

(** The number of Video nodes of a manifest tree. *)
Fixpoint numVideos (n : ManifestNode) : Z :=
  match n with
  | Video _ _ _ _ => 1
  | Directory _ _ _ cs => fold_right (fun c acc => numVideos c + acc) 0 cs
  end.

(** The paths of the Video nodes of a manifest tree, in the order of the
    tree. *)
Fixpoint videoPaths (n : ManifestNode) : list jsstring :=
  match n with
  | Video _ p _ _ => [p]
  | Directory _ _ _ cs => flat_map videoPaths cs
  end.

Definition numVideosIn (cats : list ManifestNode) : Z :=
  fold_right (fun c acc => numVideos c + acc) 0 cats.

Definition videoPathsIn (cats : list ManifestNode) : list jsstring :=
  flat_map videoPaths cats.

(** An entry is numbered when its weight is a finite number. *)
Definition isNumbered (n : ManifestNode) : bool :=
  isFiniteNumber (getLeadingNumberWeight (name n)).

(** In a list of siblings, no entry without a number comes before a
    numbered one. *)
Fixpoint numberedFirst (l : list ManifestNode) : bool :=
  match l with
  | [] => true
  | x :: rest =>
      (isNumbered x || forallb (fun y => negb (isNumbered y)) rest)
      && numberedFirst rest
  end.

(** What [visit] does to [paths] at one Video node. *)
Definition addPath (paths : JSSet) (p : jsstring) : JSSet :=
  if truthy p then Set_add paths p else paths.

(** Every Directory of the tree carries the sum of the counts of its
    children, and every Video the count 1. *)
Fixpoint countsConsistent (n : ManifestNode) : bool :=
  match n with
  | Video _ _ _ c => c =? 1
  | Directory _ _ c cs =>
      (c =? sumVideoCount cs) && forallb countsConsistent cs
  end.

(** A node carries the right counts: in itself, and as many as it has
    Video nodes. *)
Definition wellCounted (n : ManifestNode) : Prop :=
  countsConsistent n = true /\ videoCount n = numVideos n.

(** What [buildNode] returned for a path accounts for the videos below
    it: no node where there are none, a node with their number
    otherwise. *)
Definition accountsFor (entryName : jsstring) (stats : FsNode)
    (r : option ManifestNode) : Prop :=
  match r with
  | None => spec_countVideos entryName stats = 0
  | Some node =>
      videoCount node = spec_countVideos entryName stats /\ wellCounted node
  end.

(** [a] is included in [b]. *)
Definition Set_subset (a b : JSSet) : bool := forallb (Set_has b) a.

(** A collation to run examples with: the order of the code points.  The
    properties below hold for every collation. *)
Fixpoint codePointOrder (a b : jsstring) : Number :=
  match a, b with
  | [], [] => zero
  | [], _ :: _ => Number_of_Z (-1)
  | _ :: _, [] => Number_of_Z 1
  | x :: a', y :: b' =>
      if x <? y then Number_of_Z (-1)
      else if y <? x then Number_of_Z 1
      else codePointOrder a' b'
  end.

(** *** A sample library

    The [videos] directory used by the examples: two videos and a text
    file at the top, a hidden directory with a video in it, and a numbered
    category holding a video with an upper-case extension and a socket
    named like a video. *)
Definition sampleAdvanced : jsstring := 0x2461 :: str "Advanced".

Definition sampleEntries : list (jsstring * FsNode) :=
  [ (str "b.mp4", FsFile 10);
    (str "notes.txt", FsFile 3);
    (str ".hidden", FsDir [(str "x.mp4", FsFile 1)]);
    (sampleAdvanced, FsDir [(str "z.MP4", FsFile 7); (str "pipe.mp4", FsOther)]);
    (str "a.mp4", FsFile 5) ].

(** The node [buildNode] returns for it. *)
Definition sampleAdvancedNode : ManifestNode :=
  Directory sampleAdvanced (str "videos/" ++ sampleAdvanced) 1
    [Video (str "z.MP4") (str "videos/" ++ sampleAdvanced ++ str "/z.MP4") 7 1].

Definition sampleRootNode : ManifestNode :=
  Directory (str "videos") (str "videos") 3
    [ sampleAdvancedNode;
      Video (str "b.mp4") (str "videos/b.mp4") 10 1;
      Video (str "a.mp4") (str "videos/a.mp4") 5 1 ].

(** A manifest with one Video node whose path is the empty string. *)
Definition pathlessManifest : list ManifestNode :=
  [Video (str "x.mp4") [] 1 1].

(** The paths [videos/0.mp4], [videos/1.mp4], ... *)
Definition numberedPaths (count : nat) : list jsstring :=
  map (fun i => str "videos/" ++ Viewer.decimal (Z.of_nat i) ++ str ".mp4")
      (seq 0 count).

Definition numberedManifest (count : nat) : list ManifestNode :=
  map (fun p => Video p p 1 1) (numberedPaths count).

(** A page whose manifest has ten videos while the completed set, tampered
    with, holds twelve paths. *)
Definition overfullPage : Viewer.Page :=
  {| Viewer.categories := numberedManifest 10;
     Viewer.completedVideos := numberedPaths 12;
     Viewer.totalVideos := 10;
     Viewer.validVideoPaths := numberedPaths 10;
     Viewer.setItemCalls := [];
     Viewer.progress := Viewer.progress Viewer.initialPage |}.

Definition sampleNow : jsstring := str "2024-01-01T00:00:00.000Z".

End Reference.

(** ** The viewer: where a video is fetched from *)
Module Url.
Import JS.

Definition SLASH : Z := 0x2F.
Definition FULLSTOP : Z := 0x2E.

(** [s.endsWith(p)] *)
Definition endsWith (s p : jsstring) : bool := startsWith (rev s) (rev p).

Definition ensureTrailingSlash (value : jsstring) : jsstring :=
  if negb (truthy value) then []
  else if endsWith value [SLASH] then value else value ++ [SLASH].

(** [s.split(sep)] for a separator of one character: the pieces between
    the separators, one piece (the empty one) for the empty string. *)
Fixpoint split (sep : Z) (s : jsstring) : list jsstring :=
  match s with
  | [] => [[]]
  | c :: rest =>
      if c =? sep then [] :: split sep rest
      else
        match split sep rest with
        | piece :: pieces => (c :: piece) :: pieces
        | [] => [[c]]
        end
  end.

(** What the script reads of [window]: [__VIDEO_PATH_PREFIX__] when it is
    a string, and the host name and path of [location]. *)
Record Window : Type :=
  { pathPrefixOverride : option jsstring;
    hostname : jsstring;
    pathname : jsstring }.

(** [hostname.match(/^([^.]+)\.github\.io$/i)]: the captured account, when
    the host name is a dot-free, non-empty label followed by [.github.io]
    in either case of the letters. *)
Definition matchGithubHost (host : jsstring) : option jsstring :=
  let account := takeWhile (fun c => negb (c =? FULLSTOP)) host in
  let rest := dropWhile (fun c => negb (c =? FULLSTOP)) host in
  if truthy account && str_eqb (toLowerCase rest) (str ".github.io")
  then Some account
  else None.

Definition prefixFromHost (w : Window) : jsstring :=
  match matchGithubHost (hostname w) with
  | None => []
  | Some account =>
      let pathSegments := filter truthy (split SLASH (pathname w)) in
      let repository :=
        match pathSegments with
        | segment :: _ => segment
        | [] => account ++ str ".github.io"
        end in
      let base :=
        str "https://cdn.jsdelivr.net/gh/" ++ account ++ [SLASH]
          ++ repository ++ str "@main/" in
      ensureTrailingSlash base
  end.

(** [window] is [None] where the script runs without one. *)
Definition computeVideoPathPrefix (window : option Window) : jsstring :=
  match window with
  | None => []
  | Some w =>
      match pathPrefixOverride w with
      | Some override =>
          if truthy (trim override) then ensureTrailingSlash (trim override)
          else prefixFromHost w
      | None => prefixFromHost w
      end
  end.

(** *** [encodeURIComponent]

    The characters left as they are, the UTF-8 octets of the others
    written as [%XX] with upper-case digits, and a [URIError] ([None]) on a
    code point that is not a character: a surrogate on its own. *)
Definition isUnreserved (c : Z) : bool :=
  ((0x41 <=? c) && (c <=? 0x5A)) || ((0x61 <=? c) && (c <=? 0x7A))
  || ((0x30 <=? c) && (c <=? 0x39))
  || (c =? 0x2D) || (c =? 0x5F) || (c =? 0x2E) || (c =? 0x21) || (c =? 0x7E)
  || (c =? 0x2A) || (c =? 0x27) || (c =? 0x28) || (c =? 0x29).

Definition isScalarValue (c : Z) : bool :=
  (0 <=? c) && (c <=? 0x10FFFF) && negb ((0xD800 <=? c) && (c <=? 0xDFFF)).

Definition utf8 (c : Z) : list Z :=
  if c <? 0x80 then [c]
  else if c <? 0x800 then [0xC0 + c / 64; 0x80 + c mod 64]
  else if c <? 0x10000
       then [0xE0 + c / 4096; 0x80 + (c / 64) mod 64; 0x80 + c mod 64]
       else [0xF0 + c / 262144; 0x80 + (c / 4096) mod 64;
             0x80 + (c / 64) mod 64; 0x80 + c mod 64].

Definition hexDigit (n : Z) : Z := if n <? 10 then 0x30 + n else 0x41 + (n - 10).

Definition percentOctet (b : Z) : jsstring :=
  [0x25; hexDigit (b / 16); hexDigit (b mod 16)].

Fixpoint encodeURIComponent (s : jsstring) : option jsstring :=
  match s with
  | [] => Some []
  | c :: rest =>
      if isUnreserved c
      then option_map (cons c) (encodeURIComponent rest)
      else if isScalarValue c
           then option_map (app (flat_map percentOctet (utf8 c)))
                           (encodeURIComponent rest)
           else None
  end.

(** [segments.map((segment) => encodeURIComponent(segment))], which throws
    when one of the calls throws. *)
Fixpoint encodeSegments (segments : list jsstring) : option (list jsstring) :=
  match segments with
  | [] => Some []
  | segment :: rest =>
      match encodeURIComponent segment with
      | None => None
      | Some encoded => option_map (cons encoded) (encodeSegments rest)
      end
  end.

(** [VIDEO_PATH_PREFIX] is the constant computed when the script starts. *)
Definition resolveVideoSrc (VIDEO_PATH_PREFIX originalPath : jsstring)
  : option jsstring :=
  if negb (truthy originalPath) then Some []
  else
    match encodeSegments (split SLASH originalPath) with
    | None => None
    | Some segments =>
        let encodedPath := join [SLASH] segments in
        if startsWith originalPath (str "videos/")
        then Some (VIDEO_PATH_PREFIX ++ encodedPath)
        else Some encodedPath
    end.

End Url.

(** ** The viewer: the tree, the selection and the player *)
Module Tree.
Import JS Manifest.

Definition size (n : ManifestNode) : option Z :=
  match n with Directory _ _ _ _ => None | Video _ _ s _ => Some s end.

(** [Number.isFinite] *)
Definition Number_isFinite (x : Number) : bool :=
  match x with
  | S754_zero _ => true
  | S754_finite _ _ _ => true
  | _ => false
  end.

Definition KIB : Number := Number_of_Z 1024.

(** [formatBytes] of a size; [None] is a missing size.  The sizes of a
    manifest are non-negative integers; below 1024 the Number is printed
    as the integer it is. *)
Definition formatBytes (bytes : option Z) : jsstring :=
  match bytes with
  | None => []
  | Some b =>
      let x := Number_of_Z b in
      if negb (Number_isFinite x) then []
      else if lt x KIB then Viewer.decimal b ++ str " B"
      else if lt x (mul KIB KIB)
           then Viewer.toFixed1 (div x KIB) ++ str " KB"
      else if lt x (mul (mul KIB KIB) KIB)
           then Viewer.toFixed1 (div (div x KIB) KIB) ++ str " MB"
      else Viewer.toFixed1 (div (div (div x KIB) KIB) KIB) ++ str " GB"
  end.

(** [name.replace(/\.mp4$/i, "")] *)
Definition stripMp4 (nm : jsstring) : jsstring :=
  let k := (List.length nm - 4)%nat in
  if str_eqb (toLowerCase (skipn k nm)) (str ".mp4") then firstn k nm else nm.

(** *** The selection *)
Record Selection : Type :=
  { node : ManifestNode;
    breadcrumbs : list jsstring;
    directories : list jsstring }.

Fixpoint findFirstVideo (n : ManifestNode) (crumbs directoryPaths : list jsstring)
  {struct n} : option Selection :=
  match n with
  | Video _ _ _ _ =>
      Some {| node := n; breadcrumbs := crumbs; directories := directoryPaths |}
  | Directory _ _ _ cs =>
      (fix loop (rest : list ManifestNode) : option Selection :=
         match rest with
         | [] => None
         | child :: rest' =>
             match child with
             | Directory _ _ _ _ =>
                 match findFirstVideo child (crumbs ++ [name child])
                         (directoryPaths ++ [path child]) with
                 | Some result => Some result
                 | None => loop rest'
                 end
             | Video _ _ _ _ =>
                 Some {| node := child;
                         breadcrumbs := crumbs ++ [name child];
                         directories := directoryPaths |}
             end
         end) cs
  end.

(** The fields of [state] that the tree uses. *)
Record TreeState : Type :=
  { categories : list ManifestNode;
    selectedCategoryIndex : Z;
    selectedVideo : option Selection;
    openPaths : JSSet }.

Definition initialTreeState : TreeState :=
  {| categories := [];
     selectedCategoryIndex := -1;
     selectedVideo := None;
     openPaths := Set_empty |}.

(** [array[index]]: undefined outside the array. *)
Definition at_index {A : Type} (l : list A) (index : Z) : option A :=
  if index <? 0 then None else nth_error l (Z.to_nat index).

(** [dirs.forEach((dirPath) => { if (dirPath) set.add(dirPath); })] *)
Definition addAll (dirs : list jsstring) (s : JSSet) : JSSet :=
  fold_left (fun acc dirPath => if truthy dirPath then Set_add acc dirPath else acc)
            dirs s.

(** The changes of [state] made by [selectCategory]; the three renderings
    that follow read the state and do not change it. *)
Definition selectCategory (index : Z) (st : TreeState) : TreeState :=
  if (index <? 0) || (index >=? Z.of_nat (List.length (categories st))) then st
  else
    match at_index (categories st) index with
    | None => st
    | Some category =>
        let selection := findFirstVideo category [name category] [] in
        let openSet :=
          match selection with
          | Some s => addAll (directories s) Set_empty
          | None => Set_empty
          end in
        {| categories := categories st;
           selectedCategoryIndex := index;
           selectedVideo := selection;
           openPaths := openSet |}
    end.

Definition applyVideoSelection (selection : option Selection) (st : TreeState)
  : TreeState :=
  match selection with
  | None => st
  | Some s =>
      {| categories := categories st;
         selectedCategoryIndex := selectedCategoryIndex st;
         selectedVideo := Some s;
         openPaths := addAll (directories s) (openPaths st) |}
  end.

(** The listener of the [toggle] event of a directory's [details]. *)
Definition onDetailsToggle (dirPath : jsstring) (isOpen : bool) (st : TreeState)
  : TreeState :=
  if negb (truthy dirPath) then st
  else
    {| categories := categories st;
       selectedCategoryIndex := selectedCategoryIndex st;
       selectedVideo := selectedVideo st;
       openPaths := if isOpen then Set_add (openPaths st) dirPath
                    else Set_delete (openPaths st) dirPath |}.

(** *** The document

    The elements that [renderTree] builds: a [details] element for a
    directory, with its [data-path], whether it is open, the text and the
    [data-count] of its summary and its content, and a leaf for a video,
    with its [data-path], whether it is marked complete (the class and the
    check box agree), the text of its button, whether it is marked as
    playing, the text of its size, and the selection its button applies
    when clicked. *)
Inductive Element : Type :=
| DetailsEl (dataPath : jsstring) (isOpen : bool) (summaryText : jsstring)
            (dataCount : Z) (content : list Element)
| LeafEl (dataPath : jsstring) (isComplete : bool) (buttonText : jsstring)
         (isPlaying : bool) (sizeText : jsstring) (onClick : Selection).

Inductive TreeView : Type :=
| TreeEmpty (message : jsstring)
| TreeContainer (title countText : jsstring) (content : option (list Element)).

Section Render.

(** [state.completedVideos] and the fields of the tree. *)
Variable completedVideos : JSSet.
Variable st : TreeState.

Definition createVideoLeaf (videoNode : ManifestNode)
    (crumbs directoryPaths : list jsstring) : Element :=
  LeafEl (path videoNode)
         (Set_has completedVideos (path videoNode))
         (stripMp4 (name videoNode))
         (match selectedVideo st with
          | Some s => str_eqb (path (node s)) (path videoNode)
          | None => false
          end)
         (formatBytes (size videoNode))
         {| node := videoNode;
            breadcrumbs := crumbs ++ [name videoNode];
            directories := directoryPaths |}.

Fixpoint createDirectoryGroup (n : ManifestNode) (crumbs : list jsstring)
    (depth : Z) (directoryPaths : list jsstring) {struct n} : Element :=
  let nextDirectoryPaths := directoryPaths ++ [path n] in
  DetailsEl (path n)
            ((depth <? 1) || Set_has (openPaths st) (path n))
            (name n)
            (videoCount n)
            (match n with
             | Directory _ _ _ cs =>
                 map (fun child =>
                        match child with
                        | Directory _ _ _ _ =>
                            createDirectoryGroup child (crumbs ++ [name child])
                              (depth + 1) nextDirectoryPaths
                        | Video _ _ _ _ =>
                            createVideoLeaf child crumbs nextDirectoryPaths
                        end) cs
             | Video _ _ _ _ => []
             end).

Definition MSG_SELECT_CATEGORY : jsstring :=
  [0x30AB; 0x30C6; 0x30B4; 0x30EA; 0x3092; 0x9078; 0x629E; 0x3057; 0x3066;
   0x304F; 0x3060; 0x3055; 0x3044; 0x3002].

Definition VIDEOS_SUFFIX : jsstring := [0x672C; 0x306E; 0x52D5; 0x753B].

(** The content is [None] where the notice that the category has no
    videos is shown instead of a tree. *)
Definition renderTree : TreeView :=
  match at_index (categories st) (selectedCategoryIndex st) with
  | None => TreeEmpty MSG_SELECT_CATEGORY
  | Some category =>
      TreeContainer (name category)
        (Viewer.decimal (videoCount category) ++ VIDEOS_SUFFIX)
        (match category with
         | Directory _ _ _ (c :: cs) =>
             Some (map (fun child =>
                          match child with
                          | Directory _ _ _ _ =>
                              createDirectoryGroup child
                                [name category; name child] 0 []
                          | Video _ _ _ _ =>
                              createVideoLeaf child [name category] []
                          end) (c :: cs))
         | _ => None
         end)
  end.

(** [renderCategoryList]: for each category whether its button is the
    active one, its name and the text of its count. *)
Definition renderCategoryList : list (bool * jsstring * jsstring) :=
  map (fun ic : nat * ManifestNode =>
         (Z.of_nat (fst ic) =? selectedCategoryIndex st,
          name (snd ic),
          Viewer.decimal (videoCount (snd ic)) ++ [0x672C]))
      (combine (seq 0 (List.length (categories st))) (categories st)).

End Render.

(** *** The player *)
Record PlayerView : Type :=
  { playerTitle : jsstring;
    playerBreadcrumb : jsstring;
    playerMeta : jsstring;
    playerSrc : option jsstring }.

Definition MSG_SELECT_VIDEO : jsstring :=
  [0x52D5; 0x753B; 0x3092; 0x9078; 0x629E; 0x3057; 0x3066; 0x304F; 0x3060;
   0x3055; 0x3044].

Definition MSG_NO_CATEGORY : jsstring :=
  [0x30AB; 0x30C6; 0x30B4; 0x30EA; 0x672A; 0x9078; 0x629E].

Definition FILE_SIZE_LABEL : jsstring :=
  [0x30D5; 0x30A1; 0x30A4; 0x30EB; 0x30B5; 0x30A4; 0x30BA; 0x3A; 0x20].

Definition CRUMB_SEPARATOR : jsstring := [0x20; 0x203A; 0x20].

(** [updatePlayer]: the player after the call, and whether the call ended
    in the [URIError] of [resolveVideoSrc], which leaves the source as it
    was after the three texts have been set. *)
Definition updatePlayer (VIDEO_PATH_PREFIX : jsstring) (st : TreeState)
    (player : PlayerView) : PlayerView * bool :=
  match selectedVideo st with
  | None =>
      ({| playerTitle := MSG_SELECT_VIDEO;
          playerBreadcrumb := [];
          playerMeta := [];
          playerSrc := None |}, false)
  | Some selection =>
      let title := stripMp4 (name (node selection)) in
      let joined := join CRUMB_SEPARATOR (removelast (breadcrumbs selection)) in
      let breadcrumbText := if truthy joined then joined else MSG_NO_CATEGORY in
      let meta := FILE_SIZE_LABEL ++ formatBytes (size (node selection)) in
      match Url.resolveVideoSrc VIDEO_PATH_PREFIX (path (node selection)) with
      | Some newSrc =>
          ({| playerTitle := title;
              playerBreadcrumb := breadcrumbText;
              playerMeta := meta;
              playerSrc := Some newSrc |}, false)
      | None =>
          ({| playerTitle := title;
              playerBreadcrumb := breadcrumbText;
              playerMeta := meta;
              playerSrc := playerSrc player |}, true)
      end
  end.

End Tree.

(** ** Further notions the properties are stated with *)
Module Notions.
Import JS Manifest.

(** What the store holds for the key after the calls of [setItem] in
    [calls], when it held [stored] before them.  [accepts k] tells whether
    the store takes call number [k] of the session, counted from 0.  A
    call that it does not take throws (the quota is used up, storage is
    denied): the value stays as it was and [persistCompletedVideos]
    catches the exception. *)
Fixpoint storeAfter (accepts : nat -> bool) (k : nat)
    (stored : option (list jsstring)) (calls : list (list jsstring))
    : option (list jsstring) :=
  match calls with
  | [] => stored
  | payload :: rest =>
      storeAfter accepts (S k) (if accepts k then Some payload else stored) rest
  end.

(** What the store holds for the key at the end of a session that started
    with [raw] in it and called [setItem] with the payloads [calls]. *)
Definition storedValue (raw : option (list jsstring))
    (calls : list (list jsstring)) (accepts : nat -> bool)
    : option (list jsstring) :=
  storeAfter accepts 0%nat raw calls.

(** The payload of the last call of [setItem], or [raw] when there was no
    call. *)
Definition lastPayload (raw : option (list jsstring))
    (calls : list (list jsstring)) : option (list jsstring) :=
  match calls with
  | [] => raw
  | first :: rest => Some (last rest first)
  end.

(** The state of a session that started with [raw] in the store: the
    completed set has no repetition, and it is the set that a load makes
    of the payload of the last call of [setItem] (of [raw] when there was
    no call). *)
Definition persisted (raw : option (list jsstring)) (pg : Viewer.Page) : Prop :=
  NoDup (Viewer.completedVideos pg)
  /\ Viewer.completedVideos
       (Viewer.loadCompletedVideos
          (lastPayload raw (Viewer.setItemCalls pg)) Viewer.initialPage)
     = Viewer.completedVideos pg.

(** A page after a load in which two of five videos are completed. *)
Definition loadedPage : Viewer.Page :=
  Viewer.init (Some (Reference.numberedPaths 2))
              (Some (Reference.numberedManifest 5)) Viewer.initialPage.

(** The characters an encoded component is made of: the ones that are
    kept, and the percent sign of the escapes. *)
Definition isUrlSafe (c : Z) : bool := Url.isUnreserved c || (c =? 0x25).

(** A code point [encodeURIComponent] rejects. *)
Definition isLoneSurrogate (c : Z) : bool :=
  negb (Url.isUnreserved c) && negb (Url.isScalarValue c).

Definition CDN : jsstring := str "https://cdn.jsdelivr.net/gh/".

(** A page served from a project site of GitHub Pages. *)
Definition pagesWindow : Url.Window :=
  {| Url.pathPrefixOverride := None;
     Url.hostname := str "Alice.GitHub.io";
     Url.pathname := str "/study/site/index.html" |}.

(** The Video nodes of a tree, in the order of the tree. *)
Fixpoint videoNodes (n : ManifestNode) : list ManifestNode :=
  match n with
  | Video _ _ _ _ => [n]
  | Directory _ _ _ cs => flat_map videoNodes cs
  end.

Definition videoNodesIn (cats : list ManifestNode) : list ManifestNode :=
  flat_map videoNodes cats.

(** The paths of the Directory nodes of a tree. *)
Fixpoint directoryPaths (n : ManifestNode) : list jsstring :=
  match n with
  | Video _ _ _ _ => []
  | Directory _ p _ cs => p :: flat_map directoryPaths cs
  end.

(** The leaves of an element, in the order of the document. *)
Fixpoint leaves (e : Tree.Element) : list Tree.Element :=
  match e with
  | Tree.LeafEl _ _ _ _ _ _ => [e]
  | Tree.DetailsEl _ _ _ _ content => flat_map leaves content
  end.

(** The leaves that can be seen: those below open [details] only. *)
Fixpoint shownLeaves (e : Tree.Element) : list Tree.Element :=
  match e with
  | Tree.LeafEl _ _ _ _ _ _ => [e]
  | Tree.DetailsEl _ isOpen _ _ content =>
      if isOpen then flat_map shownLeaves content else []
  end.

Definition leafPath (e : Tree.Element) : jsstring :=
  match e with
  | Tree.LeafEl p _ _ _ _ _ => p
  | Tree.DetailsEl p _ _ _ _ => p
  end.

Definition leafComplete (e : Tree.Element) : bool :=
  match e with
  | Tree.LeafEl _ c _ _ _ _ => c
  | Tree.DetailsEl _ _ _ _ _ => false
  end.

Definition contentOf (v : Tree.TreeView) : list Tree.Element :=
  match v with
  | Tree.TreeContainer _ _ (Some content) => content
  | _ => []
  end.

(** Whether an element can be seen in its parent: a folder when it is
    open, a leaf always. *)
Definition isOpenFolder (e : Tree.Element) : bool :=
  match e with
  | Tree.LeafEl _ _ _ _ _ _ => true
  | Tree.DetailsEl _ isOpen _ _ _ => isOpen
  end.

(** The number of buttons of the category list that are marked active. *)
Definition activeButtons (buttons : list (bool * jsstring * jsstring)) : nat :=
  List.length (filter (fun b => fst (fst b)) buttons).

(** The selections that the buttons of the leaves of an element apply
    when clicked, in the order of the document. *)
Fixpoint clicks (e : Tree.Element) : list Tree.Selection :=
  match e with
  | Tree.LeafEl _ _ _ _ _ s => [s]
  | Tree.DetailsEl _ _ _ _ content => flat_map clicks content
  end.

(** The [data-path] of the folders of an element. *)
Fixpoint folders (e : Tree.Element) : list jsstring :=
  match e with
  | Tree.LeafEl _ _ _ _ _ _ => []
  | Tree.DetailsEl p _ _ _ content => p :: flat_map folders content
  end.

Definition leafText (e : Tree.Element) : jsstring :=
  match e with
  | Tree.LeafEl _ _ text _ _ _ => text
  | Tree.DetailsEl _ _ text _ _ => text
  end.

(** What the callback of [forEach] in [createDirectoryGroup] appends for a
    child, for the breadcrumbs and the depth of the folder and the paths
    down to it. *)
Definition childElement (completedVideos : JSSet) (st : Tree.TreeState)
    (crumbs : list jsstring) (depth : Z) (nextDirectoryPaths : list jsstring)
    (child : ManifestNode) : Tree.Element :=
  match child with
  | Directory _ _ _ _ =>
      Tree.createDirectoryGroup completedVideos st child (crumbs ++ [name child])
        (depth + 1) nextDirectoryPaths
  | Video _ _ _ _ =>
      Tree.createVideoLeaf completedVideos st child crumbs nextDirectoryPaths
  end.

Definition leafPlaying (e : Tree.Element) : bool :=
  match e with
  | Tree.LeafEl _ _ _ playing _ _ => playing
  | Tree.DetailsEl _ _ _ _ _ => false
  end.

Definition isDirectory (n : ManifestNode) : bool :=
  match n with Directory _ _ _ _ => true | Video _ _ _ _ => false end.

(** [route] is the list of the folders passed on the way down from [n] to
    its descendant [v]: each one is a child of the one before. *)
Fixpoint isRoute (n : ManifestNode) (route : list ManifestNode)
    (v : ManifestNode) : Prop :=
  match route with
  | [] => In v (children n)
  | r :: rest => In r (children n) /\ isDirectory r = true /\ isRoute r rest v
  end.

(** The events of the tree: a category button, the button of a leaf with
    the selection it applies, and the toggle of a folder. *)
Inductive TreeEvent : Type :=
| ClickCategory (index : Z)
| ClickLeaf (selection : Tree.Selection)
| ToggleFolder (dirPath : jsstring) (isOpen : bool).

Definition treeStep (st : Tree.TreeState) (ev : TreeEvent) : Tree.TreeState :=
  match ev with
  | ClickCategory index => Tree.selectCategory index st
  | ClickLeaf selection => Tree.applyVideoSelection (Some selection) st
  | ToggleFolder dirPath isOpen => Tree.onDetailsToggle dirPath isOpen st
  end.

(** An event can happen when the page offers it: a leaf and a folder must
    be in the tree that is drawn for the state.  Which leaves and folders
    there are does not depend on the completed set. *)
Definition enabled (st : Tree.TreeState) (ev : TreeEvent) : Prop :=
  match ev with
  | ClickCategory _ => True
  | ClickLeaf selection =>
      exists completed,
        In selection (flat_map clicks (contentOf (Tree.renderTree completed st)))
  | ToggleFolder dirPath _ =>
      exists completed,
        In dirPath (flat_map folders (contentOf (Tree.renderTree completed st)))
  end.

(** The states of the tree that a page with the categories [cats] can
    get into. *)
Inductive reachable (cats : list ManifestNode) : Tree.TreeState -> Prop :=
| reach_loaded :
    reachable cats {| Tree.categories := cats;
                      Tree.selectedCategoryIndex := -1;
                      Tree.selectedVideo := None;
                      Tree.openPaths := Set_empty |}
| reach_step : forall st ev,
    reachable cats st -> enabled st ev -> reachable cats (treeStep st ev).

(** The entries of a directory for which [buildNode] returns a node:
    those whose name does not start with a dot and that are a directory or
    a regular file with the extension [.mp4]. *)
Definition keptEntry (entry : jsstring * Indexer.FsNode) : bool :=
  negb (Reference.isDotName (fst entry))
  && match snd entry with
     | Indexer.FsFile _ => Reference.hasMp4Extension (fst entry)
     | Indexer.FsDir _ => true
     | _ => false
     end.

(** The node [n] is the node of the path [fullPath] below [videos]: it
    has the last name of the path as its name and [videos/] followed by
    the names of the path, joined by [/], as its path; a Video has the
    extension [.mp4] and the count 1; no child of a Directory has a name
    that starts with a dot, and each child is the node of the path of the
    Directory followed by the name of the child. *)
Fixpoint placedAt (fullPath : list jsstring) (n : ManifestNode) : bool :=
  str_eqb (name n) (Indexer.basename fullPath)
  && str_eqb (path n) (Indexer.manifestPath fullPath)
  && match n with
     | Video nm _ _ c => (c =? 1) && Reference.hasMp4Extension nm
     | Directory _ _ _ cs =>
         (fix all (l : list ManifestNode) : bool :=
            match l with
            | [] => true
            | child :: rest =>
                negb (Reference.isDotName (name child))
                && placedAt (fullPath ++ [name child]) child
                && all rest
            end) cs
     end.

(** The node [n] is the node of the entry [entryName] of the directory
    at the path [dir], where the entry is [target]: its name is the name
    of the entry, which does not start with a dot, and its path is
    [videos/] followed by the names of [dir] and the name of the entry,
    joined by [/].  A Video stands for a regular file with the extension
    [.mp4], has the size of the file and the count 1.  A Directory stands
    for a directory, has the number of the videos below it as its count,
    and each of its children is the node of an entry of that directory. *)
Fixpoint nodeOf (dir : list jsstring) (entryName : jsstring)
    (target : Indexer.FsNode) (n : ManifestNode) {struct n} : bool :=
  str_eqb (name n) entryName
  && str_eqb (path n) (Indexer.manifestPath (dir ++ [entryName]))
  && negb (Reference.isDotName entryName)
  && match n with
     | Video _ _ sz c =>
         match target with
         | Indexer.FsFile size =>
             (sz =? size) && (c =? 1) && Reference.hasMp4Extension entryName
         | _ => false
         end
     | Directory _ _ c cs =>
         match target with
         | Indexer.FsDir entries =>
             (c =? Reference.spec_countVideos entryName target)
             && (fix all (l : list ManifestNode) : bool :=
                   match l with
                   | [] => true
                   | child :: rest =>
                       existsb (fun entry =>
                                  nodeOf (dir ++ [entryName])
                                         (fst entry) (snd entry) child)
                               entries
                       && all rest
                   end) cs
         | _ => false
         end
     end.

(** *** The order of the children

    The weight of a node, and a list in which no node is followed,
    directly or later, by a node of smaller weight. *)
Definition weightOf (n : ManifestNode) : Number :=
  Indexer.getLeadingNumberWeight (name n).

Definition weightLe (a b : ManifestNode) : bool :=
  negb (lt (weightOf b) (weightOf a)).

Fixpoint weightOrdered (l : list ManifestNode) : bool :=
  match l with
  | [] => true
  | x :: rest => forallb (weightLe x) rest && weightOrdered rest
  end.

(** The children of every Directory of the tree are in that order. *)
Fixpoint orderedTree (n : ManifestNode) : bool :=
  match n with
  | Video _ _ _ _ => true
  | Directory _ _ _ cs =>
      weightOrdered cs
      && (fix all (l : list ManifestNode) : bool :=
            match l with
            | [] => true
            | child :: rest => orderedTree child && all rest
            end) cs
  end.

(** A list in which no element is to be sorted after a later one,
    according to the comparison function. *)
Fixpoint comparatorOrdered {A : Type} (comparefn : A -> A -> Number)
    (l : list A) : bool :=
  match l with
  | [] => true
  | x :: rest =>
      forallb (fun y => negb (JSArray.sortsAfter comparefn x y)) rest
      && comparatorOrdered comparefn rest
  end.

(** A collation is consistent when "collates after" is asymmetric and its
    negation is transitive, as the order of a collator is. *)
Definition consistent (collator_compare : jsstring -> jsstring -> Number) : Prop :=
  (forall a b, lt zero (collator_compare a b) = true ->
               lt zero (collator_compare b a) = false)
  /\ (forall a b c, lt zero (collator_compare a b) = false ->
                    lt zero (collator_compare b c) = false ->
                    lt zero (collator_compare a c) = false).

(** The Numbers that are weights: zero, positive infinity, and the
    positive Numbers with a full mantissa that are not below [2^-52] times
    it. *)
Definition isWeight (x : Number) : bool :=
  match x with
  | S754_zero false => true
  | S754_infinity false => true
  | S754_finite false m e =>
      (Z.pos (digits2_pos m) =? 53) && (-52 <=? e) && (e <=? 971)
  | _ => false
  end.

(** The value of a weight as a multiple of [2^-1074]; [None] is infinity. *)
Definition rank (x : Number) : option Z :=
  match x with
  | S754_zero _ => Some 0
  | S754_finite false m e => Some (Z.pos m * 2 ^ (e + 1074))
  | _ => None
  end.

Definition rankLt (a b : option Z) : bool :=
  match a, b with
  | Some x, Some y => x <? y
  | Some _, None => true
  | None, _ => false
  end.

Definition slashFree (nm : jsstring) : bool :=
  forallb (fun c => negb (c =? 0x2F)) nm.

Fixpoint distinct (names : list jsstring) : bool :=
  match names with
  | [] => true
  | nm :: rest => negb (Set_has rest nm) && distinct rest
  end.

(** The names below [videos] are as a file system has them: in every
    directory the names of the entries differ from each other, and no name
    holds a [/]. *)
Fixpoint wellNamed (stats : Indexer.FsNode) : bool :=
  match stats with
  | Indexer.FsDir entries =>
      distinct (map fst entries) && forallb slashFree (map fst entries)
      && (fix all (es : list (jsstring * Indexer.FsNode)) : bool :=
            match es with
            | [] => true
            | entry :: rest => wellNamed (snd entry) && all rest
            end) entries
  | _ => true
  end.

(** The same of the names of the nodes of a manifest. *)
Fixpoint wellNamedTree (n : ManifestNode) : bool :=
  match n with
  | Video _ _ _ _ => true
  | Directory _ _ _ cs =>
      distinct (map name cs) && forallb slashFree (map name cs)
      && (fix all (l : list ManifestNode) : bool :=
            match l with
            | [] => true
            | child :: rest => wellNamedTree child && all rest
            end) cs
  end.

Definition sampleWorld : Indexer.World :=
  {| Indexer.videos := Indexer.FsDir Reference.sampleEntries;
     Indexer.now := Reference.sampleNow;
     Indexer.mkdirFails := false;
     Indexer.writeFileFails := false |}.

(** A manifest to run examples with: a category with a video in a folder
    two levels down, behind a folder without videos. *)
Definition sampleCategory : ManifestNode :=
  Directory (str "Basics") (str "videos/Basics") 2
    [ Directory (str "01 empty") (str "videos/Basics/01 empty") 0 [];
      Directory (str "02 intro") (str "videos/Basics/02 intro") 2
        [ Directory (str "part a") (str "videos/Basics/02 intro/part a") 1
            [ Video (str "hello.mp4") (str "videos/Basics/02 intro/part a/hello.mp4")
                    2048 1 ];
          Video (str "world.MP4") (str "videos/Basics/02 intro/world.MP4") 5 1 ] ].

(** A manifest whose only category is a video that lies in [videos]
    itself. *)
Definition sampleLooseVideo : ManifestNode :=
  Video (str "loose.mp4") (str "videos/loose.mp4") 7 1.

Definition looseTreeState : Tree.TreeState :=
  {| Tree.categories := [sampleLooseVideo];
     Tree.selectedCategoryIndex := -1;
     Tree.selectedVideo := None;
     Tree.openPaths := Set_empty |}.

Definition emptyPlayer : Tree.PlayerView :=
  {| Tree.playerTitle := [];
     Tree.playerBreadcrumb := [];
     Tree.playerMeta := [];
     Tree.playerSrc := None |}.

Definition sampleTreeState : Tree.TreeState :=
  {| Tree.categories := [sampleCategory];
     Tree.selectedCategoryIndex := -1;
     Tree.selectedVideo := None;
     Tree.openPaths := Set_empty |}.

End Notions.

(* ===================================================================== *)
(** * Part II: properties                                                 *)
(* ===================================================================== *)

(** ** Strings, sets and sorting *)
Module JSFacts.
Import JS.

Lemma str_eqb_eq : forall a b, str_eqb a b = true <-> a = b.
Proof.
  induction a as [|x a IH]; destruct b as [|y b]; simpl; split; intro H;
    try reflexivity; try discriminate.
  - apply andb_true_iff in H. destruct H as [Hxy Hab].
    apply Z.eqb_eq in Hxy. apply IH in Hab. now subst.
  - inversion H; subst. rewrite Z.eqb_refl. simpl. now apply IH.
Qed.

Lemma str_eqb_refl : forall a, str_eqb a a = true.
Proof. intro a. now apply str_eqb_eq. Qed.

Lemma str_eqb_sym : forall a b, str_eqb a b = str_eqb b a.
Proof.
  intros a b. destruct (str_eqb a b) eqn:E.
  - apply str_eqb_eq in E. subst. symmetry. apply str_eqb_refl.
  - destruct (str_eqb b a) eqn:E'; [|reflexivity].
    apply str_eqb_eq in E'. subst. now rewrite str_eqb_refl in E.
Qed.

Lemma Set_has_In : forall s x, Set_has s x = true <-> In x s.
Proof.
  induction s as [|y s IH]; simpl; intro x.
  - split; [discriminate | tauto].
  - rewrite orb_true_iff, IH, str_eqb_eq. tauto.
Qed.

Lemma Set_has_app : forall s t x, Set_has (s ++ t) x = Set_has s x || Set_has t x.
Proof.
  induction s as [|y s IH]; simpl; intros t x; [reflexivity|].
  now rewrite IH, orb_assoc.
Qed.

Lemma Set_has_add : forall s x y,
  Set_has (Set_add s x) y = Set_has s y || str_eqb x y.
Proof.
  intros s x y. unfold Set_add. destruct (Set_has s x) eqn:E.
  - destruct (str_eqb x y) eqn:Exy.
    + apply str_eqb_eq in Exy. subst. rewrite E. reflexivity.
    + now rewrite orb_false_r.
  - rewrite Set_has_app. simpl. now rewrite orb_false_r.
Qed.

Lemma Set_has_delete : forall s x y,
  Set_has (Set_delete s x) y = Set_has s y && negb (str_eqb x y).
Proof.
  induction s as [|z s IH]; simpl; intros x y; [reflexivity|].
  destruct (str_eqb z x) eqn:Ezx.
  - apply str_eqb_eq in Ezx. subst z. rewrite IH.
    destruct (str_eqb x y); simpl; [now rewrite andb_false_r | now rewrite andb_true_r].
  - simpl. rewrite IH. destruct (str_eqb z y) eqn:Ezy; simpl; [|reflexivity].
    apply str_eqb_eq in Ezy. subst z. rewrite str_eqb_sym, Ezx. reflexivity.
Qed.

Lemma Set_has_fold_add : forall l acc x,
  Set_has (fold_left Set_add l acc) x = Set_has acc x || Set_has l x.
Proof.
  induction l as [|y l IH]; simpl; intros acc x.
  - now rewrite orb_false_r.
  - rewrite IH, Set_has_add. now rewrite orb_assoc.
Qed.

Lemma Set_has_from : forall l x, Set_has (Set_from l) x = Set_has l x.
Proof. intros l x. unfold Set_from. now rewrite Set_has_fold_add. Qed.

Lemma Set_has_filter : forall (f : jsstring -> bool) s x,
  Set_has (filter f s) x = Set_has s x && f x.
Proof.
  induction s as [|y s IH]; simpl; intro x; [reflexivity|].
  destruct (f y) eqn:Efy; simpl; rewrite IH.
  - destruct (str_eqb y x) eqn:E; simpl; [|reflexivity].
    apply str_eqb_eq in E. subst. now rewrite Efy.
  - destruct (str_eqb y x) eqn:E; simpl; [|reflexivity].
    apply str_eqb_eq in E. subst. rewrite Efy. now rewrite andb_false_r.
Qed.

(** Sorting rearranges: nothing is lost and nothing is added. *)
Lemma insert_Permutation : forall (A : Type) (cmp : A -> A -> Number) x l,
  Permutation (x :: l) (JSArray.insert cmp x l).
Proof.
  intros A cmp x l. induction l as [|y l IH]; simpl.
  - apply Permutation_refl.
  - destruct (JSArray.sortsAfter cmp x y).
    + apply perm_trans with (y :: x :: l); [apply perm_swap | now apply perm_skip].
    + apply Permutation_refl.
Qed.

Lemma sort_Permutation : forall (A : Type) (cmp : A -> A -> Number) l,
  Permutation l (JSArray.sort cmp l).
Proof.
  intros A cmp l. induction l as [|x l IH]; simpl.
  - apply perm_nil.
  - apply perm_trans with (x :: JSArray.sort cmp l).
    + now apply perm_skip.
    + apply insert_Permutation.
Qed.

End JSFacts.

(** ** Numbers: small integers are held exactly *)
Module NumberFacts.
Import JS Reference.

Lemma digits2_pos_bounds : forall p,
  2 ^ (Z.pos (digits2_pos p) - 1) <= Z.pos p < 2 ^ Z.pos (digits2_pos p).
Proof.
  induction p as [p IH|p IH|]; simpl digits2_pos.
  - rewrite Pos2Z.inj_succ, Z.pow_succ_r by lia.
    replace (Z.succ (Z.pos (digits2_pos p)) - 1) with (Z.succ (Z.pos (digits2_pos p) - 1)) by lia.
    rewrite Z.pow_succ_r by lia. rewrite (Pos2Z.inj_xI p). lia.
  - rewrite Pos2Z.inj_succ, Z.pow_succ_r by lia.
    replace (Z.succ (Z.pos (digits2_pos p)) - 1) with (Z.succ (Z.pos (digits2_pos p) - 1)) by lia.
    rewrite Z.pow_succ_r by lia. rewrite (Pos2Z.inj_xO p). lia.
  - simpl. lia.
Qed.

Lemma iter_xO_value : forall k p, Z.pos (Pos.iter xO p k) = Z.pos p * 2 ^ Z.pos k.
Proof.
  induction k as [|k IH] using Pos.peano_ind; intro p.
  - simpl. lia.
  - rewrite Pos.iter_succ, Pos2Z.inj_xO, IH, Pos2Z.inj_succ, Z.pow_succ_r by lia. lia.
Qed.

Lemma iter_xO_digits : forall k p,
  digits2_pos (Pos.iter xO p k) = (digits2_pos p + k)%positive.
Proof.
  induction k as [|k IH] using Pos.peano_ind; intro p.
  - simpl. lia.
  - rewrite Pos.iter_succ. simpl. rewrite IH. lia.
Qed.

(** A mantissa of 53 bits with an exponent in range is not rounded. *)
Lemma binary_round_aux_exact : forall mz ez,
  digits2_pos mz = 53%positive -> -1074 <= ez <= 971 ->
  binary_round_aux 53 1024 false (Z.pos mz) ez loc_Exact = S754_finite false mz ez.
Proof.
  intros mz ez Hd He.
  assert (Hs : shr_fexp 53 1024 (Z.pos mz) ez loc_Exact
               = ({| shr_m := Z.pos mz; shr_r := false; shr_s := false |}, ez)).
  { unfold shr_fexp, fexp, emin. simpl Zdigits2. rewrite Hd.
    replace (Z.max (53 + ez - 53) (3 - 1024 - 53) - ez) with 0 by lia.
    reflexivity. }
  unfold binary_round_aux. rewrite Hs. simpl round_nearest_even. rewrite Hs.
  simpl. destruct (ez <=? 971) eqn:E; [reflexivity|]. apply Z.leb_gt in E. lia.
Qed.

Lemma Number_of_Z_exact : forall n,
  0 <= n <= 2 ^ 53 -> integerValue (Number_of_Z n) = Some n.
Proof.
  intros n Hn. destruct (Z.eq_dec n (2 ^ 53)) as [->|Hne]; [reflexivity|].
  destruct n as [|p|p]; [reflexivity| |lia].
  assert (Hp : Z.pos p < 2 ^ 53) by lia.
  pose proof (digits2_pos_bounds p) as [Hlo _].
  assert (Hd : Z.pos (digits2_pos p) <= 53).
  { destruct (Z_le_gt_dec (Z.pos (digits2_pos p)) 53) as [|Hgt]; [assumption|].
    assert (2 ^ 53 <= 2 ^ (Z.pos (digits2_pos p) - 1)) by (apply Z.pow_le_mono_r; lia).
    lia. }
  unfold Number_of_Z, binary_normalize, binary_round, shl_align, fexp, emin.
  replace (Z.max (Z.pos (digits2_pos p) + 0 - 53) (3 - 1024 - 53) - 0)
    with (Z.pos (digits2_pos p) - 53) by lia.
  replace (Z.max (Z.pos (digits2_pos p) + 0 - 53) (3 - 1024 - 53))
    with (Z.pos (digits2_pos p) - 53) by lia.
  destruct (Z.pos (digits2_pos p) - 53) as [|q|q] eqn:Eq; [| lia |].
  - rewrite binary_round_aux_exact by lia.
    simpl. f_equal. lia.
  - rewrite binary_round_aux_exact.
    + unfold integerValue.
      assert (Hneg : (0 <=? Z.neg q) = false) by (apply Z.leb_gt; lia).
      rewrite Hneg. rewrite iter_xO_value.
      replace (- Z.neg q) with (Z.pos q) by lia.
      rewrite Z.mod_mul by lia. simpl Z.eqb. cbv iota.
      rewrite Z.div_mul by lia. reflexivity.
    + rewrite iter_xO_digits. lia.
    + lia.
Qed.

(** A Number made from a natural number is zero, a positive finite number
    or positive infinity: the shifts of the rounding keep the mantissa
    non-negative. *)
Lemma shr_1_nonneg : forall mrs, 0 <= shr_m mrs -> 0 <= shr_m (shr_1 mrs).
Proof.
  intros [m r s] H. simpl in H.
  destruct m as [|p|p]; [simpl; lia | destruct p; simpl; lia | lia].
Qed.

Lemma iter_shr_1_nonneg : forall n mrs,
  0 <= shr_m mrs -> 0 <= shr_m (iter_pos shr_1 n mrs).
Proof.
  induction n as [n IH|n IH|]; intros mrs H; simpl.
  - apply IH, IH, shr_1_nonneg, H.
  - apply IH, IH, H.
  - apply shr_1_nonneg, H.
Qed.

Lemma shr_fexp_nonneg : forall m e l,
  0 <= m -> 0 <= shr_m (fst (shr_fexp 53 1024 m e l)).
Proof.
  intros m e l H. unfold shr_fexp, shr.
  assert (H0 : 0 <= shr_m (shr_record_of_loc m l)) by (destruct l as [|[]]; exact H).
  destruct (fexp 53 1024 (Zdigits2 m + e) - e); simpl; try assumption.
  now apply iter_shr_1_nonneg.
Qed.

Lemma round_nearest_even_nonneg : forall m l, 0 <= m -> 0 <= round_nearest_even m l.
Proof.
  intros m l H. unfold round_nearest_even.
  destruct l as [|[]]; try assumption; [destruct (Z.even m)|]; lia.
Qed.

Lemma binary_round_aux_class : forall m e l,
  0 <= m ->
  isFiniteNumber (binary_round_aux 53 1024 false m e l) = true
  \/ binary_round_aux 53 1024 false m e l = POSITIVE_INFINITY.
Proof.
  intros m e l H. unfold binary_round_aux.
  pose proof (shr_fexp_nonneg m e l H) as H1.
  destruct (shr_fexp 53 1024 m e l) as [mrs1 e1]. simpl fst in H1.
  pose proof (shr_fexp_nonneg
                (round_nearest_even (shr_m mrs1) (loc_of_shr_record mrs1)) e1 loc_Exact
                (round_nearest_even_nonneg _ _ H1)) as H2.
  destruct (shr_fexp 53 1024 _ e1 loc_Exact) as [mrs2 e2]. simpl fst in H2.
  destruct (shr_m mrs2) as [|p|p]; [now left | | lia].
  destruct (e2 <=? 1024 - 53); [now left | now right].
Qed.

Lemma Number_of_Z_class : forall n,
  0 <= n ->
  isFiniteNumber (Number_of_Z n) = true \/ Number_of_Z n = POSITIVE_INFINITY.
Proof.
  intros [|p|p] H; [now left | | lia].
  unfold Number_of_Z, binary_normalize, binary_round.
  destruct (shl_align p 0 _) as [mz ez]. apply binary_round_aux_class. lia.
Qed.

End NumberFacts.

(** ** The indexer: the sort key and the comparator *)
Module WeightFacts.
Import JS Manifest Indexer Reference JSFacts NumberFacts.

Lemma takeWhile_all : forall p s, Forall (fun c => p c = true) (takeWhile p s).
Proof.
  intros p s. induction s as [|c s IH]; simpl; [constructor|].
  destruct (p c) eqn:E; constructor; assumption.
Qed.

Lemma digits_fold_nonneg : forall ds acc,
  Forall (fun d => isDigit d = true) ds -> 0 <= acc ->
  0 <= fold_left (fun a d => a * 10 + (d - 0x30)) ds acc.
Proof.
  induction ds as [|d ds IH]; simpl; intros acc Hall Hacc; [assumption|].
  inversion Hall as [|? ? Hd Hrest]; subst. apply IH; [assumption|].
  unfold isDigit in Hd. apply andb_true_iff in Hd. destruct Hd as [H1 H2].
  apply Z.leb_le in H1. lia.
Qed.

Lemma spec_weight_nonneg : forall s n,
  spec_leadingNumberWeight s = Finite n -> 0 <= n.
Proof.
  intros s n. unfold spec_leadingNumberWeight. destruct s as [|c t]; [discriminate|].
  destruct (isCircledDigit c) eqn:Ec.
  - intro H. inversion H; subst. unfold isCircledDigit in Ec.
    apply andb_true_iff in Ec. destruct Ec as [H1 _]. apply Z.leb_le in H1. lia.
  - pose proof (takeWhile_all isDigit (c :: t)) as Hall.
    destruct (takeWhile isDigit (c :: t)) as [|d ds]; [discriminate|].
    intro H. inversion H; subst. unfold digitsValue.
    apply digits_fold_nonneg; [assumption | lia].
Qed.

Lemma weight_of_trimmed : forall name,
  getLeadingNumberWeight name
  = Number_of_Weight (spec_leadingNumberWeight (trim name)).
Proof.
  intro name. unfold getLeadingNumberWeight.
  destruct name as [|c0 rest]; [reflexivity|].
  change (negb (truthy (c0 :: rest))) with false. cbv iota.
  destruct (trim (c0 :: rest)) as [|c t]; [reflexivity|].
  change (negb (truthy (c :: t))) with false. cbv iota.
  unfold spec_leadingNumberWeight, isCircledDigit. cbv zeta.
  change (hd 0 (c :: t)) with c.
  destruct ((9312 <=? c) && (c <=? 9331)).
  - unfold Number_of_Weight. f_equal. lia.
  - destruct (takeWhile isDigit (c :: t)); reflexivity.
Qed.

(** C2 (as the code has it): the weight of a name is read off the name
    with its surrounding whitespace removed.  It is the position 1..20 of
    a leading circled digit, else the Number for the leading run of ASCII
    digits, else positive infinity; the Number holds the integer itself up
    to 2^53. *)
Theorem getLeadingNumberWeight_of_trimmed_name : forall name,
  getLeadingNumberWeight name
  = Number_of_Weight (spec_leadingNumberWeight (trim name))
  /\ forall n, spec_leadingNumberWeight (trim name) = Finite n ->
       0 <= n
       /\ (n <= 2 ^ 53 -> integerValue (getLeadingNumberWeight name) = Some n).
Proof.
  intro name. split; [apply weight_of_trimmed|].
  intros n Hn. pose proof (spec_weight_nonneg _ _ Hn) as Hpos.
  split; [assumption|]. intro Hle.
  rewrite weight_of_trimmed, Hn. simpl Number_of_Weight.
  apply Number_of_Z_exact. lia.
Qed.

Lemma getLeadingNumberWeight_of_trimmed_name_witness :
  spec_leadingNumberWeight (trim (str " 12 lessons ")) = Finite 12
  /\ 12 <= 2 ^ 53
  /\ integerValue (getLeadingNumberWeight (str " 12 lessons ")) = Some 12.
Proof.
  split; [reflexivity|]. split; [lia|].
  destruct (getLeadingNumberWeight_of_trimmed_name (str " 12 lessons ")) as [_ Hrun].
  destruct (Hrun 12 eq_refl) as [_ Hexact].
  apply Hexact. lia.
Defined.

(** C2, the case that fails as stated: the name " 1" starts with a space,
    which is neither a circled digit nor a digit, and yet weighs 1. *)
Lemma getLeadingNumberWeight_leading_space :
  getLeadingNumberWeight (str " 1") = Number_of_Z 1
  /\ integerValue (getLeadingNumberWeight (str " 1")) = Some 1
  /\ spec_leadingNumberWeight (str " 1") = Infinite
  /\ getLeadingNumberWeight (str " 1")
     <> Number_of_Weight (spec_leadingNumberWeight (str " 1")).
Proof.
  repeat split; try reflexivity. vm_compute. discriminate.
Qed.

Example weight_circled_one :
  integerValue (getLeadingNumberWeight (0x2460 :: str "Intro")) = Some 1.
Proof. reflexivity. Qed.

Example weight_circled_twenty :
  integerValue (getLeadingNumberWeight (0x2473 :: str "Last")) = Some 20.
Proof. reflexivity. Qed.

Example weight_digit_run :
  integerValue (getLeadingNumberWeight (str "10_Extra")) = Some 10.
Proof. reflexivity. Qed.

Example weight_unnumbered :
  getLeadingNumberWeight (str "Misc") = POSITIVE_INFINITY.
Proof. reflexivity. Qed.

(** Beyond 2^53 the Number is the nearest one, not the integer. *)
Example weight_rounds_long_runs :
  integerValue (getLeadingNumberWeight (str "9007199254740993"))
  = Some 9007199254740992.
Proof. reflexivity. Qed.

Section Comparator.
Variable collator_compare : jsstring -> jsstring -> Number.

(** Two names without a leading number: the difference of the weights is
    infinity minus infinity, which is NaN and not zero, so NaN is returned
    and the collation is not asked. *)
Lemma compareEntries_unnumbered : forall a b,
  getLeadingNumberWeight (name a) = POSITIVE_INFINITY ->
  getLeadingNumberWeight (name b) = POSITIVE_INFINITY ->
  compareEntries collator_compare a b = NaN.
Proof.
  intros a b Ha Hb. unfold compareEntries. rewrite Ha, Hb. reflexivity.
Qed.

(** The difference of a finite weight with itself is zero. *)
Lemma sub_self_finite : forall x,
  isFiniteNumber x = true -> strictNe (sub x x) zero = false.
Proof.
  intros [s|s| |s m e] Hx; try discriminate.
  - destruct s; reflexivity.
  - unfold sub, SFsub. rewrite Z.min_id. unfold shl_align.
    rewrite Z.sub_diag. simpl fst.
    replace (cond_Zopp s (Z.pos m) - cond_Zopp s (Z.pos m)) with 0 by lia.
    reflexivity.
Qed.

(** Two names of the same finite weight: the tie is left to the
    collation, as the comparator intends for every tie. *)
Lemma compareEntries_equal_finite_weights : forall a b,
  isFiniteNumber (getLeadingNumberWeight (name a)) = true ->
  getLeadingNumberWeight (name a) = getLeadingNumberWeight (name b) ->
  compareEntries collator_compare a b = collator_compare (name a) (name b).
Proof.
  intros a b Hfin Heq. unfold compareEntries. rewrite <- Heq.
  now rewrite sub_self_finite.
Qed.

(** A name with a finite weight against one without a number: the
    difference is minus infinity, so the first never moves behind the
    second and the second always moves behind the first. *)
Lemma compareEntries_numbered_unnumbered : forall a b,
  isFiniteNumber (getLeadingNumberWeight (name a)) = true ->
  getLeadingNumberWeight (name b) = POSITIVE_INFINITY ->
  JSArray.sortsAfter (compareEntries collator_compare) a b = false
  /\ JSArray.sortsAfter (compareEntries collator_compare) b a = true.
Proof.
  intros a b Ha Hb. unfold JSArray.sortsAfter, compareEntries.
  rewrite Hb. destruct (getLeadingNumberWeight (name a)) as [s|s| |s m e];
    try discriminate; split; reflexivity.
Qed.

End Comparator.

(** C3, evaluated where the code departs from it: two entries without a
    leading number, listed by [readdir] as b.mp4 then a.mp4.  Their
    comparison is NaN, the sort leaves them as listed and [buildNode]
    returns them in that order, whatever the collation says of the two
    names. *)
Theorem sort_keeps_unnumbered_entries_as_listed : forall collator_compare,
  let b := Video (str "b.mp4") (str "videos/b.mp4") 0 1 in
  let a := Video (str "a.mp4") (str "videos/a.mp4") 0 1 in
  getLeadingNumberWeight (name b) = getLeadingNumberWeight (name a)
  /\ compareEntries collator_compare b a = NaN
  /\ compareEntries collator_compare a b = NaN
  /\ JSArray.sort (compareEntries collator_compare) [b; a] = [b; a]
  /\ buildNode collator_compare []
       (FsDir [(str "b.mp4", FsFile 0); (str "a.mp4", FsFile 0)])
     = OK (Some (Directory (str "videos") (str "videos") 2 [b; a])).
Proof.
  intros collator_compare b a. repeat split; reflexivity.
Qed.

(** A weight is a finite number or positive infinity, never NaN and never
    negative infinity. *)
Lemma weight_class : forall nm,
  isFiniteNumber (getLeadingNumberWeight nm) = true
  \/ getLeadingNumberWeight nm = POSITIVE_INFINITY.
Proof.
  intro nm. rewrite weight_of_trimmed.
  destruct (spec_leadingNumberWeight (trim nm)) as [n|] eqn:E; [|now right].
  simpl. apply Number_of_Z_class. eapply spec_weight_nonneg; eassumption.
Qed.

Lemma forallb_insert : forall (A : Type) (cmp : A -> A -> Number) (f : A -> bool) x l,
  forallb f (JSArray.insert cmp x l) = f x && forallb f l.
Proof.
  intros A cmp f x l. induction l as [|y l IH]; simpl; [reflexivity|].
  destruct (JSArray.sortsAfter cmp x y); simpl; [|reflexivity].
  rewrite IH. destruct (f x), (f y); reflexivity.
Qed.

Lemma insert_numberedFirst : forall collator_compare x l,
  numberedFirst l = true ->
  numberedFirst (JSArray.insert (compareEntries collator_compare) x l) = true.
Proof.
  intros collator_compare x l. induction l as [|y l IH]; intro Hl.
  - simpl. now rewrite orb_true_r.
  - simpl in Hl. apply andb_true_iff in Hl. destruct Hl as [Hy Hrest].
    simpl JSArray.insert.
    destruct (JSArray.sortsAfter (compareEntries collator_compare) x y) eqn:Hxy.
    + simpl. rewrite (IH Hrest), andb_true_r.
      destruct (isNumbered y) eqn:Ny; [reflexivity|]. simpl in Hy |- *.
      rewrite forallb_insert, Hy, andb_true_r.
      destruct (isNumbered x) eqn:Nx; [|reflexivity].
      destruct (weight_class (name y)) as [Hfin|Hinf];
        [unfold isNumbered in Ny; congruence|].
      destruct (compareEntries_numbered_unnumbered collator_compare x y Nx Hinf)
        as [Hno _]. congruence.
    + change (numberedFirst (x :: y :: l))
        with ((isNumbered x || (negb (isNumbered y)
                                && forallb (fun z => negb (isNumbered z)) l))
              && ((isNumbered y || forallb (fun z => negb (isNumbered z)) l)
                  && numberedFirst l)).
      rewrite Hy, Hrest. simpl andb. rewrite andb_true_r.
      destruct (isNumbered x) eqn:Nx; [reflexivity|]. simpl.
      destruct (weight_class (name x)) as [Hfin|Hinf];
        [unfold isNumbered in Nx; congruence|].
      destruct (isNumbered y) eqn:Ny.
      * destruct (compareEntries_numbered_unnumbered collator_compare y x Ny Hinf)
          as [_ Hyes]. congruence.
      * simpl in Hy |- *. exact Hy.
Qed.

(** The part of the intended order that the comparator does achieve, for
    every collation: after the sort, no entry without a leading number
    comes before an entry that has one. *)
Lemma sort_numberedFirst : forall collator_compare l,
  numberedFirst (JSArray.sort (compareEntries collator_compare) l) = true.
Proof.
  intros collator_compare l. induction l as [|x l IH]; simpl; [reflexivity|].
  now apply insert_numberedFirst.
Qed.

Lemma buildNode_children_numberedFirst :
  forall collator_compare fullPath entries node,
  buildNode collator_compare fullPath (FsDir entries) = OK (Some node) ->
  numberedFirst (children node) = true.
Proof.
  intros collator_compare fullPath entries node Hb.
  change (buildNode collator_compare fullPath (FsDir entries))
    with (match walkEntries (buildNode collator_compare) fullPath entries [] with
          | Err e => Err e
          | OK kids =>
              let sorted := JSArray.sort (compareEntries collator_compare) kids in
              OK (Some (Directory (basename fullPath) (manifestPath fullPath)
                                  (sumVideoCount sorted) sorted))
          end) in Hb.
  destruct (walkEntries _ _ _ _) as [kids|e]; [|discriminate].
  cbv zeta in Hb. inversion Hb; subst. simpl children. apply sort_numberedFirst.
Qed.

(** With the order of the code points as collation, a.mp4 comes before
    b.mp4, and entries of equal finite weight are ordered that way. *)
Example collation_puts_a_before_b :
  lt (codePointOrder (str "a.mp4") (str "b.mp4")) zero = true.
Proof. reflexivity. Qed.

Example sort_breaks_numbered_ties :
  JSArray.sort (compareEntries codePointOrder)
    [ Video (str "1_b.mp4") (str "videos/1_b.mp4") 0 1;
      Video (str "1_a.mp4") (str "videos/1_a.mp4") 0 1 ]
  = [ Video (str "1_a.mp4") (str "videos/1_a.mp4") 0 1;
      Video (str "1_b.mp4") (str "videos/1_b.mp4") 0 1 ].
Proof. reflexivity. Qed.

(** The order of the specification's example: circled 1, circled 2, the
    digit 3, then the unnumbered name. *)
Example sort_numbered_categories :
  map name
    (JSArray.sort (compareEntries codePointOrder)
       [ Directory (str "Misc") (str "videos/Misc") 0 [];
         Directory (str "3_Extra") (str "videos/3_Extra") 0 [];
         Directory (0x2461 :: str "Advanced") [] 0 [];
         Directory (0x2460 :: str "Intro") [] 0 [] ])
  = [ 0x2460 :: str "Intro"; 0x2461 :: str "Advanced"; str "3_Extra"; str "Misc" ].
Proof. reflexivity. Qed.

End WeightFacts.

(** ** The indexer: the walk *)
Module WalkFacts.
Import JS Manifest Indexer Reference JSFacts.

(** Induction over a file-system tree: a property of a directory may use
    the property of the target of each of its entries. *)
Lemma FsNode_tree_ind : forall P : FsNode -> Prop,
  (forall size, P (FsFile size)) ->
  (forall entries,
      (forall nm target, In (nm, target) entries -> P target) ->
      P (FsDir entries)) ->
  P FsOther -> P FsBroken -> P FsLocked ->
  forall stats, P stats.
Proof.
  intros P Hfile Hdir Hother Hbroken Hlocked. fix IH 1.
  intros [size|entries| | |];
    [apply Hfile | | apply Hother | apply Hbroken | apply Hlocked].
  apply Hdir. induction entries as [|[nm0 t0] rest IHrest]; intros nm target Hin.
  - destruct Hin.
  - destruct Hin as [Heq|Hin].
    + replace target with t0 by congruence. apply IH.
    + exact (IHrest nm target Hin).
Qed.

(** *** Extensions *)

Lemma lowerChar_dot : forall c, lowerChar c = DOT <-> c = DOT.
Proof.
  intro c. unfold lowerChar, DOT.
  destruct ((65 <=? c) && (c <=? 90)) eqn:E.
  - apply andb_true_iff in E. destruct E as [H1 H2].
    apply Z.leb_le in H1. apply Z.leb_le in H2. lia.
  - tauto.
Qed.

Lemma fromLastDot_split : forall base ext,
  fromLastDot base = Some ext -> exists pre, base = pre ++ ext.
Proof.
  induction base as [|c base IH]; simpl; intros ext H; [discriminate|].
  destruct (fromLastDot base) as [e|] eqn:E.
  - inversion H; subst. destruct (IH ext eq_refl) as [pre Hpre].
    exists (c :: pre). now rewrite Hpre.
  - destruct (c =? DOT); [|discriminate]. inversion H; subst. now exists [].
Qed.

Lemma fromLastDot_none : forall s,
  Forall (fun c => c <> DOT) s -> fromLastDot s = None.
Proof.
  induction s as [|c s IH]; simpl; intro H; [reflexivity|].
  inversion H as [|? ? Hc Hs]; subst. rewrite (IH Hs).
  destruct (c =? DOT) eqn:E; [|reflexivity]. apply Z.eqb_eq in E. contradiction.
Qed.

Lemma fromLastDot_suffix : forall pre rest,
  Forall (fun c => c <> DOT) rest ->
  fromLastDot (pre ++ DOT :: rest) = Some (DOT :: rest).
Proof.
  induction pre as [|c pre IH]; intros rest Hrest.
  - simpl. rewrite (fromLastDot_none rest Hrest). reflexivity.
  - simpl app. simpl fromLastDot. rewrite (IH rest Hrest). reflexivity.
Qed.

Lemma toLowerCase_mp4 : forall s,
  str_eqb (toLowerCase s) (str ".mp4") = true ->
  exists c2 c3 c4, s = [DOT; c2; c3; c4] /\ Forall (fun c => c <> DOT) [c2; c3; c4].
Proof.
  intros s H. apply str_eqb_eq in H.
  destruct s as [|c1 [|c2 [|c3 [|c4 [|c5 s]]]]]; try discriminate.
  simpl in H. inversion H as [[H1 H2 H3 H4]].
  exists c2, c3, c4. split.
  - f_equal. now apply lowerChar_dot.
  - repeat constructor; intro Hc; subst.
    + now compute in H2.
    + now compute in H3.
    + now compute in H4.
Qed.

(** For a name that does not start with a dot, the test of [buildNode] on
    the lower-cased [path.extname] is the test on the last four
    characters. *)
Lemma extname_mp4 : forall fullPath,
  isDotName (basename fullPath) = false ->
  str_eqb (toLowerCase (extname fullPath)) (str ".mp4")
  = hasMp4Extension (basename fullPath).
Proof.
  intros fullPath Hdot. unfold extname, hasMp4Extension.
  set (base := basename fullPath) in *.
  destruct (str_eqb (toLowerCase (skipn (List.length base - 4) base)) (str ".mp4")) eqn:Hs.
  - destruct (toLowerCase_mp4 _ Hs) as (c2 & c3 & c4 & Hsuf & Hnd).
    pose proof (firstn_skipn (List.length base - 4) base) as Hsplit.
    rewrite Hsuf in Hsplit.
    set (pre := firstn (List.length base - 4) base) in *.
    rewrite <- Hsplit. rewrite fromLastDot_suffix by assumption.
    destruct pre as [|p0 pre'].
    + simpl in Hsplit. rewrite <- Hsplit in Hdot. discriminate.
    + destruct (List.length [DOT; c2; c3; c4]
                =? List.length ((p0 :: pre') ++ [DOT; c2; c3; c4]))%nat eqn:El.
      { apply Nat.eqb_eq in El. rewrite length_app in El. simpl in El. lia. }
      destruct (str_eqb ((p0 :: pre') ++ [DOT; c2; c3; c4]) [DOT; DOT]) eqn:E2.
      * apply str_eqb_eq in E2. apply (f_equal (@List.length Z)) in E2.
        rewrite length_app in E2. simpl in E2. lia.
      * rewrite <- Hsuf. exact Hs.
  - destruct (fromLastDot base) as [ext|] eqn:E; [|reflexivity].
    destruct (List.length ext =? List.length base)%nat eqn:El; [reflexivity|].
    destruct (str_eqb base [DOT; DOT]); [reflexivity|].
    destruct (str_eqb (toLowerCase ext) (str ".mp4")) eqn:Hx; [|reflexivity].
    destruct (fromLastDot_split _ _ E) as [pre Hpre].
    destruct (toLowerCase_mp4 _ Hx) as (c2 & c3 & c4 & Hext & _).
    assert (Hlen : List.length ext = 4%nat) by (rewrite Hext; reflexivity).
    assert (Hskip : skipn (List.length base - 4) base = ext).
    { rewrite Hpre, length_app, Hlen.
      replace (List.length pre + 4 - 4)%nat with (List.length pre + 0)%nat by lia.
      rewrite skipn_app, Nat.add_0_r, skipn_all.
      replace (List.length pre - List.length pre)%nat with 0%nat by lia.
      reflexivity. }
    rewrite Hskip, Hx in Hs. discriminate.
Qed.

(** *** Sums of counts *)

Lemma fold_count_shift : forall l a,
  fold_left (fun total child => total + videoCount child) l a
  = a + sumVideoCount l.
Proof.
  unfold sumVideoCount. induction l as [|c l IH]; simpl; intro a; [lia|].
  rewrite (IH (a + videoCount c)), (IH (videoCount c)). lia.
Qed.

Lemma sumVideoCount_cons : forall c l,
  sumVideoCount (c :: l) = videoCount c + sumVideoCount l.
Proof.
  intros c l. unfold sumVideoCount at 1. simpl. rewrite fold_count_shift. lia.
Qed.

Lemma sumVideoCount_app : forall l l',
  sumVideoCount (l ++ l') = sumVideoCount l + sumVideoCount l'.
Proof.
  induction l as [|c l IH]; intro l'; simpl.
  - change (sumVideoCount []) with 0. lia.
  - rewrite !sumVideoCount_cons, IH. lia.
Qed.

Lemma sumVideoCount_Permutation : forall l l',
  Permutation l l' -> sumVideoCount l = sumVideoCount l'.
Proof.
  induction 1; rewrite ?sumVideoCount_cons; lia.
Qed.

Lemma numVideos_children : forall cs,
  Forall wellCounted cs ->
  fold_right (fun c acc => numVideos c + acc) 0 cs = sumVideoCount cs.
Proof.
  induction 1 as [|c cs [_ Hc] _ IH]; simpl.
  - reflexivity.
  - rewrite sumVideoCount_cons, IH, Hc. reflexivity.
Qed.

Lemma countsConsistent_children : forall cs,
  Forall wellCounted cs -> forallb countsConsistent cs = true.
Proof.
  induction 1 as [|c cs [Hc _] _ IH]; simpl; [reflexivity|].
  now rewrite Hc, IH.
Qed.

Lemma directory_wellCounted : forall nm p cs,
  Forall wellCounted cs -> wellCounted (Directory nm p (sumVideoCount cs) cs).
Proof.
  intros nm p cs H. split; simpl.
  - rewrite Z.eqb_refl. simpl. now apply countsConsistent_children.
  - symmetry. now apply numVideos_children.
Qed.

(** *** The walk, entry by entry *)

Lemma basename_child : forall fullPath nm, basename (fullPath ++ [nm]) = nm.
Proof. intros. unfold basename. apply last_last. Qed.

Lemma spec_countVideos_cons : forall x nm target rest,
  spec_countVideos x (FsDir ((nm, target) :: rest))
  = (if isDotName nm then 0 else spec_countVideos nm target)
    + spec_countVideos x (FsDir rest).
Proof. reflexivity. Qed.

Lemma walkable_cons : forall nm target rest,
  walkable (FsDir ((nm, target) :: rest))
  = (isDotName nm || walkable target) && walkable (FsDir rest).
Proof. reflexivity. Qed.

Section Walk.
Variable collator_compare : jsstring -> jsstring -> Number.

Lemma buildNode_dir : forall fullPath entries,
  buildNode collator_compare fullPath (FsDir entries)
  = match walkEntries (buildNode collator_compare) fullPath entries [] with
    | Err e => Err e
    | OK children =>
        let sorted := JSArray.sort (compareEntries collator_compare) children in
        OK (Some (Directory (basename fullPath) (manifestPath fullPath)
                            (sumVideoCount sorted) sorted))
    end.
Proof. reflexivity. Qed.

Lemma walkEntries_cons : forall fullPath entry rest children,
  walkEntries (buildNode collator_compare) fullPath (entry :: rest) children
  = match visitEntry (buildNode collator_compare) fullPath children entry with
    | Err e => Err e
    | OK children' => walkEntries (buildNode collator_compare) fullPath rest children'
    end.
Proof. reflexivity. Qed.

Lemma walkEntries_counts : forall fullPath entries,
  (forall nm target, In (nm, target) entries ->
     forall fp r, isDotName (basename fp) = false ->
       buildNode collator_compare fp target = OK r -> accountsFor (basename fp) target r) ->
  forall children children',
    walkEntries (buildNode collator_compare) fullPath entries children = OK children' ->
    Forall wellCounted children ->
    sumVideoCount children'
    = sumVideoCount children + spec_countVideos (basename fullPath) (FsDir entries)
    /\ Forall wellCounted children'.
Proof.
  intros fullPath. induction entries as [|[nm target] rest IH];
    intros Hall children children' Hwalk Hwc.
  - simpl in Hwalk. inversion Hwalk; subst. split; [simpl; lia | assumption].
  - rewrite walkEntries_cons in Hwalk. rewrite spec_countVideos_cons.
    assert (Hrest : forall nm' t', In (nm', t') rest ->
              forall fp r, isDotName (basename fp) = false ->
                buildNode collator_compare fp t' = OK r -> accountsFor (basename fp) t' r).
    { intros nm' t' Hin. apply (Hall nm' t'). now right. }
    unfold visitEntry in Hwalk. fold (isDotName nm) in Hwalk.
    destruct (isDotName nm) eqn:Hdot.
    + destruct (IH Hrest _ _ Hwalk Hwc) as [Hsum Hq]. split; [lia | assumption].
    + destruct (buildNode collator_compare (fullPath ++ [nm]) target) as [r|e] eqn:Hb; [|discriminate].
      assert (Hacc : accountsFor nm target r).
      { rewrite <- (basename_child fullPath nm).
        apply (Hall nm target); [now left | now rewrite basename_child | assumption]. }
      destruct r as [childNode|]; simpl in Hacc.
      * destruct Hacc as [Hcount Hnode].
        assert (Hwc' : Forall wellCounted (children ++ [childNode])).
        { apply Forall_app. split; [assumption | now constructor]. }
        destruct (IH Hrest _ _ Hwalk Hwc') as [Hsum Hq]. split; [|assumption].
        rewrite Hsum, sumVideoCount_app, sumVideoCount_cons.
        change (sumVideoCount []) with 0. lia.
      * destruct (IH Hrest _ _ Hwalk Hwc) as [Hsum Hq]. split; [lia | assumption].
Qed.

Lemma directory_accounts : forall fullPath entries node,
  (forall nm target, In (nm, target) entries ->
     forall fp r, isDotName (basename fp) = false ->
       buildNode collator_compare fp target = OK r ->
       accountsFor (basename fp) target r) ->
  buildNode collator_compare fullPath (FsDir entries) = OK (Some node) ->
  videoCount node = sumVideoCount (children node)
  /\ videoCount node = spec_countVideos (basename fullPath) (FsDir entries)
  /\ wellCounted node.
Proof.
  intros fullPath entries node IH Hb. rewrite buildNode_dir in Hb.
  destruct (walkEntries (buildNode collator_compare) fullPath entries [])
    as [kids|e] eqn:Hw; [|discriminate].
  cbv zeta in Hb. inversion Hb; subst. clear Hb.
  destruct (walkEntries_counts fullPath entries IH [] kids Hw (Forall_nil _))
    as [Hsum Hq].
  pose proof (sort_Permutation _ (compareEntries collator_compare) kids) as Hperm.
  assert (Hq' : Forall wellCounted (JSArray.sort (compareEntries collator_compare) kids)).
  { eapply Permutation_Forall; eassumption. }
  split; [reflexivity|]. split.
  - simpl videoCount. rewrite <- (sumVideoCount_Permutation _ _ Hperm), Hsum.
    change (sumVideoCount []) with 0. lia.
  - now apply directory_wellCounted.
Qed.

Lemma buildNode_accounts : forall stats fullPath r,
  isDotName (basename fullPath) = false ->
  buildNode collator_compare fullPath stats = OK r ->
  accountsFor (basename fullPath) stats r.
Proof.
  induction stats as [size|entries IH| | |] using FsNode_tree_ind;
    intros fullPath r Hdot Hb.
  - simpl in Hb. rewrite extname_mp4 in Hb by assumption.
    destruct (hasMp4Extension (basename fullPath)) eqn:Hext;
      inversion Hb; subst; simpl; rewrite Hext; [|reflexivity].
    repeat split; reflexivity.
  - assert (Hsome : exists node, r = Some node).
    { rewrite buildNode_dir in Hb.
      destruct (walkEntries (buildNode collator_compare) fullPath entries []);
        [|discriminate].
      cbv zeta in Hb. inversion Hb. eauto. }
    destruct Hsome as [node ->].
    destruct (directory_accounts fullPath entries node IH Hb) as (_ & Hcount & Hwc).
    split; assumption.
  - simpl in Hb. inversion Hb; subst. reflexivity.
  - discriminate.
  - discriminate.
Qed.

(** *** When the walk succeeds *)

Lemma walkEntries_walkable : forall fullPath entries,
  (forall nm target, In (nm, target) entries -> forall fp,
     if walkable target
     then exists r, buildNode collator_compare fp target = OK r
     else exists e, buildNode collator_compare fp target = Err e) ->
  forall children,
    if walkable (FsDir entries)
    then exists kids,
           walkEntries (buildNode collator_compare) fullPath entries children = OK kids
    else exists e,
           walkEntries (buildNode collator_compare) fullPath entries children = Err e.
Proof.
  intros fullPath. induction entries as [|[nm target] rest IH]; intros Hall children.
  - simpl. eauto.
  - assert (Hrest : forall nm' t', In (nm', t') rest -> forall fp,
              if walkable t'
              then exists r, buildNode collator_compare fp t' = OK r
              else exists e, buildNode collator_compare fp t' = Err e).
    { intros nm' t' Hin. apply (Hall nm' t'). now right. }
    rewrite walkable_cons, walkEntries_cons. unfold visitEntry.
    fold (isDotName nm). destruct (isDotName nm) eqn:Hdot; simpl orb.
    + simpl andb. apply (IH Hrest).
    + pose proof (Hall nm target (or_introl eq_refl) (fullPath ++ [nm])) as Ht.
      destruct (walkable target); simpl andb.
      * destruct Ht as [r Hr]. rewrite Hr. destruct r; apply (IH Hrest).
      * destruct Ht as [e He]. rewrite He. eauto.
Qed.

(** [buildNode] is total: it returns on every tree, with a result where
    every path it reaches can be read and with an error otherwise. *)
Lemma buildNode_walkable : forall stats fullPath,
  if walkable stats
  then exists r, buildNode collator_compare fullPath stats = OK r
  else exists e, buildNode collator_compare fullPath stats = Err e.
Proof.
  induction stats as [size|entries IH| | |] using FsNode_tree_ind; intro fullPath.
  - simpl. destruct (str_eqb _ _); eauto.
  - rewrite buildNode_dir.
    pose proof (walkEntries_walkable fullPath entries IH []) as Hw.
    destruct (walkable (FsDir entries)).
    + destruct Hw as [kids Hk]. rewrite Hk. eauto.
    + destruct Hw as [e He]. rewrite He. eauto.
  - simpl. eauto.
  - simpl. eauto.
  - simpl. eauto.
Qed.

Lemma buildNode_dir_node : forall fullPath entries,
  walkable (FsDir entries) = true ->
  exists count kids,
    buildNode collator_compare fullPath (FsDir entries)
    = OK (Some (Directory (basename fullPath) (manifestPath fullPath) count kids)).
Proof.
  intros fullPath entries Hw. rewrite buildNode_dir.
  pose proof (walkEntries_walkable fullPath entries
                (fun nm target _ => buildNode_walkable target) []) as H.
  rewrite Hw in H. destruct H as [kids Hk]. rewrite Hk. cbv zeta. eauto.
Qed.

Lemma buildNode_dir_not_None : forall fullPath entries,
  buildNode collator_compare fullPath (FsDir entries) <> OK None.
Proof.
  intros fullPath entries. rewrite buildNode_dir.
  destruct (walkEntries _ _ _ _); discriminate.
Qed.

(** [buildNode] returns a node for the entries that are kept and for no
    other entry. *)
Lemma buildNode_keeps : forall fullPath nm target r,
  isDotName nm = false ->
  buildNode collator_compare (fullPath ++ [nm]) target = OK r ->
  Notions.keptEntry (nm, target) = match r with Some _ => true | None => false end.
Proof.
  intros fullPath nm target r Hdot Hb. unfold Notions.keptEntry. cbn [fst snd].
  rewrite Hdot. cbn [negb andb].
  destruct target as [size|entries| | |].
  - simpl in Hb. rewrite extname_mp4 in Hb by now rewrite basename_child.
    rewrite basename_child in Hb.
    destruct (hasMp4Extension nm); inversion Hb; subst; reflexivity.
  - destruct r as [node|]; [reflexivity|].
    now destruct (buildNode_dir_not_None (fullPath ++ [nm]) entries).
  - simpl in Hb. inversion Hb; subst. reflexivity.
  - discriminate.
  - discriminate.
Qed.

(** The children that the loop adds are the nodes that [buildNode] returns
    for the entries that are kept, one for each and in their order. *)
Lemma walkEntries_built : forall fullPath entries children children',
  walkEntries (buildNode collator_compare) fullPath entries children
  = OK children' ->
  exists walked,
    children' = children ++ walked
    /\ Forall2 (fun kid entry =>
                  buildNode collator_compare (fullPath ++ [fst entry]) (snd entry)
                  = OK (Some kid))
               walked (filter Notions.keptEntry entries).
Proof.
  intros fullPath. induction entries as [|[nm target] rest IH];
    intros children children' Hwalk.
  - simpl in Hwalk. inversion Hwalk; subst. exists [].
    split; [now rewrite app_nil_r | constructor].
  - rewrite walkEntries_cons in Hwalk.
    unfold visitEntry in Hwalk. fold (isDotName nm) in Hwalk.
    cbn [filter]. destruct (isDotName nm) eqn:Hdot.
    + unfold Notions.keptEntry at 1. cbn [fst snd]. rewrite Hdot. cbn [negb andb].
      exact (IH _ _ Hwalk).
    + destruct (buildNode collator_compare (fullPath ++ [nm]) target)
        as [r|e] eqn:Hb; [|discriminate].
      rewrite (buildNode_keeps fullPath nm target r Hdot Hb).
      destruct r as [child|]; [|exact (IH _ _ Hwalk)].
      destruct (IH _ _ Hwalk) as (walked & -> & Hall).
      exists (child :: walked). split; [now rewrite <- app_assoc|].
      constructor; [exact Hb | exact Hall].
Qed.

(** The node of a directory below which every path can be read. *)
Lemma buildNode_dir_walked : forall fullPath nm entries,
  isDotName nm = false ->
  walkable (FsDir entries) = true ->
  exists walked,
    Forall2 (fun kid entry =>
               buildNode collator_compare ((fullPath ++ [nm]) ++ [fst entry])
                         (snd entry)
               = OK (Some kid))
            walked (filter Notions.keptEntry entries)
    /\ buildNode collator_compare (fullPath ++ [nm]) (FsDir entries)
       = OK (Some (Directory nm (manifestPath (fullPath ++ [nm]))
                             (spec_countVideos nm (FsDir entries))
                             (JSArray.sort (compareEntries collator_compare)
                                           walked))).
Proof.
  intros fullPath nm entries Hdot Hw.
  pose proof (walkEntries_walkable (fullPath ++ [nm]) entries
                (fun nm' target _ => buildNode_walkable target) []) as H.
  rewrite Hw in H. destruct H as [kids Hk].
  destruct (walkEntries_built _ _ _ _ Hk) as (walked & Heq & Hall).
  cbn [app] in Heq. subst kids. exists walked. split.
  - exact Hall.
  - assert (Hb : buildNode collator_compare (fullPath ++ [nm]) (FsDir entries)
                 = OK (Some (Directory nm (manifestPath (fullPath ++ [nm]))
                         (sumVideoCount
                            (JSArray.sort (compareEntries collator_compare) walked))
                         (JSArray.sort (compareEntries collator_compare) walked)))).
    { rewrite buildNode_dir, Hk. cbv zeta. now rewrite basename_child. }
    pose proof (buildNode_accounts (FsDir entries) (fullPath ++ [nm]) _
                  ltac:(now rewrite basename_child) Hb) as Hacc.
    rewrite basename_child in Hacc. destruct Hacc as [Hcount _].
    cbn [videoCount] in Hcount. rewrite Hb. now rewrite Hcount.
Qed.

(** The walk raises no other error than that of a path on which [stat]
    or [readdir] fails. *)
Lemma walkEntries_error : forall fullPath entries,
  (forall nm target, In (nm, target) entries -> forall fp e,
     buildNode collator_compare fp target = Err e ->
     match e with StatFailed _ | ReaddirFailed _ => True | _ => False end) ->
  forall children e,
    walkEntries (buildNode collator_compare) fullPath entries children = Err e ->
    match e with StatFailed _ | ReaddirFailed _ => True | _ => False end.
Proof.
  intros fullPath. induction entries as [|[nm target] rest IH];
    intros Hall children e Hwalk; [discriminate|].
  assert (Hrest : forall nm' t', In (nm', t') rest -> forall fp e',
            buildNode collator_compare fp t' = Err e' ->
            match e' with StatFailed _ | ReaddirFailed _ => True | _ => False end).
  { intros nm' t' Hin. apply (Hall nm' t'). now right. }
  rewrite walkEntries_cons in Hwalk. unfold visitEntry in Hwalk.
  fold (isDotName nm) in Hwalk.
  destruct (isDotName nm); [exact (IH Hrest _ _ Hwalk)|].
  destruct (buildNode collator_compare (fullPath ++ [nm]) target)
    as [[child|]|e'] eqn:Hb.
  - exact (IH Hrest _ _ Hwalk).
  - exact (IH Hrest _ _ Hwalk).
  - inversion Hwalk; subst.
    exact (Hall nm target (or_introl eq_refl) _ _ Hb).
Qed.

Lemma buildNode_error : forall stats fullPath e,
  buildNode collator_compare fullPath stats = Err e ->
  match e with StatFailed _ | ReaddirFailed _ => True | _ => False end.
Proof.
  induction stats as [size|entries IH| | |] using FsNode_tree_ind;
    intros fullPath e Hb.
  - simpl in Hb. destruct (str_eqb _ _); discriminate.
  - rewrite buildNode_dir in Hb.
    destruct (walkEntries (buildNode collator_compare) fullPath entries [])
      as [kids|e'] eqn:Hw; [discriminate|].
    inversion Hb; subst. exact (walkEntries_error fullPath entries IH [] e Hw).
  - discriminate.
  - simpl in Hb. inversion Hb; subst. exact I.
  - simpl in Hb. inversion Hb; subst. exact I.
Qed.

(** A run is fatal only by a path that cannot be read or by the rejection
    of a write: the root node is never missing. *)
Lemma main_outcome : forall w,
  match ensureVideosDir w with
  | Err e => main collator_compare w = Fatal VideosDirNotFound
  | OK _ =>
      match buildNode collator_compare [] (videos w) with
      | Err e =>
          walkable (videos w) = false
          /\ main collator_compare w = Fatal e
          /\ match e with StatFailed _ | ReaddirFailed _ => True | _ => False end
      | OK None => False
      | OK (Some rootNode) =>
          walkable (videos w) = true
          /\ main collator_compare w
             = if mkdirFails w then Fatal MkdirFailed
               else if writeFileFails w then Fatal WriteFailed
               else Wrote {| generatedAt := now w;
                             categories := children rootNode |}
      end
  end.
Proof.
  intros [root clock mk wr]. unfold main, ensureVideosDir.
  cbn [videos now mkdirFails writeFileFails].
  pose proof (buildNode_walkable root []) as Hw.
  destruct root as [size|entries| | |]; try reflexivity.
  - pose proof (buildNode_dir_not_None [] entries) as Hnn.
    pose proof (buildNode_error (FsDir entries) []) as Herr.
    destruct (buildNode collator_compare [] (FsDir entries)) as [[node|]|e] eqn:Hb.
    + destruct (walkable (FsDir entries)); [now split|].
      destruct Hw as [e He]. discriminate.
    + contradiction.
    + destruct (walkable (FsDir entries)).
      * destruct Hw as [r Hr]. discriminate.
      * split; [reflexivity|]. split; [reflexivity|]. now apply Herr.
  - repeat split.
Qed.

End Walk.

(** *** The properties of the walk *)

(** C1: when [buildNode] returns a node for a directory, the node's
    [videoCount] is the sum of the counts of its children, it is the
    number of regular files with the extension [.mp4] (in either case)
    below the directory, entries whose name starts with a dot and what lies
    below them left out, and the same holds of every Directory inside the
    node.  Every Directory node of a manifest is returned by such a call. *)
Theorem buildNode_videoCount : forall collator_compare fullPath entries node,
  buildNode collator_compare fullPath (FsDir entries) = OK (Some node) ->
  videoCount node = sumVideoCount (children node)
  /\ videoCount node = spec_countVideos (basename fullPath) (FsDir entries)
  /\ countsConsistent node = true
  /\ videoCount node = numVideos node.
Proof.
  intros collator_compare fullPath entries node Hb.
  destruct (directory_accounts collator_compare fullPath entries node
              (fun nm target _ => buildNode_accounts collator_compare target) Hb)
    as (Hsum & Hcount & Hcons & Hnum).
  repeat split; assumption.
Qed.

Lemma buildNode_videoCount_witness :
  buildNode codePointOrder [] (FsDir sampleEntries) = OK (Some sampleRootNode)
  /\ videoCount sampleRootNode = 3
  /\ (videoCount sampleRootNode = sumVideoCount (children sampleRootNode)
      /\ videoCount sampleRootNode
         = spec_countVideos (basename []) (FsDir sampleEntries)
      /\ countsConsistent sampleRootNode = true
      /\ videoCount sampleRootNode = numVideos sampleRootNode).
Proof.
  split; [reflexivity|]. split; [reflexivity|].
  apply (buildNode_videoCount codePointOrder [] sampleEntries sampleRootNode).
  reflexivity.
Defined.

(** C4 (as the code has it): what one turn of the loop does with an
    entry.  An entry whose name starts with a dot leaves the children as
    they are, whatever it is, and is not looked into.  Otherwise a regular
    file adds a Video node exactly when its name has the extension [.mp4]
    in either case, another regular file and an entry that is neither a
    file nor a directory add nothing and raise no error, and a directory
    adds a Directory node when every path that the walk reaches below it
    can be read: the node has the name of the entry, the number of the
    videos below it as its count, and as its children, sorted, the nodes
    that [buildNode] returns for its kept entries.  A directory below
    which a path cannot be read, a directory that cannot be listed and an
    entry on which [stat] fails add no node: the turn raises the error. *)
Theorem visitEntry_classifies :
  forall collator_compare fullPath children entryName target,
  let childPath := fullPath ++ [entryName] in
  let visited :=
    visitEntry (buildNode collator_compare) fullPath children (entryName, target) in
  (isDotName entryName = true -> visited = OK children)
  /\ (isDotName entryName = false ->
      match target with
      | FsDir entries =>
          if walkable target
          then exists walked,
                 Forall2 (fun kid entry =>
                            buildNode collator_compare
                              (childPath ++ [fst entry]) (snd entry)
                            = OK (Some kid))
                         walked (filter Notions.keptEntry entries)
                 /\ visited = OK (children ++
                      [Directory entryName (manifestPath childPath)
                         (spec_countVideos entryName target)
                         (JSArray.sort (compareEntries collator_compare) walked)])
          else exists e, visited = Err e
      | FsFile size =>
          visited = OK (if hasMp4Extension entryName
                        then children ++
                               [Video entryName (manifestPath childPath) size 1]
                        else children)
      | FsOther => visited = OK children
      | FsBroken => visited = Err (StatFailed childPath)
      | FsLocked => visited = Err (ReaddirFailed childPath)
      end).
Proof.
  intros collator_compare fullPath children entryName target childPath visited.
  subst visited childPath. unfold visitEntry. fold (isDotName entryName).
  split; intro Hdot; [now rewrite Hdot|].
  destruct target as [size|entries| | |].
  - rewrite Hdot. simpl buildNode.
    rewrite extname_mp4 by (now rewrite basename_child).
    rewrite basename_child. destruct (hasMp4Extension entryName); reflexivity.
  - pose proof (buildNode_walkable collator_compare (FsDir entries)
                  (fullPath ++ [entryName])) as Hw.
    destruct (walkable (FsDir entries)) eqn:Ew.
    + destruct (buildNode_dir_walked collator_compare fullPath entryName
                  entries Hdot Ew) as (walked & Hall & Hb).
      exists walked. split; [exact Hall|]. rewrite Hdot, Hb. reflexivity.
    + destruct Hw as [e He]. exists e. rewrite Hdot, He. reflexivity.
  - now rewrite Hdot.
  - now rewrite Hdot.
  - now rewrite Hdot.
Qed.

Lemma visitEntry_classifies_witness :
  (isDotName (str ".hidden") = true
   /\ visitEntry (buildNode codePointOrder) [] [] (str ".hidden", FsBroken) = OK [])
  /\ (isDotName (str "z.MP4") = false
      /\ visitEntry (buildNode codePointOrder) [sampleAdvanced] []
           (str "z.MP4", FsFile 7)
         = OK (children sampleAdvancedNode))
  /\ (isDotName (str "notes.txt") = false
      /\ visitEntry (buildNode codePointOrder) [] [] (str "notes.txt", FsFile 3)
         = OK [])
  /\ (isDotName (str "videos") = false
      /\ walkable (FsDir sampleEntries) = true
      /\ exists walked,
           visitEntry (buildNode codePointOrder) [] []
             (str "videos", FsDir sampleEntries)
           = OK [Directory (str "videos") (str "videos/videos")
                   (spec_countVideos (str "videos") (FsDir sampleEntries))
                   (JSArray.sort (compareEntries codePointOrder) walked)]).
Proof.
  split; [|split; [|split]].
  - split; [reflexivity|].
    apply (visitEntry_classifies codePointOrder [] [] (str ".hidden") FsBroken).
    reflexivity.
  - split; [reflexivity|].
    apply (visitEntry_classifies codePointOrder [sampleAdvanced] []
             (str "z.MP4") (FsFile 7)).
    reflexivity.
  - split; [reflexivity|].
    apply (visitEntry_classifies codePointOrder [] [] (str "notes.txt") (FsFile 3)).
    reflexivity.
  - split; [reflexivity|]. split; [reflexivity|].
    destruct (proj2 (visitEntry_classifies codePointOrder [] []
                       (str "videos") (FsDir sampleEntries)) eq_refl)
      as (walked & _ & Hv).
    exists walked. exact Hv.
Defined.

(** C4, the cases that fail as stated: a subdirectory that holds a path
    on which [stat] fails, here a dangling link, gives no Directory node,
    and neither does a subdirectory that cannot be listed; a dangling link
    next to the videos is not dropped without an error.  In each case the
    turn of the loop raises the error, and the run that meets it ends with
    status 1 and writes no manifest. *)
Lemma visitEntry_unreadable_subdirectory :
  isDotName (str "course") = false
  /\ visitEntry (buildNode codePointOrder) [] []
       (str "course", FsDir [(str "a.mp4", FsFile 1); (str "lost", FsBroken)])
     = Err (StatFailed [str "course"; str "lost"])
  /\ visitEntry (buildNode codePointOrder) [] [] (str "course", FsLocked)
     = Err (ReaddirFailed [str "course"])
  /\ isDotName (str "notes.txt") = false
  /\ hasMp4Extension (str "notes.txt") = false
  /\ visitEntry (buildNode codePointOrder) [] [] (str "notes.txt", FsBroken)
     = Err (StatFailed [str "notes.txt"])
  /\ main codePointOrder
       {| videos := FsDir [(str "course",
                            FsDir [(str "a.mp4", FsFile 1); (str "lost", FsBroken)])];
          now := sampleNow; mkdirFails := false; writeFileFails := false |}
     = Fatal (StatFailed [str "course"; str "lost"])
  /\ exitCode (Fatal (StatFailed [str "course"; str "lost"])) = 1.
Proof. repeat split. Qed.

Lemma exitCode_fatal : forall o, exitCode o = 1 <-> exists e, o = Fatal e.
Proof.
  intros [file|e]; simpl; split.
  - discriminate.
  - intros [e He]. discriminate.
  - eauto.
  - reflexivity.
Qed.

(** C5 (as the code has it): a run is fatal, with exit status 1 and no
    completed write of the manifest, exactly when the check of the
    [videos] directory fails, [buildNode] returns no node for it, or
    [fs.mkdir] or [fs.writeFile] rejects.  The error for a missing root node is never
    raised: once the check has passed, [buildNode] returns no node only by
    raising the error of a path that [stat] or [readdir] cannot read.  A
    [videos] directory without entries is not a failure: its node has no
    children and the count 0, and unless a write is rejected the manifest
    is written with an empty list of categories and the exit status is
    0. *)
Theorem main_fatal_iff : forall collator_compare w,
  (exitCode (main collator_compare w) = 1
     <-> exists e, main collator_compare w = Fatal e)
  /\ ((exists e, main collator_compare w = Fatal e)
      <-> (ensureVideosDir w = Err VideosDirNotFound
           \/ (forall node,
                 buildNode collator_compare [] (videos w) <> OK (Some node))
           \/ mkdirFails w = true
           \/ writeFileFails w = true))
  /\ main collator_compare w <> Fatal NothingBuilt
  /\ (ensureVideosDir w = OK tt ->
        buildNode collator_compare [] (videos w) <> OK None
        /\ ((exists e, main collator_compare w = Fatal e)
            <-> (walkable (videos w) = false
                 \/ mkdirFails w = true
                 \/ writeFileFails w = true)))
  /\ (videos w = FsDir [] ->
        buildNode collator_compare [] (videos w)
        = OK (Some (Directory (str "videos") (str "videos") 0 []))
        /\ main collator_compare w
           = if mkdirFails w then Fatal MkdirFailed
             else if writeFileFails w then Fatal WriteFailed
             else Wrote {| generatedAt := now w; categories := [] |}).
Proof.
  intros collator_compare w. split; [apply exitCode_fatal|].
  pose proof (main_outcome collator_compare w) as Hm.
  destruct (ensureVideosDir w) as [[]|e0] eqn:Hens.
  - destruct (buildNode collator_compare [] (videos w)) as [[node|]|e] eqn:Hb;
      [|contradiction|].
    + destruct Hm as [Hw Hm]. rewrite Hm, Hw.
      split; [|split; [|split]].
      * split.
        -- intros [e He]. destruct (mkdirFails w); [tauto|].
           destruct (writeFileFails w); [tauto|discriminate].
        -- intros [Hc|[Hn|[Hk|Hk]]]; [discriminate | now destruct (Hn node) | |].
           ++ rewrite Hk. eauto.
           ++ rewrite Hk. destruct (mkdirFails w); eauto.
      * destruct (mkdirFails w); [discriminate|].
        destruct (writeFileFails w); discriminate.
      * intros _. split; [discriminate|]. split.
        -- intros [e He]. destruct (mkdirFails w); [tauto|].
           destruct (writeFileFails w); [tauto|discriminate].
        -- intros [Hc|[Hk|Hk]]; [discriminate | |].
           ++ rewrite Hk. eauto.
           ++ rewrite Hk. destruct (mkdirFails w); eauto.
      * intro Hroot. rewrite Hroot in Hb. simpl in Hb.
        inversion Hb; subst. split; reflexivity.
    + destruct Hm as (Hw & Hm & Herr). rewrite Hm, Hw.
      split; [|split; [|split]].
      * split; [intros _; right; left; discriminate | eauto].
      * intro Hc. inversion Hc; subst. exact Herr.
      * intros _. split; [discriminate|]. split; [intros _; now left | eauto].
      * intro Hroot. rewrite Hroot in Hb. discriminate.
  - assert (He0 : e0 = VideosDirNotFound).
    { unfold ensureVideosDir in Hens.
      destruct (videos w); inversion Hens; reflexivity. }
    subst e0. rewrite Hm. split; [|split; [|split]].
    + split; [intros _; now left | eauto].
    + discriminate.
    + discriminate.
    + intro Hroot. unfold ensureVideosDir in Hens. rewrite Hroot in Hens.
      discriminate.
Qed.

(** C5, the case that fails as stated: with an empty [videos] directory a
    node is produced, the manifest is written and the exit status is 0. *)
Lemma main_empty_root_writes_manifest :
  ensureVideosDir {| videos := FsDir []; now := sampleNow;
                     mkdirFails := false; writeFileFails := false |} = OK tt
  /\ buildNode codePointOrder [] (FsDir [])
     = OK (Some (Directory (str "videos") (str "videos") 0 []))
  /\ main codePointOrder {| videos := FsDir []; now := sampleNow;
                            mkdirFails := false; writeFileFails := false |}
     = Wrote {| generatedAt := sampleNow; categories := [] |}
  /\ exitCode (main codePointOrder
                 {| videos := FsDir []; now := sampleNow;
                    mkdirFails := false; writeFileFails := false |}) = 0.
Proof. repeat split. Qed.

Lemma main_fatal_iff_witness :
  videos {| videos := FsDir []; now := sampleNow;
            mkdirFails := false; writeFileFails := false |} = FsDir []
  /\ main codePointOrder {| videos := FsDir []; now := sampleNow;
                            mkdirFails := false; writeFileFails := false |}
     = Wrote {| generatedAt := sampleNow; categories := [] |}
  /\ (exists e, main codePointOrder
                  {| videos := FsBroken; now := sampleNow;
                     mkdirFails := false; writeFileFails := false |} = Fatal e)
  /\ (exists e, main codePointOrder
                  {| videos := FsDir sampleEntries; now := sampleNow;
                     mkdirFails := false; writeFileFails := true |} = Fatal e).
Proof.
  split; [reflexivity|]. split; [|split].
  - destruct (main_fatal_iff codePointOrder
                {| videos := FsDir []; now := sampleNow;
                   mkdirFails := false; writeFileFails := false |})
      as (_ & _ & _ & _ & Hempty).
    apply Hempty. reflexivity.
  - destruct (main_fatal_iff codePointOrder
                {| videos := FsBroken; now := sampleNow;
                   mkdirFails := false; writeFileFails := false |})
      as (_ & Hiff & _).
    apply Hiff. left. reflexivity.
  - destruct (main_fatal_iff codePointOrder
                {| videos := FsDir sampleEntries; now := sampleNow;
                   mkdirFails := false; writeFileFails := true |})
      as (_ & Hiff & _).
    apply Hiff. right. right. right. reflexivity.
Defined.

Example main_sample :
  main codePointOrder {| videos := FsDir sampleEntries; now := sampleNow;
                         mkdirFails := false; writeFileFails := false |}
  = Wrote {| generatedAt := sampleNow; categories := children sampleRootNode |}.
Proof. reflexivity. Qed.

Example main_unreadable_entry :
  main codePointOrder
    {| videos := FsDir [(str "a.mp4", FsFile 1); (str "lost", FsBroken)];
       now := sampleNow; mkdirFails := false; writeFileFails := false |}
  = Fatal (StatFailed [str "lost"]).
Proof. reflexivity. Qed.

Example main_unlisted_root :
  main codePointOrder
    {| videos := FsLocked; now := sampleNow;
       mkdirFails := false; writeFileFails := false |}
  = Fatal (ReaddirFailed []).
Proof. reflexivity. Qed.

Example main_rejected_write :
  main codePointOrder
    {| videos := FsDir sampleEntries; now := sampleNow;
       mkdirFails := false; writeFileFails := true |}
  = Fatal WriteFailed
  /\ main codePointOrder
       {| videos := FsDir sampleEntries; now := sampleNow;
          mkdirFails := true; writeFileFails := false |}
     = Fatal MkdirFailed.
Proof. split; reflexivity. Qed.

End WalkFacts.

(** ** The viewer *)
Module ViewerFacts.
Import JS Manifest Viewer Reference JSFacts.

(** Induction over a manifest tree: a property of a Directory may use the
    property of each of its children. *)
Lemma ManifestNode_tree_ind : forall P : ManifestNode -> Prop,
  (forall nm p size c, P (Video nm p size c)) ->
  (forall nm p c cs, Forall P cs -> P (Directory nm p c cs)) ->
  forall n, P n.
Proof.
  intros P Hvideo Hdir. fix IH 1.
  intros [nm p c cs|nm p size c]; [|apply Hvideo].
  apply Hdir. induction cs as [|child cs IHcs]; constructor.
  - apply IH.
  - exact IHcs.
Qed.

(** *** Collecting the statistics *)

Lemma fold_addPath : forall l paths,
  fold_left addPath l paths = fold_left Set_add (filter truthy l) paths.
Proof.
  induction l as [|p l IH]; simpl; intro paths; [reflexivity|].
  unfold addPath at 2. destruct (truthy p); simpl; apply IH.
Qed.

Lemma visit_children : forall cs,
  Forall (fun c => forall acc,
            visit c acc
            = (fst acc + numVideos c, fold_left addPath (videoPaths c) (snd acc))) cs ->
  forall acc,
    fold_left (fun a child => visit child a) cs acc
    = (fst acc + numVideosIn cs, fold_left addPath (videoPathsIn cs) (snd acc)).
Proof.
  induction 1 as [|c cs Hc _ IH]; intro acc; simpl.
  - destruct acc as [total paths]. simpl. f_equal. lia.
  - rewrite IH, Hc. simpl. unfold videoPathsIn. rewrite fold_left_app.
    f_equal. unfold numVideosIn. lia.
Qed.

Lemma visit_spec : forall node acc,
  visit node acc
  = (fst acc + numVideos node, fold_left addPath (videoPaths node) (snd acc)).
Proof.
  induction node as [nm p size c|nm p c cs IH] using ManifestNode_tree_ind;
    intro acc.
  - destruct acc as [total paths]. reflexivity.
  - simpl visit. rewrite (visit_children cs IH). reflexivity.
Qed.

Lemma collectVideoStats_eq : forall cats,
  collectVideoStats cats
  = (numVideosIn cats, Set_from (filter truthy (videoPathsIn cats))).
Proof.
  intro cats. unfold collectVideoStats.
  rewrite visit_children.
  - simpl. unfold Set_from. now rewrite fold_addPath.
  - apply Forall_forall. intros c _. apply visit_spec.
Qed.

Lemma numVideos_length : forall node,
  numVideos node = Z.of_nat (List.length (videoPaths node)).
Proof.
  induction node as [nm p size c|nm p c cs IH] using ManifestNode_tree_ind.
  - reflexivity.
  - simpl. induction IH as [|child cs Hc _ IHcs]; simpl; [reflexivity|].
    rewrite length_app, Nat2Z.inj_add, Hc, IHcs. reflexivity.
Qed.

Lemma numVideosIn_length : forall cats,
  numVideosIn cats = Z.of_nat (List.length (videoPathsIn cats)).
Proof.
  unfold numVideosIn, videoPathsIn.
  induction cats as [|c cats IH]; simpl; [reflexivity|].
  rewrite length_app, Nat2Z.inj_add, <- numVideos_length, IH. reflexivity.
Qed.

Lemma truthy_nonempty : forall p, truthy p = true <-> p <> [].
Proof.
  intros [|c p]; simpl; split; intro H; try discriminate; try reflexivity.
  now destruct H.
Qed.

(** C6 (as the code has it): the total is the number of Video nodes of
    the tree, each counting for one whatever its path; the set holds the
    paths of the Video nodes that are not the empty string, in the order
    of the tree, and nothing else; Directory nodes add only what their
    children add.  Storing the statistics a second time changes
    nothing. *)
Theorem collectVideoStats_spec : forall cats,
  fst (collectVideoStats cats) = numVideosIn cats
  /\ numVideosIn cats = Z.of_nat (List.length (videoPathsIn cats))
  /\ snd (collectVideoStats cats) = Set_from (filter truthy (videoPathsIn cats))
  /\ (forall p, Set_has (snd (collectVideoStats cats)) p = true
                <-> In p (videoPathsIn cats) /\ p <> [])
  /\ (forall pg,
        totalVideos (storeStats cats pg) = fst (collectVideoStats cats)
        /\ validVideoPaths (storeStats cats pg) = snd (collectVideoStats cats)
        /\ storeStats cats (storeStats cats pg) = storeStats cats pg).
Proof.
  intro cats. rewrite collectVideoStats_eq. simpl fst. simpl snd.
  split; [reflexivity|]. split; [apply numVideosIn_length|].
  split; [reflexivity|]. split.
  - intro p. rewrite Set_has_from, Set_has_In, filter_In, truthy_nonempty. tauto.
  - intro pg. unfold storeStats. rewrite collectVideoStats_eq. simpl.
    repeat split.
Qed.

(** C6, the case that fails as stated: a Video node whose path is the
    empty string counts in the total, and its path is not in the set. *)
Lemma collectVideoStats_skips_empty_path :
  In [] (videoPathsIn pathlessManifest)
  /\ fst (collectVideoStats pathlessManifest) = 1
  /\ snd (collectVideoStats pathlessManifest) = Set_empty
  /\ Set_has (snd (collectVideoStats pathlessManifest)) [] = false.
Proof. repeat split. now left. Qed.

Lemma collectVideoStats_spec_witness :
  fst (collectVideoStats (numberedManifest 3)) = 3
  /\ snd (collectVideoStats (numberedManifest 3)) = numberedPaths 3
  /\ (Set_has (snd (collectVideoStats (numberedManifest 3))) (str "videos/2.mp4") = true
      <-> In (str "videos/2.mp4") (videoPathsIn (numberedManifest 3))
          /\ str "videos/2.mp4" <> []).
Proof.
  split; [reflexivity|]. split; [reflexivity|].
  destruct (collectVideoStats_spec (numberedManifest 3)) as (_ & _ & _ & Hin & _).
  apply Hin.
Defined.

(** *** Pruning *)

Lemma filter_keeps_all : forall (f : jsstring -> bool) l,
  (List.length (filter f l) = List.length l) <-> forallb f l = true.
Proof.
  intros f l. induction l as [|x l IH]; simpl; [tauto|].
  pose proof (filter_length_le f l) as Hle.
  destruct (f x); simpl.
  - rewrite <- IH. lia.
  - split; [lia | discriminate].
Qed.

Lemma Set_subset_spec : forall a b,
  Set_subset a b = true <-> forall p, Set_has a p = true -> Set_has b p = true.
Proof.
  intros a b. unfold Set_subset. rewrite forallb_forall. split; intros H p Hp.
  - apply H. now apply Set_has_In.
  - apply H. now apply Set_has_In.
Qed.

Lemma prune_test : forall pg,
  negb (Z.of_nat (List.length
          (filter (fun p => Set_has (validVideoPaths pg) p)
                  (Array_from (completedVideos pg))))
        =? Set_size (completedVideos pg))
  = negb (Set_subset (completedVideos pg) (validVideoPaths pg)).
Proof.
  intro pg. f_equal. unfold Set_size, Array_from, Set_subset.
  destruct (forallb (Set_has (validVideoPaths pg)) (completedVideos pg)) eqn:E.
  - apply filter_keeps_all in E. apply Z.eqb_eq. now f_equal.
  - apply Z.eqb_neq. intro H. apply Nat2Z.inj in H.
    apply filter_keeps_all in H.
    change (forallb (Set_has (validVideoPaths pg)) (completedVideos pg) = true) in H.
    congruence.
Qed.

Lemma prune_membership : forall pg p,
  Set_has (completedVideos (pruneCompletedVideos pg)) p
  = Set_has (completedVideos pg) p && Set_has (validVideoPaths pg) p.
Proof.
  intros pg p. unfold pruneCompletedVideos. rewrite prune_test.
  destruct (Set_subset (completedVideos pg) (validVideoPaths pg)) eqn:Hsub;
    simpl negb; cbv iota.
  - destruct (Set_has (completedVideos pg) p) eqn:Hp; [|reflexivity].
    symmetry. simpl. exact (proj1 (Set_subset_spec _ _) Hsub p Hp).
  - simpl completedVideos. rewrite Set_has_from. unfold Array_from.
    apply Set_has_filter.
Qed.

Lemma prune_keeps_stats : forall pg,
  validVideoPaths (pruneCompletedVideos pg) = validVideoPaths pg
  /\ totalVideos (pruneCompletedVideos pg) = totalVideos pg.
Proof.
  intro pg. unfold pruneCompletedVideos.
  destruct (negb _); split; reflexivity.
Qed.

Lemma updateProgressUI_keeps_sets : forall pg,
  completedVideos (updateProgressUI pg) = completedVideos pg
  /\ validVideoPaths (updateProgressUI pg) = validVideoPaths pg
  /\ setItemCalls (updateProgressUI pg) = setItemCalls pg.
Proof. intro pg. repeat split. Qed.

(** C7: pruning keeps a path of the completed set exactly when it is a
    valid path.  When every path was valid the page is left as it was,
    with no write; when some path was not, the set is replaced by the valid
    ones in their order and written once.  A load writes what its pruning
    writes and nothing more. *)
Theorem pruneCompletedVideos_spec : forall pg,
  let pg' := pruneCompletedVideos pg in
  (forall p, Set_has (completedVideos pg') p
             = Set_has (completedVideos pg) p && Set_has (validVideoPaths pg) p)
  /\ (Set_subset (completedVideos pg) (validVideoPaths pg) = true -> pg' = pg)
  /\ (Set_subset (completedVideos pg) (validVideoPaths pg) = false ->
        completedVideos pg'
        = Set_from (filter (Set_has (validVideoPaths pg)) (completedVideos pg))
        /\ setItemCalls pg' = setItemCalls pg ++ [Array_from (completedVideos pg')])
  /\ validVideoPaths pg' = validVideoPaths pg
  /\ totalVideos pg' = totalVideos pg
  /\ (forall raw cats pg0,
        pg = storeStats cats (loadCompletedVideos raw pg0) ->
        completedVideos (init raw (Some cats) pg0) = completedVideos pg'
        /\ setItemCalls (init raw (Some cats) pg0) = setItemCalls pg').
Proof.
  intros pg pg'. subst pg'. split; [apply prune_membership|].
  unfold pruneCompletedVideos. rewrite prune_test.
  destruct (Set_subset (completedVideos pg) (validVideoPaths pg)) eqn:Hsub;
    simpl negb; cbv iota.
  - split; [reflexivity|]. split; [discriminate|].
    split; [reflexivity|]. split; [reflexivity|].
    intros raw cats pg0 Hpg. subst pg. unfold init, pruneCompletedVideos.
    rewrite prune_test, Hsub. split; reflexivity.
  - split; [discriminate|]. split; [intros _; split; reflexivity|].
    split; [reflexivity|]. split; [reflexivity|].
    intros raw cats pg0 Hpg. subst pg. unfold init, pruneCompletedVideos.
    rewrite prune_test, Hsub. split; reflexivity.
Qed.

Lemma pruneCompletedVideos_spec_witness :
  Set_subset (completedVideos overfullPage) (validVideoPaths overfullPage) = false
  /\ (completedVideos (pruneCompletedVideos overfullPage) = numberedPaths 10
      /\ setItemCalls (pruneCompletedVideos overfullPage) = [numberedPaths 10]).
Proof.
  split; [reflexivity|].
  destruct (pruneCompletedVideos_spec overfullPage) as (_ & _ & Hcut & _).
  apply Hcut. reflexivity.
Defined.

(** *** Toggling *)

(** C8: a toggle with an empty path, or with a path that is not a valid
    one, leaves the page as it was: the completed set is unchanged and
    nothing is written.  Otherwise the path is in the completed set
    afterwards exactly when the flag is set, every other path is in it as
    before, and the whole set is written once, as a list. *)
Theorem toggleVideoCompletion_spec : forall p isCompleted pg,
  let pg' := toggleVideoCompletion p isCompleted pg in
  (truthy p = false \/ Set_has (validVideoPaths pg) p = false -> pg' = pg)
  /\ (truthy p = true -> Set_has (validVideoPaths pg) p = true ->
        (forall q, Set_has (completedVideos pg') q
                   = if str_eqb p q then isCompleted
                     else Set_has (completedVideos pg) q)
        /\ setItemCalls pg' = setItemCalls pg ++ [Array_from (completedVideos pg')]
        /\ validVideoPaths pg' = validVideoPaths pg
        /\ totalVideos pg' = totalVideos pg).
Proof.
  intros p isCompleted pg pg'. subst pg'. unfold toggleVideoCompletion. split.
  - intros [Hp|Hv]; rewrite ?Hp; simpl; [reflexivity|].
    destruct (truthy p); simpl; [|reflexivity]. rewrite Hv. reflexivity.
  - intros Hp Hv. rewrite Hp, Hv. simpl negb. cbv iota.
    split; [|repeat split].
    intro q. simpl completedVideos. unfold setCompletion.
    destruct isCompleted.
    + rewrite Set_has_add. destruct (str_eqb p q); [apply orb_true_r | apply orb_false_r].
    + rewrite Set_has_delete. destruct (str_eqb p q); [apply andb_false_r | apply andb_true_r].
Qed.

Lemma toggleVideoCompletion_spec_witness :
  (toggleVideoCompletion (str "videos/11.mp4") true overfullPage = overfullPage)
  /\ (truthy (str "videos/3.mp4") = true
      /\ Set_has (validVideoPaths overfullPage) (str "videos/3.mp4") = true
      /\ setItemCalls (toggleVideoCompletion (str "videos/3.mp4") false overfullPage)
         = [Array_from (completedVideos
                          (toggleVideoCompletion (str "videos/3.mp4") false overfullPage))]).
Proof.
  split.
  - apply (toggleVideoCompletion_spec (str "videos/11.mp4") true overfullPage).
    right. reflexivity.
  - split; [reflexivity|]. split; [reflexivity|].
    destruct (toggleVideoCompletion_spec (str "videos/3.mp4") false overfullPage)
      as [_ Hdone].
    destruct (Hdone eq_refl eq_refl) as (_ & Hwrite & _).
    exact Hwrite.
Defined.

(** *** Progress *)

(** C9: the count shown is the size of the completed set, capped by the
    total.  With a total of 0 the percentage is 0 and the text is "0%".
    Otherwise the percentage is [completed / total * 100], computed on
    Numbers, and the text is that value with one decimal.  With a total of
    10 and twelve completed paths the count shown is 10, the percentage is
    100 and the text is "100.0%". *)
Theorem updateProgressUI_spec : forall pg,
  let total := totalVideos pg in
  let completed := Z.min (Set_size (completedVideos pg)) total in
  let ui := progress (updateProgressUI pg) in
  progressCount ui
  = decimal completed ++ str " / " ++ decimal total ++ [0x20; 0x672C]
  /\ (total = 0 -> progressFill ui = zero /\ progressText ui = str "0%")
  /\ (total <> 0 ->
        progressFill ui
        = mul (div (Number_of_Z completed) (Number_of_Z total)) (Number_of_Z 100)
        /\ progressText ui = toFixed1 (progressFill ui) ++ str "%")
  /\ (total = 10 -> Set_size (completedVideos pg) = 12 ->
        completed = 10
        /\ progressFill ui = Number_of_Z 100
        /\ progressText ui = str "100.0%"
        /\ progressCount ui = str "10 / 10 " ++ [0x672C])
  /\ completedVideos (updateProgressUI pg) = completedVideos pg
  /\ validVideoPaths (updateProgressUI pg) = validVideoPaths pg
  /\ setItemCalls (updateProgressUI pg) = setItemCalls pg.
Proof.
  intros pg total completed ui. subst ui completed total.
  unfold updateProgressUI. simpl progress. simpl progressCount.
  simpl progressFill. simpl progressText.
  split; [reflexivity|]. split; [|split; [|split; [|repeat split]]].
  - intro H0. rewrite H0. split; reflexivity.
  - intro Hn. apply Z.eqb_neq in Hn. rewrite Hn. split; reflexivity.
  - intros Ht Hs. rewrite Ht, Hs. repeat split.
Qed.

Lemma updateProgressUI_spec_witness :
  totalVideos overfullPage = 10
  /\ Set_size (completedVideos overfullPage) = 12
  /\ (Z.min (Set_size (completedVideos overfullPage)) (totalVideos overfullPage) = 10
      /\ progressFill (progress (updateProgressUI overfullPage)) = Number_of_Z 100
      /\ progressText (progress (updateProgressUI overfullPage)) = str "100.0%"
      /\ progressCount (progress (updateProgressUI overfullPage))
         = str "10 / 10 " ++ [0x672C]).
Proof.
  split; [reflexivity|]. split; [reflexivity|].
  destruct (updateProgressUI_spec overfullPage) as (_ & _ & _ & Hcap & _).
  apply Hcap; reflexivity.
Defined.

Example progress_of_empty_manifest :
  progressText (progress (updateProgressUI initialPage)) = str "0%"
  /\ progressCount (progress (updateProgressUI initialPage))
     = str "0 / 0 " ++ [0x672C].
Proof. split; reflexivity. Qed.

Example progress_one_third :
  progressText (progress (updateProgressUI
    {| categories := numberedManifest 3;
       completedVideos := numberedPaths 1;
       totalVideos := 3;
       validVideoPaths := numberedPaths 3;
       setItemCalls := [];
       progress := progress initialPage |})) = str "33.3%".
Proof. reflexivity. Qed.

(** *** The completed set stays within the valid paths *)

Lemma Set_subset_add : forall s valid p,
  Set_subset s valid = true -> Set_has valid p = true ->
  Set_subset (Set_add s p) valid = true.
Proof.
  intros s valid p Hs Hp. apply Set_subset_spec. intros q Hq.
  rewrite Set_has_add in Hq. apply orb_true_iff in Hq. destruct Hq as [Hq|Hq].
  - exact (proj1 (Set_subset_spec _ _) Hs q Hq).
  - apply str_eqb_eq in Hq. now subst.
Qed.

Lemma Set_subset_delete : forall s valid p,
  Set_subset s valid = true -> Set_subset (Set_delete s p) valid = true.
Proof.
  intros s valid p Hs. apply Set_subset_spec. intros q Hq.
  rewrite Set_has_delete in Hq. apply andb_true_iff in Hq. destruct Hq as [Hq _].
  exact (proj1 (Set_subset_spec _ _) Hs q Hq).
Qed.

Lemma prune_within_valid : forall pg,
  Set_subset (completedVideos (pruneCompletedVideos pg))
             (validVideoPaths (pruneCompletedVideos pg)) = true.
Proof.
  intro pg. destruct (prune_keeps_stats pg) as [Hvalid _].
  rewrite Hvalid. apply Set_subset_spec. intros p Hp.
  rewrite prune_membership in Hp. apply andb_true_iff in Hp. tauto.
Qed.

Lemma toggle_within_valid : forall p isCompleted pg,
  Set_subset (completedVideos pg) (validVideoPaths pg) = true ->
  Set_subset (completedVideos (toggleVideoCompletion p isCompleted pg))
             (validVideoPaths (toggleVideoCompletion p isCompleted pg)) = true
  /\ validVideoPaths (toggleVideoCompletion p isCompleted pg) = validVideoPaths pg.
Proof.
  intros p isCompleted pg Hsub. unfold toggleVideoCompletion.
  destruct (truthy p); simpl negb; cbv iota; [|now split].
  destruct (Set_has (validVideoPaths pg) p) eqn:Hv; simpl negb; cbv iota; [|now split].
  simpl. split; [|reflexivity]. unfold setCompletion. destruct isCompleted.
  - now apply Set_subset_add.
  - now apply Set_subset_delete.
Qed.

Lemma toggles_within_valid : forall events pg,
  Set_subset (completedVideos pg) (validVideoPaths pg) = true ->
  Set_subset (completedVideos (toggles events pg))
             (validVideoPaths (toggles events pg)) = true
  /\ validVideoPaths (toggles events pg) = validVideoPaths pg.
Proof.
  induction events as [|[p flag] events IH]; intros pg Hsub; simpl.
  - now split.
  - destruct (toggle_within_valid p flag pg Hsub) as [Hsub' Hvalid'].
    destruct (IH _ Hsub') as [Hfinal Hvalid]. split; [assumption|].
    simpl in Hvalid. now rewrite Hvalid.
Qed.

(** C10: when a load has completed, every completed path is a valid path,
    and this still holds after any sequence of toggles, which also leaves
    the valid paths as the load set them. *)
Theorem completed_within_valid : forall raw cats pg events,
  let loaded := init raw (Some cats) pg in
  Set_subset (completedVideos loaded) (validVideoPaths loaded) = true
  /\ Set_subset (completedVideos (toggles events loaded))
                (validVideoPaths (toggles events loaded)) = true
  /\ validVideoPaths (toggles events loaded) = snd (collectVideoStats cats).
Proof.
  intros raw cats pg events loaded.
  assert (Hloaded : Set_subset (completedVideos loaded) (validVideoPaths loaded) = true).
  { subst loaded. unfold init.
    destruct (updateProgressUI_keeps_sets
                (pruneCompletedVideos (storeStats cats (loadCompletedVideos raw pg))))
      as (Hc & Hv & _).
    rewrite Hc, Hv. apply prune_within_valid. }
  split; [assumption|].
  destruct (toggles_within_valid events loaded Hloaded) as [Hafter Hvalid].
  split; [assumption|]. rewrite Hvalid. subst loaded. unfold init.
  destruct (updateProgressUI_keeps_sets
              (pruneCompletedVideos (storeStats cats (loadCompletedVideos raw pg))))
    as (_ & Hv & _).
  rewrite Hv.
  destruct (prune_keeps_stats (storeStats cats (loadCompletedVideos raw pg)))
    as [Hvalid' _].
  rewrite Hvalid'. reflexivity.
Qed.

Example load_then_toggle :
  let loaded := init (Some (numberedPaths 12)) (Some (numberedManifest 10)) initialPage in
  completedVideos loaded = numberedPaths 10
  /\ setItemCalls loaded = [numberedPaths 10]
  /\ completedVideos
       (toggles [(str "videos/11.mp4", true); (str "videos/0.mp4", false)] loaded)
     = skipn 1 (numberedPaths 10).
Proof. repeat split. Qed.

End ViewerFacts.

(** ** The completed set over a session *)
Module SessionFacts.
Import JS Manifest Viewer Reference Notions JSFacts ViewerFacts.

(** *** A set holds no value twice *)

Lemma Set_add_NoDup : forall s x, NoDup s -> NoDup (Set_add s x).
Proof.
  intros s x Hs. unfold Set_add. destruct (Set_has s x) eqn:E; [assumption|].
  apply NoDup_app; [assumption | repeat constructor; auto |].
  intros y Hy [Hx|[]]. subst y.
  apply Set_has_In in Hy. congruence.
Qed.

Lemma Set_delete_In : forall s x y, In y (Set_delete s x) -> In y s.
Proof.
  induction s as [|z s IH]; simpl; intros x y H; [assumption|].
  destruct (str_eqb z x).
  - right. eapply IH; eassumption.
  - destruct H as [H|H]; [now left | right; eapply IH; eassumption].
Qed.

Lemma Set_delete_NoDup : forall s x, NoDup s -> NoDup (Set_delete s x).
Proof.
  induction s as [|z s IH]; simpl; intros x Hs; [constructor|].
  inversion Hs as [|? ? Hz Hs']; subst.
  destruct (str_eqb z x); [now apply IH|].
  constructor; [|now apply IH].
  intro Hin. apply Hz. eapply Set_delete_In; eassumption.
Qed.

Lemma fold_add_NoDup : forall l acc, NoDup acc -> NoDup (fold_left Set_add l acc).
Proof.
  induction l as [|x l IH]; simpl; intros acc H; [assumption|].
  apply IH. now apply Set_add_NoDup.
Qed.

Lemma Set_from_NoDup : forall l, NoDup (Set_from l).
Proof. intro l. apply fold_add_NoDup. constructor. Qed.

Lemma fold_add_fresh : forall l acc,
  NoDup (acc ++ l) -> fold_left Set_add l acc = acc ++ l.
Proof.
  induction l as [|x l IH]; simpl; intros acc H.
  - now rewrite app_nil_r.
  - assert (Hx : Set_has acc x = false).
    { destruct (Set_has acc x) eqn:E; [|reflexivity].
      apply Set_has_In in E. apply NoDup_remove_2 in H.
      exfalso. apply H. apply in_or_app. now left. }
    unfold Set_add at 2. rewrite Hx.
    rewrite IH; rewrite <- app_assoc; [reflexivity | exact H].
Qed.

(** Making a set of the elements of a set gives the set back, in the same
    order. *)
Lemma Set_from_id : forall s, NoDup s -> Set_from s = s.
Proof. intros s H. unfold Set_from. now rewrite fold_add_fresh. Qed.

Lemma setCompletion_NoDup : forall s p flag,
  NoDup s -> NoDup (setCompletion s p flag).
Proof.
  intros s p flag H. unfold setCompletion.
  destruct flag; [now apply Set_add_NoDup | now apply Set_delete_NoDup].
Qed.

(** *** What a session leaves in the store *)

Lemma last_snoc : forall (A : Type) (l : list A) (x d : A), last (l ++ [x]) d = x.
Proof. intros. apply last_last. Qed.

Lemma lastPayload_snoc : forall raw calls payload,
  lastPayload raw (calls ++ [payload]) = Some payload.
Proof.
  intros raw calls payload. destruct calls as [|c calls]; simpl; [reflexivity|].
  f_equal. destruct calls as [|c' calls]; [reflexivity|].
  change (last ((c' :: calls) ++ [payload]) c = payload). apply last_last.
Qed.

Lemma storeAfter_snoc : forall accepts calls k stored payload,
  storeAfter accepts k stored (calls ++ [payload])
  = if accepts (k + List.length calls)%nat then Some payload
    else storeAfter accepts k stored calls.
Proof.
  intros accepts. induction calls as [|c calls IH]; intros k stored payload.
  - simpl. now rewrite Nat.add_0_r.
  - simpl. rewrite IH. now rewrite Nat.add_succ_r.
Qed.

Lemma storeAfter_rejected : forall accepts calls k stored,
  (forall j, accepts j = false) -> storeAfter accepts k stored calls = stored.
Proof.
  intros accepts. induction calls as [|c calls IH]; intros k stored Hrej;
    [reflexivity|].
  simpl. rewrite Hrej. now apply IH.
Qed.

(** When the store took the last call, or there was none, it holds
    the payload of the last call, or what it held at the start. *)
Lemma storedValue_accepted : forall raw calls accepts,
  calls = [] \/ accepts (List.length calls - 1)%nat = true ->
  storedValue raw calls accepts = lastPayload raw calls.
Proof.
  intros raw calls accepts H. unfold storedValue.
  induction calls as [|payload front _] using rev_ind; [reflexivity|].
  destruct H as [H|H]; [now destruct front|].
  rewrite storeAfter_snoc, lastPayload_snoc.
  rewrite length_app in H. simpl in H.
  replace (List.length front + 1 - 1)%nat with (List.length front) in H by lia.
  simpl. now rewrite H.
Qed.

Lemma persisted_written : forall raw pg,
  NoDup (completedVideos pg) -> persisted raw (persistCompletedVideos pg).
Proof.
  intros raw pg H. split; [exact H|].
  unfold persistCompletedVideos. simpl setItemCalls. rewrite lastPayload_snoc.
  simpl. unfold Array_from. now apply Set_from_id.
Qed.

Lemma persisted_loaded : forall raw pg,
  setItemCalls pg = [] -> persisted raw (loadCompletedVideos raw pg).
Proof.
  intros raw pg Hcalls. split.
  - simpl. destruct raw; [apply Set_from_NoDup | constructor].
  - simpl setItemCalls. rewrite Hcalls. reflexivity.
Qed.

Lemma persisted_prune : forall raw pg,
  persisted raw pg -> persisted raw (pruneCompletedVideos pg).
Proof.
  intros raw pg H. unfold pruneCompletedVideos.
  destruct (negb _); [|exact H].
  apply persisted_written. simpl. apply Set_from_NoDup.
Qed.

Lemma persisted_toggle : forall raw p flag pg,
  persisted raw pg -> persisted raw (toggleVideoCompletion p flag pg).
Proof.
  intros raw p flag pg H. unfold toggleVideoCompletion.
  destruct (negb (truthy p)); [exact H|].
  destruct (negb (Set_has (validVideoPaths pg) p)); [exact H|].
  pose proof (persisted_written raw
    {| categories := categories pg;
       completedVideos := setCompletion (completedVideos pg) p flag;
       totalVideos := totalVideos pg;
       validVideoPaths := validVideoPaths pg;
       setItemCalls := setItemCalls pg;
       progress := progress pg |}
    (setCompletion_NoDup _ p flag (proj1 H))) as Hw.
  exact Hw.
Qed.

Lemma persisted_toggles : forall raw events pg,
  persisted raw pg -> persisted raw (toggles events pg).
Proof.
  intros raw events. induction events as [|[p flag] events IH]; intros pg H.
  - exact H.
  - simpl. apply IH. now apply persisted_toggle.
Qed.

Lemma persisted_init : forall raw payload pg,
  setItemCalls pg = [] -> persisted raw (init raw payload pg).
Proof.
  intros raw payload pg Hcalls. unfold init.
  pose proof (persisted_loaded raw pg Hcalls) as Hl.
  destruct payload as [cats|]; [|exact Hl].
  assert (Hs : persisted raw (storeStats cats (loadCompletedVideos raw pg))) by exact Hl.
  apply persisted_prune in Hs. exact Hs.
Qed.

(** X1: when the store took the last write of the session, or the session
    wrote nothing, what the next page load reads from the store is the
    completed set this session ended with, element for element and in the
    same order: for every stored value, every manifest (or failed fetch),
    every sequence of toggles and whatever became of the earlier writes.
    When the store took none of the writes it still holds the value the
    session started from.  The completed set never holds a path twice. *)
Theorem reload_restores_completed : forall raw payload events accepts,
  let session := toggles events (init raw payload initialPage) in
  let calls := setItemCalls session in
  (calls = [] \/ accepts (List.length calls - 1)%nat = true ->
   completedVideos
     (loadCompletedVideos (storedValue raw calls accepts) initialPage)
   = completedVideos session)
  /\ ((forall k, accepts k = false) -> storedValue raw calls accepts = raw)
  /\ NoDup (completedVideos session).
Proof.
  intros raw payload events accepts session calls.
  destruct (persisted_toggles raw events (init raw payload initialPage)
              (persisted_init raw payload initialPage eq_refl)) as [Hnd Hst].
  split; [|split].
  - intro Hlast. subst calls. rewrite (storedValue_accepted _ _ _ Hlast).
    exact Hst.
  - intro Hrej. unfold storedValue. now apply storeAfter_rejected.
  - exact Hnd.
Qed.

Lemma reload_restores_completed_witness :
  let events := [(str "videos/3.mp4", true); (str "videos/1.mp4", false)] in
  let session :=
    toggles events (init (Some (numberedPaths 2))
                         (Some (numberedManifest 5)) initialPage) in
  let accepts := fun k => Nat.eqb k 1 in
  setItemCalls session
  = [[str "videos/0.mp4"; str "videos/1.mp4"; str "videos/3.mp4"];
     [str "videos/0.mp4"; str "videos/3.mp4"]]
  /\ accepts (List.length (setItemCalls session) - 1)%nat = true
  /\ completedVideos
       (loadCompletedVideos
          (storedValue (Some (numberedPaths 2)) (setItemCalls session) accepts)
          initialPage)
     = completedVideos session.
Proof.
  cbv zeta. split; [reflexivity|]. split; [reflexivity|].
  apply (reload_restores_completed (Some (numberedPaths 2))
           (Some (numberedManifest 5))
           [(str "videos/3.mp4", true); (str "videos/1.mp4", false)]
           (fun k => Nat.eqb k 1)).
  right. reflexivity.
Defined.

(** When the store does not take the last write, the next page load reads
    an older set: here the one of the write before. *)
Example reload_after_rejected_write :
  let events := [(str "videos/3.mp4", true); (str "videos/1.mp4", false)] in
  let session :=
    toggles events (init (Some (numberedPaths 2))
                         (Some (numberedManifest 5)) initialPage) in
  let accepts := fun k => Nat.eqb k 0 in
  completedVideos session = [str "videos/0.mp4"; str "videos/3.mp4"]
  /\ completedVideos
       (loadCompletedVideos
          (storedValue (Some (numberedPaths 2)) (setItemCalls session) accepts)
          initialPage)
     = [str "videos/0.mp4"; str "videos/1.mp4"; str "videos/3.mp4"].
Proof. cbv zeta. split; reflexivity. Qed.

(** *** Sizes *)

Lemma Set_from_incl : forall l, incl (Set_from l) l.
Proof.
  intros l x Hx. apply Set_has_In. rewrite <- Set_has_from. now apply Set_has_In.
Qed.

Lemma Set_from_length : forall l,
  (List.length (Set_from l) <= List.length l)%nat
  /\ (List.length (Set_from l) = List.length l <-> NoDup l).
Proof.
  intro l. split; [apply NoDup_incl_length; [apply Set_from_NoDup | apply Set_from_incl]|].
  split.
  - intro Hlen. apply NoDup_incl_NoDup with (l := Set_from l).
    + apply Set_from_NoDup.
    + now rewrite Hlen.
    + apply Set_from_incl.
  - intro Hnd. now rewrite Set_from_id.
Qed.

Lemma filter_all : forall (f : jsstring -> bool) l,
  forallb f l = true -> filter f l = l.
Proof.
  intros f l. induction l as [|x l IH]; simpl; [reflexivity|].
  intro H. apply andb_true_iff in H. destruct H as [Hx Hl].
  rewrite Hx. f_equal. now apply IH.
Qed.

Lemma valid_paths_against_total_aux : forall cats,
  NoDup (snd (collectVideoStats cats))
  /\ Set_size (snd (collectVideoStats cats)) <= fst (collectVideoStats cats).
Proof.
  intro cats. rewrite collectVideoStats_eq. simpl fst. simpl snd.
  rewrite numVideosIn_length. unfold Set_size.
  destruct (Set_from_length (filter truthy (videoPathsIn cats))) as [Hle _].
  pose proof (filter_length_le truthy (videoPathsIn cats)) as Hfl.
  split; [apply Set_from_NoDup | lia].
Qed.

(** X2: the set of valid paths never holds a path twice and is never
    larger than the total; the two are equal exactly when no Video node has
    an empty path and no two Video nodes share a path. *)
Theorem valid_paths_against_total : forall cats,
  NoDup (snd (collectVideoStats cats))
  /\ Set_size (snd (collectVideoStats cats)) <= fst (collectVideoStats cats)
  /\ (Set_size (snd (collectVideoStats cats)) = fst (collectVideoStats cats)
      <-> NoDup (videoPathsIn cats) /\ forallb truthy (videoPathsIn cats) = true).
Proof.
  intro cats. rewrite collectVideoStats_eq. simpl fst. simpl snd.
  rewrite numVideosIn_length. unfold Set_size.
  set (P := videoPathsIn cats).
  destruct (Set_from_length (filter truthy P)) as [Hle Heq].
  pose proof (filter_length_le truthy P) as Hfl.
  split; [apply Set_from_NoDup|]. split; [lia|]. split.
  - intro H. apply Nat2Z.inj in H.
    assert (Hf : List.length (filter truthy P) = List.length P) by lia.
    apply filter_keeps_all in Hf. split; [|exact Hf].
    rewrite <- (filter_all truthy P Hf). apply Heq.
    rewrite (filter_all truthy P Hf) in *. lia.
  - intros [Hnd Hall]. rewrite (filter_all truthy P Hall).
    now rewrite Set_from_id.
Qed.

Lemma init_NoDup : forall raw payload pg, NoDup (completedVideos (init raw payload pg)).
Proof.
  intros raw payload pg. unfold init.
  assert (Hl : NoDup (completedVideos (loadCompletedVideos raw pg))).
  { simpl. destruct raw; [apply Set_from_NoDup | constructor]. }
  destruct payload as [cats|]; [|exact Hl].
  change (NoDup (completedVideos
            (pruneCompletedVideos (storeStats cats (loadCompletedVideos raw pg))))).
  unfold pruneCompletedVideos. destruct (negb _); [|exact Hl].
  simpl. apply Set_from_NoDup.
Qed.

Lemma toggle_keeps : forall p flag pg,
  (NoDup (completedVideos pg) ->
   NoDup (completedVideos (toggleVideoCompletion p flag pg)))
  /\ totalVideos (toggleVideoCompletion p flag pg) = totalVideos pg.
Proof.
  intros p flag pg. unfold toggleVideoCompletion.
  destruct (negb (truthy p)); [now split|].
  destruct (negb (Set_has (validVideoPaths pg) p)); [now split|].
  split; [|reflexivity]. intro H. simpl. now apply setCompletion_NoDup.
Qed.

Lemma toggles_keep : forall events pg,
  (NoDup (completedVideos pg) -> NoDup (completedVideos (toggles events pg)))
  /\ totalVideos (toggles events pg) = totalVideos pg.
Proof.
  induction events as [|[p flag] events IH]; intro pg; [now split|].
  simpl. destruct (IH (toggleVideoCompletion p flag pg)) as [Hnd Htot].
  destruct (toggle_keeps p flag pg) as [Hnd1 Htot1]. split.
  - intro H. apply Hnd. simpl in *. now apply Hnd1.
  - simpl in *. now rewrite Htot, Htot1.
Qed.

(** X3: after a load, and after any toggles that follow, the completed
    set is no larger than the set of valid paths, which is no larger than
    the total: the cap of the progress display is not in effect and the
    count shown is the size of the completed set. *)
Theorem completed_count_within_total : forall raw cats events pg,
  let session := toggles events (init raw (Some cats) pg) in
  Set_size (completedVideos session) <= Set_size (validVideoPaths session)
  /\ Set_size (validVideoPaths session) <= totalVideos session
  /\ totalVideos session = numVideosIn cats
  /\ Z.min (Set_size (completedVideos session)) (totalVideos session)
     = Set_size (completedVideos session).
Proof.
  intros raw cats events pg session. subst session.
  set (loaded := init raw (Some cats) pg).
  assert (Hsub0 : Set_subset (completedVideos loaded) (validVideoPaths loaded) = true).
  { subst loaded. unfold init.
    destruct (updateProgressUI_keeps_sets
                (pruneCompletedVideos (storeStats cats (loadCompletedVideos raw pg))))
      as (Hc & Hv & _).
    rewrite Hc, Hv. apply prune_within_valid. }
  destruct (toggles_within_valid events loaded Hsub0) as [Hsub Hvalid].
  destruct (toggles_keep events loaded) as [Hnd Htot].
  specialize (Hnd (init_NoDup raw (Some cats) pg)).
  assert (Hv : validVideoPaths loaded = snd (collectVideoStats cats)).
  { subst loaded. unfold init.
    destruct (updateProgressUI_keeps_sets
                (pruneCompletedVideos (storeStats cats (loadCompletedVideos raw pg))))
      as (_ & Hv & _).
    rewrite Hv.
    destruct (prune_keeps_stats (storeStats cats (loadCompletedVideos raw pg)))
      as [Hv' _].
    now rewrite Hv'. }
  assert (Ht : totalVideos loaded = fst (collectVideoStats cats)).
  { subst loaded. unfold init.
    destruct (prune_keeps_stats (storeStats cats (loadCompletedVideos raw pg)))
      as [_ Ht'].
    change (totalVideos (pruneCompletedVideos
                           (storeStats cats (loadCompletedVideos raw pg)))
            = fst (collectVideoStats cats)).
    now rewrite Ht'. }
  destruct (valid_paths_against_total_aux cats) as [_ Hle].
  assert (H1 : Set_size (completedVideos (toggles events loaded))
               <= Set_size (validVideoPaths (toggles events loaded))).
  { unfold Set_size. apply inj_le. apply NoDup_incl_length; [exact Hnd|].
    intros x Hx. apply Set_has_In. apply (proj1 (Set_subset_spec _ _) Hsub).
    now apply Set_has_In. }
  assert (H2 : Set_size (validVideoPaths (toggles events loaded))
               <= totalVideos (toggles events loaded)).
  { rewrite Hvalid, Hv, Htot, Ht. exact Hle. }
  split; [exact H1|]. split; [exact H2|]. split.
  - rewrite Htot, Ht, collectVideoStats_eq. reflexivity.
  - lia.
Qed.

(** *** Checking and unchecking *)

Lemma Set_delete_fresh : forall s p, Set_has s p = false -> Set_delete s p = s.
Proof.
  induction s as [|z s IH]; simpl; intros p H; [reflexivity|].
  apply orb_false_iff in H. destruct H as [Hz Hs].
  rewrite Hz. f_equal. now apply IH.
Qed.

Lemma Set_delete_app : forall s t p,
  Set_delete (s ++ t) p = Set_delete s p ++ Set_delete t p.
Proof.
  induction s as [|z s IH]; simpl; intros t p; [reflexivity|].
  destruct (str_eqb z p); [apply IH | simpl; f_equal; apply IH].
Qed.

(** X4: checking a valid video that is not completed and unchecking it
    again leaves the completed set exactly as it was, order included, after
    two writes: the set with the video added at its end, then the set as it
    was. *)
Theorem check_then_uncheck_restores : forall p pg,
  truthy p = true ->
  Set_has (validVideoPaths pg) p = true ->
  Set_has (completedVideos pg) p = false ->
  let checked := toggleVideoCompletion p true pg in
  let unchecked := toggleVideoCompletion p false checked in
  completedVideos checked = completedVideos pg ++ [p]
  /\ completedVideos unchecked = completedVideos pg
  /\ setItemCalls unchecked
     = setItemCalls pg ++ [completedVideos pg ++ [p]; completedVideos pg].
Proof.
  intros p pg Hp Hv Hc checked unchecked. subst unchecked checked.
  assert (H1 : completedVideos (toggleVideoCompletion p true pg)
               = completedVideos pg ++ [p]).
  { unfold toggleVideoCompletion. rewrite Hp, Hv. simpl.
    unfold Set_add. now rewrite Hc. }
  assert (Hv1 : validVideoPaths (toggleVideoCompletion p true pg) = validVideoPaths pg).
  { unfold toggleVideoCompletion. rewrite Hp, Hv. reflexivity. }
  assert (Hs1 : setItemCalls (toggleVideoCompletion p true pg)
                = setItemCalls pg ++ [completedVideos pg ++ [p]]).
  { unfold toggleVideoCompletion. rewrite Hp, Hv. simpl.
    unfold Set_add, Array_from. now rewrite Hc. }
  split; [exact H1|].
  unfold toggleVideoCompletion at 1 3. rewrite Hp, Hv1, Hv. simpl negb. cbv iota.
  simpl completedVideos. simpl setItemCalls. rewrite H1, Hs1.
  unfold Array_from. simpl setCompletion.
  rewrite Set_delete_app, (Set_delete_fresh _ _ Hc). simpl.
  rewrite str_eqb_refl, app_nil_r. split; [reflexivity|].
  now rewrite <- app_assoc.
Qed.

Lemma check_then_uncheck_restores_witness :
  truthy (str "videos/4.mp4") = true
  /\ Set_has (validVideoPaths loadedPage) (str "videos/4.mp4") = true
  /\ Set_has (completedVideos loadedPage) (str "videos/4.mp4") = false
  /\ completedVideos
       (toggleVideoCompletion (str "videos/4.mp4") false
          (toggleVideoCompletion (str "videos/4.mp4") true loadedPage))
     = completedVideos loadedPage.
Proof.
  split; [reflexivity|]. split; [reflexivity|]. split; [reflexivity|].
  destruct (check_then_uncheck_restores (str "videos/4.mp4") loadedPage
              eq_refl eq_refl eq_refl) as (_ & Hback & _).
  exact Hback.
Defined.

End SessionFacts.

(** ** The address of a video *)
Module UrlFacts.
Import JS Url Notions JSFacts.

(** *** Trailing slashes *)

Lemma startsWith_refl_one : forall c rest, startsWith (c :: rest) [c] = true.
Proof. intros c rest. simpl. rewrite Z.eqb_refl. now destruct rest. Qed.

Lemma endsWith_snoc : forall s c, endsWith (s ++ [c]) [c] = true.
Proof.
  intros s c. unfold endsWith. rewrite rev_unit. apply startsWith_refl_one.
Qed.

Lemma endsWith_app : forall s t p,
  truthy t = true -> endsWith t p = true -> List.length p = 1%nat ->
  endsWith (s ++ t) p = true.
Proof.
  intros s t p Ht He Hp. unfold endsWith in *. rewrite rev_app_distr.
  destruct p as [|c [|]]; try discriminate. simpl rev in *.
  destruct (rev t) as [|x r] eqn:E; [discriminate|].
  simpl in *. apply andb_true_iff in He. destruct He as [He _]. rewrite He.
  now destruct (r ++ rev s).
Qed.

Lemma ensureTrailingSlash_shape : forall value,
  ensureTrailingSlash value = []
  \/ endsWith (ensureTrailingSlash value) [SLASH] = true.
Proof.
  intro value. unfold ensureTrailingSlash.
  destruct (truthy value); simpl; [|now left].
  destruct (endsWith value [SLASH]) eqn:E; right; [exact E | apply endsWith_snoc].
Qed.

Lemma ensureTrailingSlash_fixed : forall value,
  value = [] \/ endsWith value [SLASH] = true ->
  ensureTrailingSlash value = value.
Proof.
  intros value [->|H]; [reflexivity|]. unfold ensureTrailingSlash.
  destruct value; [reflexivity|]. simpl truthy. simpl negb. cbv iota. now rewrite H.
Qed.

Lemma computeVideoPathPrefix_shape : forall window,
  computeVideoPathPrefix window = []
  \/ endsWith (computeVideoPathPrefix window) [SLASH] = true.
Proof.
  intros [w|]; [|now left]. unfold computeVideoPathPrefix, prefixFromHost.
  destruct (pathPrefixOverride w) as [o|];
    [destruct (truthy (trim o)); [apply ensureTrailingSlash_shape|]|];
    (destruct (matchGithubHost (hostname w)); [apply ensureTrailingSlash_shape | now left]).
Qed.

(** X5: the prefix computed when the script starts is either empty or ends
    with a slash, so that a path appended to it starts a new segment, and
    [ensureTrailingSlash] changes nothing when applied again. *)
Theorem prefix_ends_with_slash : forall window value,
  (computeVideoPathPrefix window = []
   \/ endsWith (computeVideoPathPrefix window) [SLASH] = true)
  /\ ensureTrailingSlash (computeVideoPathPrefix window)
     = computeVideoPathPrefix window
  /\ ensureTrailingSlash (ensureTrailingSlash value) = ensureTrailingSlash value
  /\ (value <> [] -> endsWith (ensureTrailingSlash value) [SLASH] = true).
Proof.
  intros window value. split; [apply computeVideoPathPrefix_shape|].
  split; [apply ensureTrailingSlash_fixed, computeVideoPathPrefix_shape|].
  split; [apply ensureTrailingSlash_fixed, ensureTrailingSlash_shape|].
  intro Hne. unfold ensureTrailingSlash. destruct value; [contradiction|].
  simpl truthy. simpl negb. cbv iota.
  destruct (endsWith (z :: value) [SLASH]) eqn:E; [exact E | apply endsWith_snoc].
Qed.

(** *** The host *)

Lemma takeWhile_dropWhile : forall p s, takeWhile p s ++ dropWhile p s = s.
Proof.
  intros p s. induction s as [|c s IH]; simpl; [reflexivity|].
  destruct (p c); simpl; [now rewrite IH | reflexivity].
Qed.

Lemma takeWhile_app_stop : forall p a c rest,
  Forall (fun x => p x = true) a -> p c = false ->
  takeWhile p (a ++ c :: rest) = a /\ dropWhile p (a ++ c :: rest) = c :: rest.
Proof.
  intros p a c rest Ha Hc. induction Ha as [|x a Hx _ IH]; simpl.
  - now rewrite Hc.
  - rewrite Hx. destruct IH as [-> ->]. now split.
Qed.

Lemma dropWhile_head : forall p s c rest,
  dropWhile p s = c :: rest -> p c = false.
Proof.
  intros p s. induction s as [|x s IH]; simpl; intros c rest H; [discriminate|].
  destruct (p x) eqn:E; [eapply IH; eassumption|]. now inversion H; subst.
Qed.

Lemma takeWhile_Forall : forall p s, Forall (fun x => p x = true) (takeWhile p s).
Proof.
  intros p s. induction s as [|c s IH]; simpl; [constructor|].
  destruct (p c) eqn:E; constructor; assumption.
Qed.

Lemma lowerChar_fullstop : forall c, lowerChar c = FULLSTOP -> c = FULLSTOP.
Proof.
  intro c. unfold lowerChar, FULLSTOP.
  destruct ((65 <=? c) && (c <=? 90)) eqn:E; [|tauto].
  apply andb_true_iff in E. destruct E as [H1 H2].
  apply Z.leb_le in H1. apply Z.leb_le in H2. lia.
Qed.

(** The host names the pattern accepts. *)
Lemma matchGithubHost_iff : forall host account,
  matchGithubHost host = Some account
  <-> account <> []
      /\ Forall (fun c => c <> FULLSTOP) account
      /\ exists rest, host = account ++ rest
                      /\ toLowerCase rest = str ".github.io".
Proof.
  intros host account. unfold matchGithubHost.
  set (p := fun c => negb (c =? FULLSTOP)). split.
  - destruct (truthy (takeWhile p host)
              && str_eqb (toLowerCase (dropWhile p host)) (str ".github.io")) eqn:E;
      [|discriminate].
    apply andb_true_iff in E. destruct E as [Ht Er].
    intro H. inversion H; subst account. clear H. split; [|split].
    + intro H0. rewrite H0 in Ht. discriminate.
    + pose proof (takeWhile_Forall p host) as Hall.
      eapply Forall_impl; [|exact Hall]. intros c Hc. unfold p in Hc.
      apply negb_true_iff, Z.eqb_neq in Hc. exact Hc.
    + exists (dropWhile p host). split; [symmetry; apply takeWhile_dropWhile|].
      now apply str_eqb_eq.
  - intros (Hne & Hdots & rest & Hhost & Hrest).
    destruct rest as [|c rest]; [discriminate|].
    assert (Hc : c = FULLSTOP).
    { apply lowerChar_fullstop. simpl in Hrest. now inversion Hrest. }
    assert (Hpa : Forall (fun x => p x = true) account).
    { eapply Forall_impl; [|exact Hdots]. intros x Hx. unfold p.
      now apply negb_true_iff, Z.eqb_neq. }
    assert (Hpc : p c = false) by (subst c; reflexivity).
    destruct (takeWhile_app_stop p account c rest Hpa Hpc) as [Ht Hd].
    rewrite Hhost, Ht, Hd, Hrest.
    destruct account; [contradiction|]. reflexivity.
Qed.

Lemma truthy_app_r : forall a b, truthy b = true -> truthy (a ++ b) = true.
Proof. intros [|x a] b H; simpl; [exact H | reflexivity]. Qed.

(** X6: without an override (or with a blank one), on a host made of a
    non-empty account without dots followed by [.github.io] in either case
    of the letters, the prefix is the CDN address of the account and of the
    first non-empty segment of the page's path, or of [account.github.io]
    when the path has no such segment; on a host that does not have this
    form the prefix is empty. *)
Theorem prefix_on_github_pages : forall w,
  (pathPrefixOverride w = None
   \/ exists o, pathPrefixOverride w = Some o /\ trim o = []) ->
  (forall account rest,
     hostname w = account ++ rest -> account <> [] ->
     Forall (fun c => c <> FULLSTOP) account ->
     toLowerCase rest = str ".github.io" ->
     computeVideoPathPrefix (Some w)
     = CDN ++ account ++ [SLASH]
         ++ hd (account ++ str ".github.io")
               (filter truthy (split SLASH (pathname w)))
         ++ str "@main/")
  /\ ((forall account rest,
        hostname w = account ++ rest -> account <> [] ->
        Forall (fun c => c <> FULLSTOP) account ->
        toLowerCase rest <> str ".github.io") ->
      computeVideoPathPrefix (Some w) = []).
Proof.
  intros w Hover.
  assert (Hcomp : computeVideoPathPrefix (Some w) = prefixFromHost w).
  { unfold computeVideoPathPrefix. destruct Hover as [->|(o & -> & Ho)];
      [reflexivity | now rewrite Ho]. }
  rewrite Hcomp. unfold prefixFromHost. split.
  - intros account rest Hhost Hne Hdots Hrest.
    assert (Hm : matchGithubHost (hostname w) = Some account).
    { apply matchGithubHost_iff. split; [exact Hne|]. split; [exact Hdots|].
      exists rest. now split. }
    rewrite Hm. cbv zeta.
    set (repository := match filter truthy (split SLASH (pathname w)) with
                       | segment :: _ => segment
                       | [] => account ++ str ".github.io"
                       end).
    assert (Hrepo : repository
                    = hd (account ++ str ".github.io")
                         (filter truthy (split SLASH (pathname w)))).
    { unfold repository. destruct (filter truthy (split SLASH (pathname w))); reflexivity. }
    rewrite <- Hrepo. unfold CDN.
    apply ensureTrailingSlash_fixed. right.
    rewrite !app_assoc. apply endsWith_app; reflexivity.
  - intro Hno. destruct (matchGithubHost (hostname w)) as [account|] eqn:E;
      [|reflexivity].
    apply matchGithubHost_iff in E.
    destruct E as (Hne & Hdots & rest & Hhost & Hrest).
    now destruct (Hno account rest Hhost Hne Hdots).
Qed.

Lemma prefix_on_github_pages_witness :
  pathPrefixOverride pagesWindow = None
  /\ computeVideoPathPrefix (Some pagesWindow)
     = str "https://cdn.jsdelivr.net/gh/Alice/study@main/".
Proof.
  split; [reflexivity|].
  destruct (prefix_on_github_pages pagesWindow (or_introl eq_refl)) as [Hcdn _].
  apply (Hcdn (str "Alice") (str ".GitHub.io")).
  - reflexivity.
  - discriminate.
  - repeat constructor; discriminate.
  - reflexivity.
Defined.

(** *** Splitting and joining *)

Lemma split_not_nil : forall sep s, split sep s <> [].
Proof.
  intros sep s. destruct s as [|c s]; simpl; [discriminate|].
  destruct (c =? sep); [discriminate|]. destruct (split sep s); discriminate.
Qed.

Lemma join_cons : forall sep p q rest,
  join sep (p :: q :: rest) = p ++ sep ++ join sep (q :: rest).
Proof. reflexivity. Qed.

Lemma join_split : forall sep s, join [sep] (split sep s) = s.
Proof.
  intros sep s. induction s as [|c s IH]; [reflexivity|]. simpl split.
  destruct (c =? sep) eqn:E.
  - apply Z.eqb_eq in E. subst c.
    destruct (split sep s) as [|p ps] eqn:Es; [now destruct (split_not_nil sep s)|].
    rewrite join_cons, IH. reflexivity.
  - destruct (split sep s) as [|p ps] eqn:Es; [now destruct (split_not_nil sep s)|].
    destruct ps as [|q ps]; simpl in *; now rewrite <- IH.
Qed.

Lemma split_plain : forall sep s, Forall (fun c => c <> sep) s -> split sep s = [s].
Proof.
  intros sep s H. induction H as [|c s Hc _ IH]; [reflexivity|]. simpl.
  apply Z.eqb_neq in Hc. now rewrite Hc, IH.
Qed.

Lemma split_app_sep : forall sep a rest,
  Forall (fun c => c <> sep) a ->
  split sep (a ++ sep :: rest) = a :: split sep rest.
Proof.
  intros sep a rest H. induction H as [|c a Hc _ IH]; simpl.
  - now rewrite Z.eqb_refl.
  - apply Z.eqb_neq in Hc. now rewrite Hc, IH.
Qed.

Lemma split_join : forall sep segments,
  segments <> [] -> Forall (Forall (fun c => c <> sep)) segments ->
  split sep (join [sep] segments) = segments.
Proof.
  intros sep segments Hne H. induction H as [|p ps Hp _ IH]; [contradiction|].
  destruct ps as [|q ps]; [now apply split_plain|].
  rewrite join_cons. simpl app. rewrite split_app_sep by assumption.
  f_equal. apply IH. discriminate.
Qed.

Lemma split_pieces : forall sep s,
  Forall (Forall (fun c => c <> sep)) (split sep s).
Proof.
  intros sep s. induction s as [|c s IH]; simpl; [repeat constructor|].
  destruct (c =? sep) eqn:E; [now constructor|].
  apply Z.eqb_neq in E.
  destruct (split sep s) as [|p ps]; [repeat constructor; assumption|].
  inversion IH; subst. constructor; [now constructor | assumption].
Qed.

Lemma split_chars : forall sep s c,
  (exists piece, In piece (split sep s) /\ In c piece) <-> In c s /\ c <> sep.
Proof.
  intros sep s c. split.
  - intros (piece & Hp & Hc). split.
    + rewrite <- (join_split sep s). revert Hp. generalize (split sep s).
      intro l. induction l as [|p [|q ps] IH]; intro Hp; [destruct Hp| |].
      * destruct Hp as [->|[]]. exact Hc.
      * rewrite join_cons. apply in_or_app. destruct Hp as [->|Hp]; [now left|].
        right. right. now apply IH.
    + pose proof (split_pieces sep s) as Hall. rewrite Forall_forall in Hall.
      specialize (Hall piece Hp). rewrite Forall_forall in Hall. now apply Hall.
  - intros [Hin Hne]. induction s as [|x s IH]; [destruct Hin|]. simpl split.
    destruct (x =? sep) eqn:E.
    + apply Z.eqb_eq in E. destruct Hin as [->|Hin]; [contradiction|].
      destruct (IH Hin) as (piece & Hp & Hc). exists piece. split; [now right | exact Hc].
    + destruct (split sep s) as [|p ps] eqn:Es; [now destruct (split_not_nil sep s)|].
      destruct Hin as [->|Hin].
      * exists (c :: p). split; now left.
      * destruct (IH Hin) as (piece & [Hp|Hp] & Hc).
        -- subst piece. exists (x :: p). split; [now left | now right].
        -- exists piece. split; [now right | exact Hc].
Qed.

(** *** Encoding *)

Lemma hexDigit_unreserved : forall n, 0 <= n < 16 -> isUnreserved (hexDigit n) = true.
Proof.
  intros n Hn. replace n with (Z.of_nat (Z.to_nat n)) by lia.
  assert (Hk : (Z.to_nat n < 16)%nat) by lia. revert Hk.
  generalize (Z.to_nat n). intro k.
  do 16 (destruct k as [|k]; [reflexivity|]). lia.
Qed.

Lemma utf8_octets : forall c,
  isScalarValue c = true -> Forall (fun b => 0 <= b < 256) (utf8 c).
Proof.
  intros c H. unfold isScalarValue in H.
  apply andb_true_iff in H. destruct H as [H _].
  apply andb_true_iff in H. destruct H as [H0 H1].
  apply Z.leb_le in H0. apply Z.leb_le in H1. unfold utf8.
  destruct (c <? 128) eqn:E1; [apply Z.ltb_lt in E1; repeat constructor; lia|].
  apply Z.ltb_ge in E1.
  destruct (c <? 2048) eqn:E2;
    [apply Z.ltb_lt in E2; repeat constructor; Z.div_mod_to_equations; lia|].
  apply Z.ltb_ge in E2.
  destruct (c <? 65536) eqn:E3;
    [apply Z.ltb_lt in E3; repeat constructor; Z.div_mod_to_equations; lia|].
  apply Z.ltb_ge in E3. repeat constructor; Z.div_mod_to_equations; lia.
Qed.

Lemma percentOctet_safe : forall b,
  0 <= b < 256 -> forallb isUrlSafe (percentOctet b) = true.
Proof.
  intros b Hb. unfold percentOctet.
  assert (H1 : isUnreserved (hexDigit (b / 16)) = true)
    by (apply hexDigit_unreserved; Z.div_mod_to_equations; lia).
  assert (H2 : isUnreserved (hexDigit (b mod 16)) = true)
    by (apply hexDigit_unreserved; Z.div_mod_to_equations; lia).
  cbn [forallb]. unfold isUrlSafe. rewrite H1, H2. reflexivity.
Qed.

Lemma octets_safe : forall bs,
  Forall (fun b => 0 <= b < 256) bs ->
  forallb isUrlSafe (flat_map percentOctet bs) = true.
Proof.
  induction 1 as [|b bs Hb _ IH]; [reflexivity|].
  change (flat_map percentOctet (b :: bs))
    with (percentOctet b ++ flat_map percentOctet bs).
  rewrite forallb_app, IH, percentOctet_safe by assumption.
  reflexivity.
Qed.

Lemma encodeURIComponent_safe : forall s e,
  encodeURIComponent s = Some e -> forallb isUrlSafe e = true.
Proof.
  induction s as [|c s IH]; simpl; intros e H.
  - inversion H. reflexivity.
  - destruct (isUnreserved c) eqn:Eu.
    + destruct (encodeURIComponent s) as [e'|]; [|discriminate].
      inversion H; subst. simpl. unfold isUrlSafe at 1. rewrite Eu. simpl.
      now apply IH.
    + destruct (isScalarValue c) eqn:Es; [|discriminate].
      destruct (encodeURIComponent s) as [e'|]; [|discriminate].
      inversion H; subst. rewrite forallb_app, (IH e' eq_refl), andb_true_r.
      apply octets_safe, utf8_octets, Es.
Qed.

Lemma encodeURIComponent_None : forall s,
  encodeURIComponent s = None <-> existsb isLoneSurrogate s = true.
Proof.
  induction s as [|c s IH]; simpl; [split; discriminate|].
  unfold isLoneSurrogate at 1.
  destruct (isUnreserved c); simpl.
  - destruct (encodeURIComponent s); simpl.
    + split; [discriminate|]. intro H. apply IH in H. discriminate.
    + split; [intros _; now apply IH | reflexivity].
  - destruct (isScalarValue c); simpl; [|tauto].
    destruct (encodeURIComponent s); simpl.
    + split; [discriminate|]. intro H. apply IH in H. discriminate.
    + split; [intros _; now apply IH | reflexivity].
Qed.

Lemma encodeURIComponent_plain : forall s,
  forallb isUnreserved s = true -> encodeURIComponent s = Some s.
Proof.
  induction s as [|c s IH]; simpl; intro H; [reflexivity|].
  apply andb_true_iff in H. destruct H as [Hc Hs]. now rewrite Hc, IH.
Qed.

Lemma encodeSegments_spec : forall segments encoded,
  encodeSegments segments = Some encoded ->
  map Some encoded = map encodeURIComponent segments.
Proof.
  induction segments as [|p ps IH]; simpl; intros encoded H.
  - inversion H. reflexivity.
  - destruct (encodeURIComponent p) as [e|] eqn:E; [|discriminate].
    destruct (encodeSegments ps) as [es|]; [|discriminate].
    inversion H; subst. simpl. now rewrite (IH es eq_refl).
Qed.

Lemma encodeSegments_safe : forall segments encoded,
  encodeSegments segments = Some encoded ->
  Forall (fun piece => forallb isUrlSafe piece = true) encoded.
Proof.
  induction segments as [|p ps IH]; simpl; intros encoded H.
  - inversion H. constructor.
  - destruct (encodeURIComponent p) as [e|] eqn:E; [|discriminate].
    destruct (encodeSegments ps) as [es|]; [|discriminate].
    inversion H; subst. constructor; [now apply encodeURIComponent_safe with p | now apply IH].
Qed.

Lemma encodeSegments_None : forall segments,
  encodeSegments segments = None
  <-> exists piece, In piece segments /\ existsb isLoneSurrogate piece = true.
Proof.
  induction segments as [|p ps IH]; simpl.
  - split; [discriminate | intros (piece & [] & _)].
  - destruct (encodeURIComponent p) as [e|] eqn:E.
    + destruct (encodeSegments ps) as [es|]; simpl.
      * split; [discriminate|]. intros (piece & [Hp|Hp] & Hbad).
        -- subst piece. apply encodeURIComponent_None in Hbad. congruence.
        -- assert (Hn : @None (list jsstring) = None) by reflexivity.
           destruct IH as [_ IH]. specialize (IH (ex_intro _ piece (conj Hp Hbad))).
           discriminate.
      * split; [|reflexivity]. intros _.
        destruct IH as [IH _]. destruct (IH eq_refl) as (piece & Hp & Hbad).
        exists piece. split; [now right | exact Hbad].
    + split; [|reflexivity]. intros _. exists p. split; [now left|].
      now apply encodeURIComponent_None.
Qed.

Lemma safe_not_slash : forall piece,
  forallb isUrlSafe piece = true -> Forall (fun c => c <> SLASH) piece.
Proof.
  intros piece H. apply Forall_forall. intros c Hc Heq. subst c.
  rewrite forallb_forall in H. specialize (H SLASH Hc). discriminate.
Qed.

(** X7: when [resolveVideoSrc] returns, the address is the prefix (for a
    path that starts with [videos/], nothing otherwise) followed by the
    segments of the path, each encoded on its own and joined by slashes
    again.  The encoded segments are made of unreserved characters and
    percent escapes only, so the address has exactly the segments of the
    path, and no character of a file name, such as [#] or [?], can end a
    segment or the path. *)
Theorem resolved_address_keeps_segments : forall prefix p address,
  resolveVideoSrc prefix p = Some address ->
  exists encoded,
    address = (if startsWith p (str "videos/") then prefix else [])
              ++ join [SLASH] encoded
    /\ map Some encoded = map encodeURIComponent (split SLASH p)
    /\ Forall (fun piece => forallb isUrlSafe piece = true) encoded
    /\ split SLASH (join [SLASH] encoded) = encoded
    /\ ~ In 0x23 (join [SLASH] encoded) /\ ~ In 0x3F (join [SLASH] encoded).
Proof.
  intros prefix p address H. unfold resolveVideoSrc in H.
  destruct p as [|c p].
  - simpl in H. inversion H; subst. exists [[]]. repeat split; auto.
  - simpl truthy in H. simpl negb in H. cbv iota in H.
    destruct (encodeSegments (split SLASH (c :: p))) as [encoded|] eqn:E;
      [|discriminate].
    pose proof (encodeSegments_safe _ _ E) as Hsafe.
    pose proof (encodeSegments_spec _ _ E) as Hspec.
    assert (Hne : encoded <> []).
    { intro H0. subst encoded.
      destruct (split SLASH (c :: p)) eqn:Es;
        [now destruct (split_not_nil SLASH (c :: p)) | discriminate]. }
    assert (Hsplit : split SLASH (join [SLASH] encoded) = encoded).
    { apply split_join; [exact Hne|].
      eapply Forall_impl; [|exact Hsafe]. intros piece. apply safe_not_slash. }
    assert (Hchars : forall x, In x (join [SLASH] encoded) ->
                       isUrlSafe x = true \/ x = SLASH).
    { intros x Hx. destruct (Z.eq_dec x SLASH) as [->|Hx']; [now right|]. left.
      destruct (proj2 (split_chars SLASH (join [SLASH] encoded) x) (conj Hx Hx'))
        as (piece & Hp & Hc).
      rewrite Hsplit in Hp. rewrite Forall_forall in Hsafe.
      specialize (Hsafe piece Hp). rewrite forallb_forall in Hsafe. now apply Hsafe. }
    exists encoded. split.
    + destruct (startsWith (c :: p) (str "videos/")); now inversion H.
    + repeat split; try assumption.
      * intro Hin. destruct (Hchars _ Hin); discriminate.
      * intro Hin. destruct (Hchars _ Hin); discriminate.
Qed.

Lemma resolved_address_keeps_segments_witness :
  resolveVideoSrc (str "https://cdn/") (str "videos/a b/c#1?.mp4")
  = Some (str "https://cdn/videos/a%20b/c%231%3F.mp4")
  /\ exists encoded,
       str "https://cdn/videos/a%20b/c%231%3F.mp4"
       = (if startsWith (str "videos/a b/c#1?.mp4") (str "videos/")
          then str "https://cdn/" else [])
         ++ join [SLASH] encoded
       /\ map Some encoded
          = map encodeURIComponent (split SLASH (str "videos/a b/c#1?.mp4"))
       /\ Forall (fun piece => forallb isUrlSafe piece = true) encoded
       /\ split SLASH (join [SLASH] encoded) = encoded
       /\ ~ In 0x23 (join [SLASH] encoded) /\ ~ In 0x3F (join [SLASH] encoded).
Proof.
  split; [reflexivity|].
  apply (resolved_address_keeps_segments (str "https://cdn/")
           (str "videos/a b/c#1?.mp4")).
  reflexivity.
Defined.

Lemma resolveVideoSrc_cases : forall prefix p,
  match resolveVideoSrc prefix p with
  | Some _ => existsb isLoneSurrogate p = false
  | None => existsb isLoneSurrogate p = true
  end.
Proof.
  intros prefix p. unfold resolveVideoSrc. destruct p as [|c p]; [reflexivity|].
  simpl truthy. simpl negb. cbv iota.
  destruct (encodeSegments (split SLASH (c :: p))) as [encoded|] eqn:E.
  - assert (Hok : existsb isLoneSurrogate (c :: p) = false).
    { destruct (existsb isLoneSurrogate (c :: p)) eqn:Hbad; [|reflexivity].
      apply existsb_exists in Hbad. destruct Hbad as (x & Hx & Hbad).
      assert (Hns : x <> SLASH) by (intro; subst x; discriminate).
      destruct (proj2 (split_chars SLASH (c :: p) x) (conj Hx Hns))
        as (piece & Hp & Hc).
      assert (Hnone : encodeSegments (split SLASH (c :: p)) = None).
      { apply encodeSegments_None. exists piece. split; [exact Hp|].
        apply existsb_exists. now exists x. }
      congruence. }
    destruct (startsWith (c :: p) (str "videos/")); exact Hok.
  - apply encodeSegments_None in E. destruct E as (piece & Hp & Hbad).
    apply existsb_exists in Hbad. destruct Hbad as (x & Hx & Hbad).
    apply existsb_exists. exists x. split; [|exact Hbad].
    apply (proj1 (split_chars SLASH (c :: p) x)). now exists piece.
Qed.

(** X8: [resolveVideoSrc] ends in a [URIError] exactly when the path holds
    a surrogate that is not part of a pair; for every other path, the empty
    one included, it returns an address. *)
Theorem resolveVideoSrc_throws_iff : forall prefix p,
  resolveVideoSrc prefix p = None <-> existsb isLoneSurrogate p = true.
Proof.
  intros prefix p. pose proof (resolveVideoSrc_cases prefix p) as H.
  destruct (resolveVideoSrc prefix p); split; congruence.
Qed.

Lemma startsWith_prefix : forall p s, startsWith (p ++ s) p = true.
Proof.
  induction p as [|c p IH]; intro s; [destruct s; reflexivity|].
  simpl. now rewrite Z.eqb_refl, IH.
Qed.

Lemma resolveVideoSrc_videos : forall prefix p,
  startsWith p (str "videos/") = true ->
  resolveVideoSrc prefix p = option_map (app prefix) (resolveVideoSrc [] p).
Proof.
  intros prefix p H. unfold resolveVideoSrc. rewrite H.
  destruct p as [|c p]; [discriminate|]. simpl truthy. simpl negb. cbv iota.
  destruct (encodeSegments (split SLASH (c :: p))); reflexivity.
Qed.

Lemma encodeSegments_plain : forall segments,
  Forall (fun piece => forallb isUnreserved piece = true) segments ->
  encodeSegments segments = Some segments.
Proof.
  induction 1 as [|p ps Hp _ IH]; [reflexivity|]. simpl.
  now rewrite (encodeURIComponent_plain p Hp), IH.
Qed.

(** X9: a path made of unreserved characters and slashes only is fetched
    as it is written, behind the prefix when it starts with [videos/]. *)
Theorem plain_path_is_kept : forall prefix p,
  forallb (fun c => isUnreserved c || (c =? SLASH)) p = true ->
  resolveVideoSrc prefix p
  = Some ((if startsWith p (str "videos/") then prefix else []) ++ p).
Proof.
  intros prefix p Hp. unfold resolveVideoSrc. destruct p as [|c p]; [reflexivity|].
  simpl truthy. simpl negb. cbv iota.
  assert (Hpieces : Forall (fun piece => forallb isUnreserved piece = true)
                           (split SLASH (c :: p))).
  { apply Forall_forall. intros piece Hin. apply forallb_forall. intros x Hx.
    destruct (proj1 (split_chars SLASH (c :: p) x) (ex_intro _ piece (conj Hin Hx)))
      as [Hxp Hns].
    rewrite forallb_forall in Hp. specialize (Hp x Hxp).
    apply orb_true_iff in Hp. destruct Hp as [Hu|Hs]; [exact Hu|].
    apply Z.eqb_eq in Hs. contradiction. }
  rewrite (encodeSegments_plain _ Hpieces). cbv zeta. rewrite join_split.
  destruct (startsWith (c :: p) (str "videos/")); reflexivity.
Qed.

Lemma plain_path_is_kept_witness :
  resolveVideoSrc (str "https://cdn/") (str "videos/Intro/lesson-1.mp4")
  = Some (str "https://cdn/videos/Intro/lesson-1.mp4").
Proof.
  apply (plain_path_is_kept (str "https://cdn/") (str "videos/Intro/lesson-1.mp4")).
  reflexivity.
Defined.

End UrlFacts.

(** ** The viewer: the tree and the selection *)
Module TreeFacts.
Import JS Manifest Tree Notions JSFacts.

Lemma addAll_has : forall dirs s p,
  Set_has (addAll dirs s) p = Set_has s p || (Set_has dirs p && truthy p).
Proof.
  unfold addAll. induction dirs as [|d dirs IH]; simpl; intros s p.
  - now rewrite orb_false_r.
  - rewrite IH. destruct (truthy d) eqn:Ed.
    + rewrite Set_has_add. destruct (str_eqb d p) eqn:E.
      * apply str_eqb_eq in E. subst. rewrite Ed.
        destruct (Set_has s p), (Set_has dirs p); reflexivity.
      * simpl. now rewrite orb_false_r.
    + destruct (str_eqb d p) eqn:E; simpl; [|reflexivity].
      apply str_eqb_eq in E. subst. rewrite Ed. now rewrite !andb_false_r.
Qed.

(** *** The equations of the recursive functions *)

Lemma findFirstVideo_nil : forall nm p c crumbs dirs,
  findFirstVideo (Directory nm p c []) crumbs dirs = None.
Proof. reflexivity. Qed.

Lemma findFirstVideo_cons_video : forall nm p c a b sz k cs crumbs dirs,
  findFirstVideo (Directory nm p c (Video a b sz k :: cs)) crumbs dirs
  = Some {| node := Video a b sz k;
            breadcrumbs := crumbs ++ [a];
            directories := dirs |}.
Proof. reflexivity. Qed.

Lemma findFirstVideo_cons_dir : forall nm p c a b k ds cs crumbs dirs,
  findFirstVideo (Directory nm p c (Directory a b k ds :: cs)) crumbs dirs
  = match findFirstVideo (Directory a b k ds) (crumbs ++ [a]) (dirs ++ [b]) with
    | Some result => Some result
    | None => findFirstVideo (Directory nm p c cs) crumbs dirs
    end.
Proof. reflexivity. Qed.

Lemma createDirectoryGroup_eq : forall completed st n crumbs depth dirs,
  createDirectoryGroup completed st n crumbs depth dirs
  = DetailsEl (path n)
      ((depth <? 1) || Set_has (openPaths st) (path n))
      (name n) (videoCount n)
      (map (childElement completed st crumbs depth (dirs ++ [path n]))
           (children n)).
Proof. intros completed st [nm p c cs|nm p sz c] crumbs depth dirs; reflexivity. Qed.

Lemma renderTree_content : forall completed st category,
  at_index (categories st) (selectedCategoryIndex st) = Some category ->
  contentOf (renderTree completed st)
  = map (childElement completed st [name category] (-1) []) (children category).
Proof.
  intros completed st category H. unfold renderTree. rewrite H.
  destruct category as [nm p c [|child cs]|nm p sz c]; reflexivity.
Qed.

Lemma hd_error_app : forall (A : Type) (a b : list A),
  hd_error (a ++ b)
  = match hd_error a with Some x => Some x | None => hd_error b end.
Proof. intros A [|x a] b; reflexivity. Qed.

Lemma flat_map_cons : forall (A B : Type) (f : A -> list B) x l,
  flat_map f (x :: l) = f x ++ flat_map f l.
Proof. reflexivity. Qed.

(** *** The first video *)

Lemma findFirstVideo_first : forall n crumbs dirs,
  option_map node (findFirstVideo n crumbs dirs) = hd_error (videoNodes n).
Proof.
  induction n as [nm p sz c|nm p c cs Hcs] using ViewerFacts.ManifestNode_tree_ind;
    intros crumbs dirs; [reflexivity|].
  induction Hcs as [|child cs Hchild _ IH]; [reflexivity|].
  destruct child as [a b k ds|a b sz k]; [|reflexivity].
  rewrite findFirstVideo_cons_dir.
  change (videoNodes (Directory nm p c (Directory a b k ds :: cs)))
    with (videoNodes (Directory a b k ds) ++ videoNodes (Directory nm p c cs)).
  rewrite hd_error_app, <- (Hchild (crumbs ++ [a]) (dirs ++ [b])), <- IH.
  destruct (findFirstVideo (Directory a b k ds) (crumbs ++ [a]) (dirs ++ [b]));
    reflexivity.
Qed.

(** X10: [findFirstVideo] returns the first Video node of the tree, in the
    order in which the manifest lists the children, whatever the folders
    before it hold, and [null] only for a tree without a video. *)
Theorem findFirstVideo_is_first_video : forall n crumbs dirs,
  option_map node (findFirstVideo n crumbs dirs) = hd_error (videoNodes n)
  /\ (findFirstVideo n crumbs dirs = None <-> videoNodes n = []).
Proof.
  intros n crumbs dirs. pose proof (findFirstVideo_first n crumbs dirs) as H.
  split; [exact H|].
  destruct (findFirstVideo n crumbs dirs), (videoNodes n); simpl in H;
    split; intro; congruence.
Qed.

(** *** The leaves of the tree *)

Lemma children_leaves : forall completed st n crumbs depth next,
  map (fun e => (leafPath e, leafComplete e, leafText e))
      (flat_map leaves (map (childElement completed st crumbs depth next) (children n)))
  = map (fun v => (path v, Set_has completed (path v), stripMp4 (name v)))
        (flat_map videoNodes (children n)).
Proof.
  intros completed st.
  induction n as [nm p sz c|nm p c cs Hcs] using ViewerFacts.ManifestNode_tree_ind;
    intros crumbs depth next; [reflexivity|].
  simpl children. induction Hcs as [|child cs Hchild _ IH]; [reflexivity|].
  simpl map at 2. simpl flat_map. rewrite !map_app, IH. f_equal.
  destruct child as [a b k ds|a b sz k]; [|reflexivity].
  unfold childElement. rewrite createDirectoryGroup_eq. simpl leaves.
  apply Hchild.
Qed.

(** X11: the tree of the selected category has one leaf for each Video
    node of the category, in the order of the manifest; the leaf carries
    the path of the video, is checked exactly when the path is in the
    completed set, and shows the name without its [.mp4]. *)
Theorem tree_lists_videos_of_category : forall completed st category,
  at_index (categories st) (selectedCategoryIndex st) = Some category ->
  isDirectory category = true ->
  map (fun e => (leafPath e, leafComplete e, leafText e))
      (flat_map leaves (contentOf (renderTree completed st)))
  = map (fun v => (path v, Set_has completed (path v), stripMp4 (name v)))
        (videoNodes category).
Proof.
  intros completed st category Hat Hdir.
  rewrite (renderTree_content completed st category Hat), children_leaves.
  destruct category; [reflexivity | discriminate].
Qed.

Lemma tree_lists_videos_of_category_witness :
  let st := selectCategory 0 sampleTreeState in
  let completed := [str "videos/Basics/02 intro/world.MP4"] in
  map (fun e => (leafPath e, leafComplete e, leafText e))
      (flat_map leaves (contentOf (renderTree completed st)))
  = [ (str "videos/Basics/02 intro/part a/hello.mp4", false, str "hello");
      (str "videos/Basics/02 intro/world.MP4", true, str "world") ].
Proof.
  intros st completed.
  apply (tree_lists_videos_of_category completed st sampleCategory);
    reflexivity.
Defined.

Lemma children_first_click : forall completed st n crumbs depth next,
  isDirectory n = true ->
  hd_error (flat_map clicks (map (childElement completed st crumbs depth next)
                                 (children n)))
  = findFirstVideo n crumbs next.
Proof.
  intros completed st.
  induction n as [nm p sz c|nm p c cs Hcs] using ViewerFacts.ManifestNode_tree_ind;
    intros crumbs depth next Hdir; [discriminate|].
  simpl children. clear Hdir.
  induction Hcs as [|child cs Hchild _ IH]; [reflexivity|].
  destruct child as [a b k ds|a b sz k]; [|reflexivity].
  rewrite findFirstVideo_cons_dir, map_cons, flat_map_cons, hd_error_app, IH.
  unfold childElement at 1. rewrite createDirectoryGroup_eq.
  cbn [clicks path children name].
  pose proof (Hchild (crumbs ++ [a]) (depth + 1) (next ++ [b]) eq_refl) as Hc.
  cbn [children] in Hc. rewrite Hc. reflexivity.
Qed.

(** X12: the video that [selectCategory] selects is the one that a click
    on the first leaf of the tree of that category selects, with the same
    breadcrumbs and the same folders to open. *)
Theorem first_leaf_is_the_selection : forall completed st category,
  at_index (categories st) (selectedCategoryIndex st) = Some category ->
  isDirectory category = true ->
  hd_error (flat_map clicks (contentOf (renderTree completed st)))
  = findFirstVideo category [name category] [].
Proof.
  intros completed st category Hat Hdir.
  rewrite (renderTree_content completed st category Hat).
  now apply children_first_click.
Qed.

Lemma first_leaf_is_the_selection_witness :
  let st := selectCategory 0 sampleTreeState in
  hd_error (flat_map clicks (contentOf (renderTree Set_empty st)))
  = findFirstVideo sampleCategory [name sampleCategory] [].
Proof.
  intro st.
  apply (first_leaf_is_the_selection Set_empty st sampleCategory); reflexivity.
Defined.

(** *** The breadcrumbs and the folders of a selection *)

Lemma children_routes : forall completed st n crumbs depth next s,
  In s (flat_map clicks (map (childElement completed st crumbs depth next)
                             (children n))) ->
  exists route,
    isRoute n route (node s)
    /\ isDirectory (node s) = false
    /\ breadcrumbs s = crumbs ++ map name route ++ [name (node s)]
    /\ directories s = next ++ map path route.
Proof.
  intros completed st.
  induction n as [nm p sz c|nm p c cs Hcs] using ViewerFacts.ManifestNode_tree_ind;
    intros crumbs depth next s Hin; [destruct Hin|].
  cbn [children] in Hin. apply in_flat_map in Hin. destruct Hin as (e & He & Hs).
  apply in_map_iff in He. destruct He as (child & <- & Hchild).
  rewrite Forall_forall in Hcs. specialize (Hcs child Hchild).
  destruct child as [a b k ds|a b sz k].
  - unfold childElement in Hs. rewrite createDirectoryGroup_eq in Hs.
    cbn [clicks path children name] in Hs.
    destruct (Hcs _ _ _ _ Hs) as (route & Hr & Hv & Hb & Hd).
    exists (Directory a b k ds :: route). repeat split; try assumption.
    + rewrite Hb, <- app_assoc. reflexivity.
    + rewrite Hd, <- app_assoc. reflexivity.
  - destruct Hs as [<-|[]]. exists []. cbn. repeat split; try assumption.
    now rewrite app_nil_r.
Qed.

Lemma children_shown : forall completed0 st0 completed st n crumbs depth next s,
  In s (flat_map clicks (map (childElement completed0 st0 crumbs depth next)
                             (children n))) ->
  Forall (fun p => Set_has (openPaths st) p = true) (directories s) ->
  In (createVideoLeaf completed st (node s) (removelast (breadcrumbs s))
                      (directories s))
     (flat_map shownLeaves (map (childElement completed st crumbs depth next)
                                (children n))).
Proof.
  intros completed0 st0 completed st.
  induction n as [nm p sz c|nm p c cs Hcs] using ViewerFacts.ManifestNode_tree_ind;
    intros crumbs depth next s Hin Hopen; [destruct Hin|].
  cbn [children] in *. apply in_flat_map in Hin. destruct Hin as (e & He & Hs).
  apply in_map_iff in He. destruct He as (child & <- & Hchild).
  rewrite Forall_forall in Hcs. specialize (Hcs child Hchild).
  apply in_flat_map. exists (childElement completed st crumbs depth next child).
  split; [now apply in_map|].
  destruct child as [a b k ds|a b sz k].
  - unfold childElement in *. rewrite createDirectoryGroup_eq in *.
    cbn [clicks shownLeaves path children name] in *.
    destruct (children_routes _ _ (Directory a b k ds) _ _ _ _ Hs)
      as (route & _ & _ & _ & Hd).
    assert (Hb : Set_has (openPaths st) b = true).
    { rewrite Forall_forall in Hopen. apply Hopen. rewrite Hd.
      apply in_or_app. left. apply in_or_app. right. now left. }
    rewrite Hb, orb_true_r. now apply Hcs.
  - destruct Hs as [<-|[]]. cbn. left. now rewrite removelast_last.
Qed.

Lemma hd_error_In : forall (A : Type) (l : list A) x, hd_error l = Some x -> In x l.
Proof. intros A [|y l] x H; [discriminate|]. inversion H. now left. Qed.

Lemma rendered_click : forall completed st s,
  In s (flat_map clicks (contentOf (renderTree completed st))) ->
  exists category,
    at_index (categories st) (selectedCategoryIndex st) = Some category
    /\ In s (flat_map clicks (map (childElement completed st [name category] (-1) [])
                                  (children category))).
Proof.
  intros completed st s Hin.
  destruct (at_index (categories st) (selectedCategoryIndex st)) as [category|] eqn:E.
  - exists category. split; [reflexivity|].
    now rewrite <- (renderTree_content completed st category E).
  - unfold renderTree in Hin. rewrite E in Hin. destruct Hin.
Qed.

(** X13: the selection that the button of a leaf applies names the way to
    its video: the breadcrumbs are the name of the category, the names of
    the folders passed on the way down, and the name of the video; the
    folders to open are the paths of these same folders, without the
    category. *)
Theorem selection_follows_route : forall completed st s,
  In s (flat_map clicks (contentOf (renderTree completed st))) ->
  exists category route,
    at_index (categories st) (selectedCategoryIndex st) = Some category
    /\ isRoute category route (node s)
    /\ isDirectory (node s) = false
    /\ breadcrumbs s = name category :: map name route ++ [name (node s)]
    /\ directories s = map path route.
Proof.
  intros completed st s Hin.
  destruct (rendered_click completed st s Hin) as (category & Hat & Hs).
  destruct (children_routes _ _ _ _ _ _ _ Hs) as (route & Hr & Hv & Hb & Hd).
  exists category, route. repeat split; assumption.
Qed.

Lemma selection_follows_route_witness :
  let st := selectCategory 0 sampleTreeState in
  let s := {| node := Video (str "world.MP4")
                            (str "videos/Basics/02 intro/world.MP4") 5 1;
              breadcrumbs := [str "Basics"; str "02 intro"; str "world.MP4"];
              directories := [str "videos/Basics/02 intro"] |} in
  In s (flat_map clicks (contentOf (renderTree Set_empty st)))
  /\ exists category route,
       at_index (categories st) (selectedCategoryIndex st) = Some category
       /\ isRoute category route (node s)
       /\ isDirectory (node s) = false
       /\ breadcrumbs s = name category :: map name route ++ [name (node s)]
       /\ directories s = map path route.
Proof.
  intros st s.
  assert (Hin : In s (flat_map clicks (contentOf (renderTree Set_empty st))))
    by (right; left; reflexivity).
  split; [exact Hin|].
  exact (selection_follows_route Set_empty st s Hin).
Defined.

Lemma created_leaf : forall completed st s crumbs,
  breadcrumbs s = crumbs ++ [name (node s)] ->
  selectedVideo st = Some s ->
  let leaf := createVideoLeaf completed st (node s) (removelast (breadcrumbs s))
                              (directories s) in
  clicks leaf = [s] /\ leafPlaying leaf = true /\ leafPath leaf = path (node s).
Proof.
  intros completed st [v b d] crumbs Hb Hsel. cbn in *. subst b.
  rewrite removelast_last, Hsel. cbn. rewrite str_eqb_refl. repeat split.
Qed.

Lemma at_index_Some : forall (A : Type) (l : list A) index x,
  at_index l index = Some x ->
  (index <? 0) || (index >=? Z.of_nat (List.length l)) = false.
Proof.
  intros A l index x H. unfold at_index in H.
  destruct (index <? 0) eqn:E; [discriminate|]. simpl.
  assert (Hlt : (Z.to_nat index < List.length l)%nat).
  { apply nth_error_Some. congruence. }
  apply Z.ltb_ge in E. rewrite Z.geb_leb. apply Z.leb_gt. lia.
Qed.

Lemma selectCategory_eq : forall st index category,
  at_index (categories st) index = Some category ->
  selectCategory index st
  = {| categories := categories st;
       selectedCategoryIndex := index;
       selectedVideo := findFirstVideo category [name category] [];
       openPaths := match findFirstVideo category [name category] [] with
                    | Some s => addAll (directories s) Set_empty
                    | None => Set_empty
                    end |}.
Proof.
  intros st index category H. unfold selectCategory.
  now rewrite (at_index_Some _ _ _ _ H), H.
Qed.

(** X14: after a click on the button of a leaf whose folders all have a
    path, the video of the leaf is the selected one, and the tree that is
    drawn next shows its leaf, inside open folders only, marked as playing. *)
Theorem clicked_leaf_is_shown : forall completed st s,
  In s (flat_map clicks (contentOf (renderTree completed st))) ->
  Forall (fun p => truthy p = true) (directories s) ->
  let st' := applyVideoSelection (Some s) st in
  selectedVideo st' = Some s
  /\ exists leaf,
       In leaf (flat_map shownLeaves (contentOf (renderTree completed st')))
       /\ clicks leaf = [s] /\ leafPlaying leaf = true
       /\ leafPath leaf = path (node s).
Proof.
  intros completed st s Hin Hpaths st'. split; [reflexivity|].
  destruct (rendered_click completed st s Hin) as (category & Hat & Hs).
  destruct (children_routes _ _ _ _ _ _ _ Hs) as (route & _ & _ & Hb & _).
  exists (createVideoLeaf completed st' (node s) (removelast (breadcrumbs s))
                          (directories s)).
  split.
  - rewrite (renderTree_content completed st' category Hat).
    apply children_shown with completed st; [exact Hs|].
    apply Forall_forall. intros p Hp. subst st'. cbn [applyVideoSelection openPaths].
    rewrite addAll_has. rewrite Forall_forall in Hpaths.
    rewrite (Hpaths p Hp), (proj2 (Set_has_In _ _) Hp). now rewrite orb_true_r.
  - apply created_leaf with ([name category] ++ map name route); [|reflexivity].
    rewrite Hb, <- app_assoc. reflexivity.
Qed.

Lemma clicked_leaf_is_shown_witness :
  let st := selectCategory 0 sampleTreeState in
  let s := {| node := Video (str "world.MP4")
                            (str "videos/Basics/02 intro/world.MP4") 5 1;
              breadcrumbs := [str "Basics"; str "02 intro"; str "world.MP4"];
              directories := [str "videos/Basics/02 intro"] |} in
  let st' := applyVideoSelection (Some s) st in
  selectedVideo st' = Some s
  /\ exists leaf,
       In leaf (flat_map shownLeaves (contentOf (renderTree Set_empty st')))
       /\ clicks leaf = [s] /\ leafPlaying leaf = true
       /\ leafPath leaf = path (node s).
Proof.
  intros st s.
  apply (clicked_leaf_is_shown Set_empty st s).
  - right. left. reflexivity.
  - repeat constructor.
Defined.

(** X15: [selectCategory] on a folder category with a video selects the
    first video; if the folders on the way to it all have a path, the open
    set becomes these folders and no others, whatever was open before, and
    the tree shows the leaf of the video, marked as playing. *)
Theorem selected_category_shows_first_video : forall completed st index category s,
  at_index (categories st) index = Some category ->
  isDirectory category = true ->
  findFirstVideo category [name category] [] = Some s ->
  Forall (fun p => truthy p = true) (directories s) ->
  let st' := selectCategory index st in
  selectedVideo st' = Some s
  /\ (forall p, Set_has (openPaths st') p = Set_has (directories s) p)
  /\ exists leaf,
       In leaf (flat_map shownLeaves (contentOf (renderTree completed st')))
       /\ clicks leaf = [s] /\ leafPlaying leaf = true
       /\ leafPath leaf = path (node s).
Proof.
  intros completed st index category s Hat Hdir Hfirst Hpaths st'.
  assert (Hst : st' = {| categories := categories st;
                         selectedCategoryIndex := index;
                         selectedVideo := Some s;
                         openPaths := addAll (directories s) Set_empty |}).
  { subst st'. rewrite (selectCategory_eq st index category Hat), Hfirst.
    reflexivity. }
  assert (Hopen : forall p, Set_has (openPaths st') p = Set_has (directories s) p).
  { intro p. rewrite Hst. cbn [openPaths]. rewrite addAll_has. simpl.
    destruct (Set_has (directories s) p) eqn:E; [|reflexivity].
    apply Set_has_In in E. rewrite Forall_forall in Hpaths. now rewrite Hpaths. }
  assert (Hin : In s (flat_map clicks
                        (map (childElement completed st [name category] (-1) [])
                             (children category)))).
  { apply hd_error_In. rewrite <- Hfirst. now apply children_first_click. }
  destruct (children_routes _ _ _ _ _ _ _ Hin) as (route & _ & _ & Hb & _).
  split; [now rewrite Hst|]. split; [exact Hopen|].
  exists (createVideoLeaf completed st' (node s) (removelast (breadcrumbs s))
                          (directories s)).
  split.
  - assert (Hat' : at_index (categories st') (selectedCategoryIndex st')
                   = Some category) by (rewrite Hst; exact Hat).
    rewrite (renderTree_content completed st' category Hat').
    apply children_shown with completed st; [exact Hin|].
    apply Forall_forall. intros p Hp. rewrite Hopen. now apply Set_has_In.
  - apply created_leaf with ([name category] ++ map name route).
    + rewrite Hb, <- app_assoc. reflexivity.
    + now rewrite Hst.
Qed.

Lemma selected_category_shows_first_video_witness :
  let s := {| node := Video (str "hello.mp4")
                            (str "videos/Basics/02 intro/part a/hello.mp4") 2048 1;
              breadcrumbs := [str "Basics"; str "02 intro"; str "part a";
                              str "hello.mp4"];
              directories := [str "videos/Basics/02 intro";
                              str "videos/Basics/02 intro/part a"] |} in
  let st' := selectCategory 0 sampleTreeState in
  selectedVideo st' = Some s
  /\ (forall p, Set_has (openPaths st') p = Set_has (directories s) p)
  /\ exists leaf,
       In leaf (flat_map shownLeaves (contentOf (renderTree Set_empty st')))
       /\ clicks leaf = [s] /\ leafPlaying leaf = true
       /\ leafPath leaf = path (node s).
Proof.
  intro s.
  apply (selected_category_shows_first_video Set_empty sampleTreeState 0
           sampleCategory s).
  - reflexivity.
  - reflexivity.
  - reflexivity.
  - repeat constructor.
Defined.

(** X16: a category that is a video itself, as a file that lies in
    [videos] directly gives one, is played when it is selected, but the
    tree shows the notice of a category without videos, and the player
    names no category above the title. *)
Theorem video_category_plays_without_tree :
  forall completed prefix player st index category,
  at_index (categories st) index = Some category ->
  isDirectory category = false ->
  let st' := selectCategory index st in
  selectedVideo st'
  = Some {| node := category; breadcrumbs := [name category]; directories := [] |}
  /\ openPaths st' = Set_empty
  /\ renderTree completed st'
     = TreeContainer (name category)
         (Viewer.decimal (videoCount category) ++ VIDEOS_SUFFIX) None
  /\ playerTitle (fst (updatePlayer prefix st' player)) = stripMp4 (name category)
  /\ playerBreadcrumb (fst (updatePlayer prefix st' player)) = MSG_NO_CATEGORY.
Proof.
  intros completed prefix player st index category Hat Hdir st'.
  destruct category as [nm p c cs|nm p sz c]; [discriminate|].
  subst st'. rewrite (selectCategory_eq st index _ Hat). cbn.
  repeat split.
  - unfold renderTree. cbn. rewrite Hat. reflexivity.
  - unfold updatePlayer. cbn.
    destruct (Url.resolveVideoSrc prefix p); reflexivity.
  - unfold updatePlayer. cbn.
    destruct (Url.resolveVideoSrc prefix p); reflexivity.
Qed.

Lemma video_category_plays_without_tree_witness :
  let st' := selectCategory 0 looseTreeState in
  selectedVideo st'
  = Some {| node := sampleLooseVideo;
            breadcrumbs := [name sampleLooseVideo];
            directories := [] |}
  /\ openPaths st' = Set_empty
  /\ renderTree Set_empty st'
     = TreeContainer (name sampleLooseVideo)
         (Viewer.decimal (videoCount sampleLooseVideo) ++ VIDEOS_SUFFIX) None
  /\ playerTitle (fst (updatePlayer [] st' emptyPlayer))
     = stripMp4 (name sampleLooseVideo)
  /\ playerBreadcrumb (fst (updatePlayer [] st' emptyPlayer)) = MSG_NO_CATEGORY.
Proof.
  apply (video_category_plays_without_tree Set_empty [] emptyPlayer
           looseTreeState 0 sampleLooseVideo); reflexivity.
Defined.

(** *** The player *)

Lemma join_truthy : forall sep p rest,
  truthy p = true -> truthy (join sep (p :: rest)) = true.
Proof. intros sep [|c p] rest H; [discriminate|]. destruct rest; reflexivity. Qed.

(** X17: with a video selected, [updatePlayer] shows its name without the
    [.mp4] as the title.  It ends in a [URIError] exactly when the path of
    the video holds a surrogate that is not part of a pair; the source of
    the player then stays what it was, under the new title, and is the
    address of the video otherwise. *)
Theorem player_after_selection : forall prefix st player s,
  selectedVideo st = Some s ->
  let result := updatePlayer prefix st player in
  playerTitle (fst result) = stripMp4 (name (node s))
  /\ snd result = existsb isLoneSurrogate (path (node s))
  /\ playerSrc (fst result)
     = if existsb isLoneSurrogate (path (node s)) then playerSrc player
       else Url.resolveVideoSrc prefix (path (node s)).
Proof.
  intros prefix st player s Hsel result. subst result. unfold updatePlayer.
  rewrite Hsel.
  pose proof (UrlFacts.resolveVideoSrc_cases prefix (path (node s))) as H.
  destruct (Url.resolveVideoSrc prefix (path (node s))); rewrite H;
    repeat split.
Qed.

Lemma player_after_selection_witness :
  let st := selectCategory 0 sampleTreeState in
  let result := updatePlayer CDN st emptyPlayer in
  playerTitle (fst result) = str "hello"
  /\ snd result = false
  /\ playerSrc (fst result)
     = Some (CDN ++ str "videos/Basics/02%20intro/part%20a/hello.mp4").
Proof.
  intros st.
  apply (player_after_selection CDN st emptyPlayer
           {| node := Video (str "hello.mp4")
                            (str "videos/Basics/02 intro/part a/hello.mp4") 2048 1;
              breadcrumbs := [str "Basics"; str "02 intro"; str "part a";
                              str "hello.mp4"];
              directories := [str "videos/Basics/02 intro";
                              str "videos/Basics/02 intro/part a"] |}).
  reflexivity.
Defined.

(** X18: after a click on a leaf of the tree of a category with a name,
    the player shows, above the title, the name of the category and the
    names of the folders on the way to the video, joined by [ › ]. *)
Theorem player_names_the_way : forall completed prefix player st s,
  In s (flat_map clicks (contentOf (renderTree completed st))) ->
  exists category route,
    at_index (categories st) (selectedCategoryIndex st) = Some category
    /\ isRoute category route (node s)
    /\ (truthy (name category) = true ->
        playerBreadcrumb
          (fst (updatePlayer prefix (applyVideoSelection (Some s) st) player))
        = join CRUMB_SEPARATOR (name category :: map name route)).
Proof.
  intros completed prefix player st s Hin.
  destruct (rendered_click completed st s Hin) as (category & Hat & Hs).
  destruct (children_routes _ _ _ _ _ _ _ Hs) as (route & Hr & _ & Hb & _).
  exists category, route. split; [exact Hat|]. split; [exact Hr|].
  intro Hname. unfold updatePlayer. cbn [applyVideoSelection selectedVideo].
  assert (Hcrumbs : removelast (breadcrumbs s) = name category :: map name route).
  { rewrite Hb, app_assoc, removelast_last. reflexivity. }
  rewrite Hcrumbs, (join_truthy CRUMB_SEPARATOR _ _ Hname).
  destruct (Url.resolveVideoSrc prefix (path (node s))); reflexivity.
Qed.

Lemma player_names_the_way_witness :
  let st := selectCategory 0 sampleTreeState in
  let s := {| node := Video (str "world.MP4")
                            (str "videos/Basics/02 intro/world.MP4") 5 1;
              breadcrumbs := [str "Basics"; str "02 intro"; str "world.MP4"];
              directories := [str "videos/Basics/02 intro"] |} in
  In s (flat_map clicks (contentOf (renderTree Set_empty st)))
  /\ exists category route,
       at_index (categories st) (selectedCategoryIndex st) = Some category
       /\ isRoute category route (node s)
       /\ (truthy (name category) = true ->
           playerBreadcrumb
             (fst (updatePlayer [] (applyVideoSelection (Some s) st) emptyPlayer))
           = join CRUMB_SEPARATOR (name category :: map name route)).
Proof.
  intros st s.
  assert (Hin : In s (flat_map clicks (contentOf (renderTree Set_empty st))))
    by (right; left; reflexivity).
  split; [exact Hin|].
  exact (player_names_the_way Set_empty [] emptyPlayer st s Hin).
Defined.

(** *** What a session keeps true *)

Lemma route_below : forall route n v,
  isRoute n route v -> isDirectory v = false ->
  incl (map path route) (flat_map directoryPaths (children n))
  /\ In v (flat_map videoNodes (children n)).
Proof.
  induction route as [|r rest IH]; intros n v Hr Hv.
  - split; [intros p []|]. cbn in Hr. apply in_flat_map. exists v.
    split; [exact Hr|]. destruct v; [discriminate | now left].
  - destruct Hr as (Hin & Hdir & Hrest).
    destruct (IH r v Hrest Hv) as [Hpaths Hvideo].
    destruct r as [a b k ds|]; [|discriminate]. cbn [children] in *. split.
    + intros p Hp. apply in_flat_map. exists (Directory a b k ds).
      split; [exact Hin|]. destruct Hp as [<-|Hp]; [now left|].
      right. now apply Hpaths.
    + apply in_flat_map. exists (Directory a b k ds). split; assumption.
Qed.

Lemma children_folders : forall completed st n crumbs depth next p,
  In p (flat_map folders (map (childElement completed st crumbs depth next)
                              (children n))) ->
  In p (flat_map directoryPaths (children n)).
Proof.
  intros completed st.
  induction n as [nm q sz c|nm q c cs Hcs] using ViewerFacts.ManifestNode_tree_ind;
    intros crumbs depth next p Hin; [destruct Hin|].
  cbn [children] in *. apply in_flat_map in Hin. destruct Hin as (e & He & Hp).
  apply in_map_iff in He. destruct He as (child & <- & Hchild).
  rewrite Forall_forall in Hcs. specialize (Hcs child Hchild).
  apply in_flat_map. exists child. split; [exact Hchild|].
  destruct child as [a b k ds|a b sz k]; [|destruct Hp].
  unfold childElement in Hp. rewrite createDirectoryGroup_eq in Hp.
  cbn [folders path children name] in Hp.
  destruct Hp as [<-|Hp]; [now left|]. right. now apply Hcs in Hp.
Qed.

Lemma at_index_In : forall (A : Type) (l : list A) index x,
  at_index l index = Some x -> In x l.
Proof.
  intros A l index x H. unfold at_index in H.
  destruct (index <? 0); [discriminate|]. now apply nth_error_In in H.
Qed.

Lemma category_folders : forall cats category p,
  In category cats ->
  In p (flat_map directoryPaths (children category)) ->
  In p (flat_map directoryPaths cats).
Proof.
  intros cats category p Hc Hp. apply in_flat_map. exists category.
  split; [exact Hc|]. destruct category; [now right | destruct Hp].
Qed.

Lemma category_videos : forall category v,
  In v (flat_map videoNodes (children category)) -> In v (videoNodes category).
Proof. intros [nm p c cs|nm p sz c] v H; [exact H | destruct H]. Qed.

Lemma selectCategory_outside : forall st index,
  at_index (categories st) index = None -> selectCategory index st = st.
Proof.
  intros st index H. unfold selectCategory. rewrite H.
  destruct ((index <? 0) || (index >=? Z.of_nat (List.length (categories st))));
    reflexivity.
Qed.

Lemma first_video_below : forall category s,
  findFirstVideo category [name category] [] = Some s ->
  In (node s) (videoNodes category)
  /\ incl (directories s) (flat_map directoryPaths (children category)).
Proof.
  intros category s H. split.
  - apply hd_error_In. rewrite <- findFirstVideo_first with (crumbs := [name category])
                                                           (dirs := []).
    now rewrite H.
  - destruct category as [nm q c cs|nm q sz c].
    + assert (Hin : In s (flat_map clicks
                (map (childElement Set_empty initialTreeState [nm] (-1) [])
                     (children (Directory nm q c cs))))).
      { apply hd_error_In. rewrite <- H. now apply children_first_click. }
      destruct (children_routes _ _ _ _ _ _ _ Hin) as (route & Hr & Hv & _ & Hd).
      rewrite Hd. apply (route_below route _ _ Hr Hv).
    + inversion H; subst. intros x [].
Qed.

(** X19: through every sequence of clicks on categories, clicks on leaves
    of the tree and toggles of its folders, the categories stay the ones
    that were loaded, the open set holds paths of folders of the manifest
    only and never the empty string, and the selected video is a video of
    the selected category. *)
Theorem session_keeps_tree_consistent : forall cats st,
  reachable cats st ->
  categories st = cats
  /\ (forall p, Set_has (openPaths st) p = true ->
        p <> [] /\ In p (flat_map directoryPaths cats))
  /\ (forall s, selectedVideo st = Some s ->
        exists category,
          at_index cats (selectedCategoryIndex st) = Some category
          /\ In (node s) (videoNodes category)).
Proof.
  intros cats st Hreach.
  induction Hreach as [|st ev _ (Hcats & Hopen & Hsel) Hev].
  - split; [reflexivity|]. split; [discriminate | discriminate].
  - destruct ev as [index|s|dirPath isOpen]; cbn [treeStep].
    + (* a category button *)
      destruct (at_index (categories st) index) as [category|] eqn:Hat.
      * rewrite (selectCategory_eq st index category Hat).
        cbn [categories openPaths selectedVideo selectedCategoryIndex].
        split; [exact Hcats|].
        assert (Hc : In category cats)
          by (rewrite <- Hcats; exact (at_index_In _ _ _ _ Hat)).
        split.
        -- intros p Hp.
           destruct (findFirstVideo category [name category] []) as [s|] eqn:Hf;
             [|discriminate].
           rewrite addAll_has in Hp. simpl in Hp.
           apply andb_true_iff in Hp. destruct Hp as [Hin Ht].
           split; [intro; subst p; discriminate|].
           apply category_folders with category; [exact Hc|].
           apply (proj2 (first_video_below category s Hf)).
           now apply Set_has_In.
        -- intros s Hs. exists category. split; [now rewrite <- Hcats|].
           apply (proj1 (first_video_below category s Hs)).
      * rewrite (selectCategory_outside st index Hat).
        split; [exact Hcats | split; [exact Hopen | exact Hsel]].
    + (* the button of a leaf *)
      destruct Hev as [completed Hin].
      destruct (rendered_click completed st s Hin) as (category & Hat & Hs).
      destruct (children_routes _ _ _ _ _ _ _ Hs) as (route & Hr & Hv & _ & Hd).
      destruct (route_below route _ _ Hr Hv) as [Hpaths Hvideo].
      cbn [applyVideoSelection categories openPaths selectedVideo
           selectedCategoryIndex].
      split; [exact Hcats|]. split.
      * intros p Hp. rewrite addAll_has in Hp. apply orb_true_iff in Hp.
        destruct Hp as [Hp|Hp]; [now apply Hopen|].
        apply andb_true_iff in Hp. destruct Hp as [Hp Ht].
        split; [intro; subst p; discriminate|].
        apply category_folders with category.
        -- rewrite <- Hcats. exact (at_index_In _ _ _ _ Hat).
        -- apply Hpaths. cbn [app] in Hd. rewrite <- Hd. now apply Set_has_In.
      * intros s' Hs'. inversion Hs'; subst s'. exists category.
        split; [now rewrite <- Hcats|]. now apply category_videos.
    + (* the toggle of a folder *)
      destruct Hev as [completed Hin]. unfold onDetailsToggle.
      destruct (truthy dirPath) eqn:Ht; cbn [negb];
        [|split; [exact Hcats | split; [exact Hopen | exact Hsel]]].
      cbn [categories openPaths selectedVideo selectedCategoryIndex].
      split; [exact Hcats|]. split; [|exact Hsel].
      intros p Hp. destruct isOpen.
      * rewrite Set_has_add in Hp. apply orb_true_iff in Hp.
        destruct Hp as [Hp|Hp]; [now apply Hopen|].
        apply str_eqb_eq in Hp. subst p.
        split; [intro; subst dirPath; discriminate|].
        destruct (at_index (categories st) (selectedCategoryIndex st))
          as [category|] eqn:Hat.
        -- rewrite (renderTree_content completed st category Hat) in Hin.
           apply category_folders with category.
           ++ rewrite <- Hcats. exact (at_index_In _ _ _ _ Hat).
           ++ exact (children_folders _ _ _ _ _ _ _ Hin).
        -- unfold renderTree in Hin. rewrite Hat in Hin. destruct Hin.
      * rewrite Set_has_delete in Hp. apply andb_true_iff in Hp.
        now apply Hopen.
Qed.

Lemma session_keeps_tree_consistent_witness :
  let st := treeStep (treeStep {| categories := [sampleCategory];
                                  selectedCategoryIndex := -1;
                                  selectedVideo := None;
                                  openPaths := Set_empty |}
                               (ClickCategory 0))
                     (ToggleFolder (str "videos/Basics/01 empty") true) in
  categories st = [sampleCategory]
  /\ (forall p, Set_has (openPaths st) p = true ->
        p <> [] /\ In p (flat_map directoryPaths [sampleCategory]))
  /\ (forall s, selectedVideo st = Some s ->
        exists category,
          at_index [sampleCategory] (selectedCategoryIndex st) = Some category
          /\ In (node s) (videoNodes category)).
Proof.
  apply (session_keeps_tree_consistent [sampleCategory]).
  apply reach_step; [apply reach_step; [apply reach_loaded | exact I]|].
  exists Set_empty. left. reflexivity.
Defined.

(** X20: in every tree that is drawn the folders of the first level are
    open, whatever the open set holds: a first-level folder that the user
    has closed is open again after the next click on a leaf. *)
Theorem top_folders_are_drawn_open : forall completed st e,
  In e (contentOf (renderTree completed st)) -> isOpenFolder e = true.
Proof.
  intros completed st e Hin.
  destruct (at_index (categories st) (selectedCategoryIndex st))
    as [category|] eqn:Hat.
  - rewrite (renderTree_content completed st category Hat) in Hin.
    apply in_map_iff in Hin. destruct Hin as ([a b k ds|a b sz k] & <- & _);
      reflexivity.
  - unfold renderTree in Hin. rewrite Hat in Hin. destruct Hin.
Qed.

Lemma top_folders_are_drawn_open_witness :
  let st := onDetailsToggle (str "videos/Basics/02 intro") false
              (selectCategory 0 sampleTreeState) in
  let e := createDirectoryGroup Set_empty st
             (Directory (str "01 empty") (str "videos/Basics/01 empty") 0 [])
             [str "Basics"; str "01 empty"] 0 [] in
  In e (contentOf (renderTree Set_empty st)) /\ isOpenFolder e = true.
Proof.
  intros st e.
  assert (Hin : In e (contentOf (renderTree Set_empty st))) by (left; reflexivity).
  split; [exact Hin|].
  exact (top_folders_are_drawn_open Set_empty st e Hin).
Defined.

(** *** The list of the categories *)

Lemma active_flags : forall index n start,
  List.length (filter (fun k => Z.of_nat k =? index) (seq start n))
  = if (Z.of_nat start <=? index) && (index <? Z.of_nat (start + n))
    then 1%nat else 0%nat.
Proof.
  intros index. induction n as [|n IH]; intro start.
  - simpl. rewrite Nat.add_0_r.
    destruct (Z.of_nat start <=? index) eqn:E1; [|reflexivity].
    destruct (index <? Z.of_nat start) eqn:E2; [|reflexivity].
    apply Z.leb_le in E1. apply Z.ltb_lt in E2. lia.
  - cbn [seq filter]. destruct (Z.of_nat start =? index) eqn:E.
    + apply Z.eqb_eq in E. cbn [List.length]. rewrite IH.
      destruct (Z.of_nat (S start) <=? index) eqn:E1;
        [apply Z.leb_le in E1; lia|]. cbn [andb].
      destruct (Z.of_nat start <=? index) eqn:E2;
        [|apply Z.leb_gt in E2; lia].
      destruct (index <? Z.of_nat (start + S n)) eqn:E3;
        [reflexivity | apply Z.ltb_ge in E3; lia].
    + apply Z.eqb_neq in E. rewrite IH.
      replace (S start + n)%nat with (start + S n)%nat by lia.
      destruct (index <? Z.of_nat (start + S n)); [|now rewrite !andb_false_r].
      rewrite !andb_true_r.
      destruct (Z.of_nat (S start) <=? index) eqn:E1;
        destruct (Z.of_nat start <=? index) eqn:E2; try reflexivity.
      * apply Z.leb_le in E1. apply Z.leb_gt in E2. lia.
      * apply Z.leb_gt in E1. apply Z.leb_le in E2. lia.
Qed.

Lemma filter_map_swap : forall (A B : Type) (g : A -> B) (f : B -> bool) l,
  filter f (map g l) = map g (filter (fun x => f (g x)) l).
Proof.
  intros A B g f. induction l as [|x l IH]; [reflexivity|]. simpl.
  destruct (f (g x)); simpl; now rewrite IH.
Qed.

Lemma filter_combine_fst : forall (A B : Type) (f : A -> bool) (xs : list A)
    (ys : list B),
  List.length xs = List.length ys ->
  List.length (filter (fun xy => f (fst xy)) (combine xs ys))
  = List.length (filter f xs).
Proof.
  intros A B f. induction xs as [|x xs IH]; intros [|y ys] Hlen;
    try discriminate; [reflexivity|].
  simpl. destruct (f x); simpl; rewrite (IH ys) by (simpl in Hlen; lia);
    reflexivity.
Qed.

Lemma activeButtons_eq : forall st,
  activeButtons (renderCategoryList st)
  = if (0 <=? selectedCategoryIndex st)
       && (selectedCategoryIndex st <? Z.of_nat (List.length (categories st)))
    then 1%nat else 0%nat.
Proof.
  intro st. unfold activeButtons, renderCategoryList.
  rewrite filter_map_swap, length_map. cbn [fst].
  rewrite (filter_combine_fst _ _ (fun k => Z.of_nat k =? selectedCategoryIndex st))
    by apply length_seq.
  apply (active_flags (selectedCategoryIndex st) (List.length (categories st)) 0).
Qed.

Lemma reachable_index : forall cats st,
  reachable cats st ->
  categories st = cats
  /\ (selectedCategoryIndex st = -1
      \/ 0 <= selectedCategoryIndex st < Z.of_nat (List.length cats)).
Proof.
  intros cats st H. induction H as [|st ev _ [Hcats Hidx] _].
  - split; [reflexivity | now left].
  - destruct ev as [index|s|dirPath isOpen]; cbn [treeStep].
    + destruct (at_index (categories st) index) as [category|] eqn:Hat.
      * rewrite (selectCategory_eq st index category Hat).
        cbn [categories selectedCategoryIndex]. split; [exact Hcats|]. right.
        pose proof (at_index_Some _ _ _ _ Hat) as Hrange.
        apply orb_false_iff in Hrange. destruct Hrange as [H0 H1].
        apply Z.ltb_ge in H0. rewrite Z.geb_leb in H1. apply Z.leb_gt in H1.
        rewrite <- Hcats. lia.
      * rewrite (selectCategory_outside st index Hat). now split.
    + now split.
    + unfold onDetailsToggle. destruct (negb (truthy dirPath)); now split.
Qed.

(** X21: the list of the categories never has two buttons marked active:
    it has none until a category is selected, and exactly one, the button
    of the selected category, from then on. *)
Theorem one_active_category : forall cats st,
  reachable cats st ->
  activeButtons (renderCategoryList st)
  = if selectedCategoryIndex st =? -1 then 0%nat else 1%nat.
Proof.
  intros cats st H. destruct (reachable_index cats st H) as [Hcats Hidx].
  rewrite activeButtons_eq, Hcats. destruct Hidx as [->|[H0 H1]]; [reflexivity|].
  destruct (selectedCategoryIndex st =? -1) eqn:E; [apply Z.eqb_eq in E; lia|].
  apply Z.leb_le in H0. apply Z.ltb_lt in H1. now rewrite H0, H1.
Qed.

Lemma one_active_category_witness :
  activeButtons
    (renderCategoryList
       (treeStep {| categories := [sampleCategory; sampleLooseVideo];
                    selectedCategoryIndex := -1;
                    selectedVideo := None;
                    openPaths := Set_empty |}
                 (ClickCategory 1)))
  = 1%nat.
Proof.
  apply (one_active_category [sampleCategory; sampleLooseVideo]).
  apply reach_step; [apply reach_loaded | exact I].
Defined.

(** *** The size of a file *)

Lemma formatBytes_below_1024 :
  forallb (fun k => str_eqb (formatBytes (Some (Z.of_nat k)))
                            (Viewer.decimal (Z.of_nat k) ++ str " B"))
          (seq 0 1024) = true.
Proof. vm_compute. reflexivity. Qed.

Lemma formatBytes_below_MiB :
  forallb (fun k => str_eqb (formatBytes (Some (1048525 + Z.of_nat k)))
                            (str "1024.0 KB"))
          (seq 0 51) = true.
Proof. vm_compute. reflexivity. Qed.

(** X22: [formatBytes] prints a size below 1024 as the number of bytes it
    is.  The unit is chosen before the number is rounded: each of the 51
    sizes from 1048525 up to one byte less than 1024 KB is printed as
    [1024.0 KB].  Without a size nothing is printed. *)
Theorem formatBytes_edges :
  (forall b, 0 <= b < 1024 ->
     formatBytes (Some b) = Viewer.decimal b ++ str " B")
  /\ (forall b, 1048525 <= b < 1048576 -> formatBytes (Some b) = str "1024.0 KB")
  /\ formatBytes (Some 1048524) = str "1023.9 KB"
  /\ formatBytes (Some 1048576) = str "1.0 MB"
  /\ formatBytes None = [].
Proof.
  split; [|split; [|repeat split; vm_compute; reflexivity]].
  - intros b Hb. pose proof formatBytes_below_1024 as H.
    rewrite forallb_forall in H. specialize (H (Z.to_nat b)).
    rewrite Z2Nat.id in H by lia. apply str_eqb_eq, H, in_seq. lia.
  - intros b Hb. pose proof formatBytes_below_MiB as H.
    rewrite forallb_forall in H. specialize (H (Z.to_nat (b - 1048525))).
    rewrite Z2Nat.id in H by lia.
    replace (1048525 + (b - 1048525)) with b in H by lia.
    apply str_eqb_eq, H, in_seq. lia.
Qed.

End TreeFacts.

(** ** The indexer: where the nodes lie, and the viewer on its manifest *)
Module IndexFacts.
Import JS Manifest Indexer Reference Notions JSFacts WalkFacts.

Lemma placedAt_dir : forall fullPath nm p c cs,
  placedAt fullPath (Directory nm p c cs)
  = str_eqb nm (basename fullPath) && str_eqb p (manifestPath fullPath)
    && forallb (fun child => negb (isDotName (name child))
                             && placedAt (fullPath ++ [name child]) child) cs.
Proof. reflexivity. Qed.

Lemma manifestPath_truthy : forall fullPath, truthy (manifestPath fullPath) = true.
Proof.
  intro fullPath. unfold manifestPath.
  destruct (truthy (normalized fullPath)); reflexivity.
Qed.

Lemma manifestPath_deep : forall a b rest,
  manifestPath (a :: b :: rest)
  = str "videos/" ++ join (str "/") (a :: b :: rest).
Proof.
  intros a b rest. unfold manifestPath, normalized.
  assert (H : truthy (join (str "/") (a :: b :: rest)) = true)
    by (destruct a; reflexivity).
  now rewrite H.
Qed.

Lemma distinct_NoDup : forall names, distinct names = true <-> NoDup names.
Proof.
  induction names as [|nm rest IH]; simpl.
  - split; [constructor | reflexivity].
  - rewrite andb_true_iff, negb_true_iff, IH. split.
    + intros [Hnot Hrest]. constructor; [|exact Hrest].
      intro Hin. apply Set_has_In in Hin. congruence.
    + intro H. inversion H as [|? ? Hnot Hrest]; subst. split; [|exact Hrest].
      destruct (Set_has rest nm) eqn:E; [|reflexivity].
      apply Set_has_In in E. contradiction.
Qed.

Lemma NoDup_map_filter : forall (A B : Type) (g : A -> B) (f : A -> bool) l,
  NoDup (map g l) -> NoDup (map g (filter f l)).
Proof.
  intros A B g f. induction l as [|x l IH]; simpl; intro H; [constructor|].
  inversion H as [|? ? Hnot Hrest]; subst.
  destruct (f x); [|now apply IH]. simpl. constructor; [|now apply IH].
  intro Hin. apply Hnot. apply in_map_iff in Hin.
  destruct Hin as (y & Hy & Hin). apply filter_In in Hin.
  apply in_map_iff. exists y. tauto.
Qed.

Lemma wellNamed_dir : forall entries,
  wellNamed (FsDir entries) = true ->
  NoDup (map fst entries)
  /\ forallb slashFree (map fst entries) = true
  /\ forall nm target, In (nm, target) entries -> wellNamed target = true.
Proof.
  intros entries H. cbn [wellNamed] in H.
  apply andb_true_iff in H. destruct H as [H Hall].
  apply andb_true_iff in H. destruct H as [Hd Hs].
  split; [now apply distinct_NoDup|]. split; [exact Hs|].
  clear Hd Hs. induction entries as [|entry rest IH]; intros nm target Hin;
    [destruct Hin|].
  apply andb_true_iff in Hall. destruct Hall as [He Hrest].
  destruct Hin as [->|Hin]; [exact He | exact (IH Hrest nm target Hin)].
Qed.

Lemma wellNamedTree_dir : forall nm p c cs,
  wellNamedTree (Directory nm p c cs)
  = distinct (map name cs) && forallb slashFree (map name cs)
    && forallb wellNamedTree cs.
Proof. reflexivity. Qed.

Section Placement.
Variable collator_compare : jsstring -> jsstring -> Number.

(** What holds of the node of every entry that is built holds of the
    children collected by the loop. *)
Lemma walkEntries_Forall : forall (Q : ManifestNode -> Prop) fullPath entries,
  (forall nm target child,
     In (nm, target) entries -> isDotName nm = false ->
     buildNode collator_compare (fullPath ++ [nm]) target = OK (Some child) ->
     Q child) ->
  forall children children',
    walkEntries (buildNode collator_compare) fullPath entries children
    = OK children' ->
    Forall Q children -> Forall Q children'.
Proof.
  intros Q fullPath. induction entries as [|[nm target] rest IH];
    intros Hall children children' Hwalk HQ.
  - simpl in Hwalk. inversion Hwalk; subst. exact HQ.
  - rewrite walkEntries_cons in Hwalk.
    assert (Hrest : forall nm' t' child,
              In (nm', t') rest -> isDotName nm' = false ->
              buildNode collator_compare (fullPath ++ [nm']) t' = OK (Some child) ->
              Q child).
    { intros nm' t' child Hin. apply (Hall nm' t' child). now right. }
    unfold visitEntry in Hwalk. fold (isDotName nm) in Hwalk.
    destruct (isDotName nm) eqn:Hdot; [exact (IH Hrest _ _ Hwalk HQ)|].
    destruct (buildNode collator_compare (fullPath ++ [nm]) target)
      as [[child|]|e] eqn:Hb; [| |discriminate].
    + apply (IH Hrest _ _ Hwalk). apply Forall_app. split; [exact HQ|].
      constructor; [|constructor]. apply (Hall nm target child); auto. now left.
    + exact (IH Hrest _ _ Hwalk HQ).
Qed.

Lemma buildNode_kept : forall fullPath nm target r,
  isDotName nm = false ->
  buildNode collator_compare (fullPath ++ [nm]) target = OK r ->
  match r with
  | Some child => name child = nm /\ keptEntry (nm, target) = true
  | None => keptEntry (nm, target) = false
  end.
Proof.
  intros fullPath nm target r Hdot Hb. unfold keptEntry. cbn [fst snd].
  rewrite Hdot. cbn [negb andb].
  destruct target as [size|entries| | |].
  - simpl in Hb. rewrite extname_mp4 in Hb by now rewrite basename_child.
    rewrite basename_child in Hb.
    destruct (hasMp4Extension nm); inversion Hb; subst; [|reflexivity].
    split; reflexivity.
  - rewrite buildNode_dir in Hb.
    destruct (walkEntries (buildNode collator_compare) (fullPath ++ [nm]) entries [])
      as [kids|e]; [|discriminate].
    cbv zeta in Hb. inversion Hb; subst. cbn [name]. rewrite basename_child.
    split; reflexivity.
  - simpl in Hb. inversion Hb; subst. reflexivity.
  - discriminate.
  - discriminate.
Qed.

Lemma walkEntries_names : forall fullPath entries children children',
  walkEntries (buildNode collator_compare) fullPath entries children
  = OK children' ->
  map name children' = map name children ++ map fst (filter keptEntry entries).
Proof.
  intros fullPath. induction entries as [|[nm target] rest IH];
    intros children children' Hwalk.
  - simpl in Hwalk. inversion Hwalk; subst. simpl. now rewrite app_nil_r.
  - rewrite walkEntries_cons in Hwalk.
    unfold visitEntry in Hwalk. fold (isDotName nm) in Hwalk.
    cbn [filter]. destruct (isDotName nm) eqn:Hdot.
    + unfold keptEntry at 1. cbn [fst snd]. rewrite Hdot. cbn [negb andb].
      exact (IH _ _ Hwalk).
    + destruct (buildNode collator_compare (fullPath ++ [nm]) target)
        as [r|e] eqn:Hb; [|discriminate].
      pose proof (buildNode_kept fullPath nm target r Hdot Hb) as Hk.
      destruct r as [child|].
      * destruct Hk as [Hname Hkept]. rewrite Hkept.
        rewrite (IH _ _ Hwalk), map_app. cbn [map fst]. rewrite Hname.
        now rewrite <- app_assoc.
      * rewrite Hk. exact (IH _ _ Hwalk).
Qed.

Lemma buildNode_placed : forall stats fullPath n,
  isDotName (basename fullPath) = false ->
  buildNode collator_compare fullPath stats = OK (Some n) ->
  placedAt fullPath n = true.
Proof.
  induction stats as [size|entries IH| | |] using FsNode_tree_ind;
    intros fullPath n Hdot Hb.
  - simpl in Hb. rewrite extname_mp4 in Hb by assumption.
    destruct (hasMp4Extension (basename fullPath)) eqn:Hext; inversion Hb; subst.
    cbn [placedAt name path]. now rewrite !str_eqb_refl, Hext.
  - rewrite buildNode_dir in Hb.
    destruct (walkEntries (buildNode collator_compare) fullPath entries [])
      as [kids|e] eqn:Hw; [|discriminate].
    cbv zeta in Hb. inversion Hb; subst. clear Hb.
    rewrite placedAt_dir, !str_eqb_refl. cbn [andb].
    apply forallb_forall. intros child Hchild.
    assert (Hkids : Forall (fun child =>
                      negb (isDotName (name child))
                      && placedAt (fullPath ++ [name child]) child = true) kids).
    { apply (walkEntries_Forall _ fullPath entries) with (children := []);
        [|exact Hw|constructor].
      intros nm target c Hin Hnd Hc.
      destruct (buildNode_kept fullPath nm target (Some c) Hnd Hc) as [Hname _].
      rewrite Hname, Hnd. cbn [negb andb].
      apply (IH nm target Hin); [now rewrite basename_child | exact Hc]. }
    rewrite Forall_forall in Hkids. apply Hkids.
    apply Permutation_in with (JSArray.sort (compareEntries collator_compare) kids);
      [|exact Hchild].
    apply Permutation_sym, sort_Permutation.
  - simpl in Hb. discriminate.
  - discriminate.
  - discriminate.
Qed.

Lemma buildNode_wellNamed : forall stats fullPath n,
  wellNamed stats = true ->
  buildNode collator_compare fullPath stats = OK (Some n) ->
  wellNamedTree n = true.
Proof.
  induction stats as [size|entries IH| | |] using FsNode_tree_ind;
    intros fullPath n Hwn Hb.
  - simpl in Hb. destruct (str_eqb _ _); inversion Hb; subst. reflexivity.
  - destruct (wellNamed_dir entries Hwn) as (Hnd & Hsf & Hbelow).
    rewrite buildNode_dir in Hb.
    destruct (walkEntries (buildNode collator_compare) fullPath entries [])
      as [kids|e] eqn:Hw; [|discriminate].
    cbv zeta in Hb. inversion Hb; subst. clear Hb.
    pose proof (walkEntries_names fullPath entries [] kids Hw) as Hnames.
    cbn [map app] in Hnames.
    pose proof (sort_Permutation _ (compareEntries collator_compare) kids) as Hperm.
    pose proof (Permutation_map name Hperm) as Hpn.
    rewrite wellNamedTree_dir. repeat (apply andb_true_iff; split).
    + apply distinct_NoDup. apply (Permutation_NoDup Hpn).
      rewrite Hnames. now apply NoDup_map_filter.
    + apply forallb_forall. intros x Hx.
      apply (Permutation_in _ (Permutation_sym Hpn)) in Hx.
      rewrite Hnames in Hx. apply in_map_iff in Hx.
      destruct Hx as (entry & <- & Hentry). apply filter_In in Hentry.
      rewrite forallb_forall in Hsf. apply Hsf. apply in_map. tauto.
    + apply forallb_forall. intros child Hchild.
      apply (Permutation_in _ (Permutation_sym Hperm)) in Hchild.
      assert (Hkids : Forall (fun child => wellNamedTree child = true) kids).
      { apply (walkEntries_Forall _ fullPath entries) with (children := []);
          [|exact Hw|constructor].
        intros nm target c Hin _ Hc.
        exact (IH nm target Hin _ _ (Hbelow nm target Hin) Hc). }
      rewrite Forall_forall in Hkids. now apply Hkids.
  - simpl in Hb. discriminate.
  - discriminate.
  - discriminate.
Qed.

Lemma Forall2_In_left : forall (A B : Type) (R : A -> B -> Prop) l1 l2,
  Forall2 R l1 l2 -> forall x, In x l1 -> exists y, In y l2 /\ R x y.
Proof.
  intros A B R l1 l2 H. induction H as [|x0 y0 l1 l2 HR _ IH]; intros x Hin;
    [destruct Hin|].
  destruct Hin as [<-|Hin].
  - exists y0. split; [now left | exact HR].
  - destruct (IH x Hin) as (y & Hy & Hxy). exists y. split; [now right | exact Hxy].
Qed.

Lemma nodeOf_dir : forall dir nm entries nm' p c cs,
  nodeOf dir nm (FsDir entries) (Directory nm' p c cs)
  = str_eqb nm' nm && str_eqb p (manifestPath (dir ++ [nm]))
    && negb (isDotName nm)
    && ((c =? spec_countVideos nm (FsDir entries))
        && forallb (fun child =>
                      existsb (fun entry =>
                                 nodeOf (dir ++ [nm]) (fst entry) (snd entry) child)
                              entries) cs).
Proof. reflexivity. Qed.

(** The node that [buildNode] returns for an entry is the node of that
    entry, and so are the nodes below it. *)
Lemma buildNode_nodeOf : forall target dir nm n,
  isDotName nm = false ->
  buildNode collator_compare (dir ++ [nm]) target = OK (Some n) ->
  nodeOf dir nm target n = true.
Proof.
  induction target as [size|entries IH| | |] using FsNode_tree_ind;
    intros dir nm n Hdot Hb.
  - simpl in Hb. rewrite extname_mp4 in Hb by now rewrite basename_child.
    rewrite basename_child in Hb.
    destruct (hasMp4Extension nm) eqn:Hext; inversion Hb; subst.
    cbn [nodeOf name path]. now rewrite !str_eqb_refl, Hdot, Hext, Z.eqb_refl.
  - destruct (buildNode_dir_walked collator_compare dir nm entries Hdot)
      as (walked & Hall & Hnode).
    { pose proof (buildNode_walkable collator_compare (FsDir entries) (dir ++ [nm]))
        as Hw.
      destruct (walkable (FsDir entries)); [reflexivity|].
      destruct Hw as [e He]. congruence. }
    rewrite Hnode in Hb. inversion Hb; subst. clear Hb.
    rewrite nodeOf_dir, !str_eqb_refl, Hdot, Z.eqb_refl. cbn [negb andb].
    apply forallb_forall. intros child Hchild.
    apply (Permutation_in _ (Permutation_sym
             (sort_Permutation _ (compareEntries collator_compare) walked)))
      in Hchild.
    destruct (Forall2_In_left _ _ _ _ _ Hall child Hchild)
      as ([nm' t'] & Hkept & Hkid).
    apply filter_In in Hkept. destruct Hkept as [Hin Hkept].
    apply existsb_exists. exists (nm', t'). split; [exact Hin|].
    cbn [fst snd] in *. apply (IH nm' t' Hin); [|exact Hkid].
    unfold keptEntry in Hkept. cbn [fst] in Hkept.
    apply andb_true_iff in Hkept. now apply negb_true_iff.
  - simpl in Hb. discriminate.
  - discriminate.
  - discriminate.
Qed.

Lemma main_Wrote : forall w file,
  main collator_compare w = Wrote file ->
  exists entries root,
    videos w = FsDir entries
    /\ buildNode collator_compare [] (FsDir entries) = OK (Some root)
    /\ isDirectory root = true
    /\ file = {| generatedAt := now w; categories := children root |}.
Proof.
  intros [root clock mk wr] file H. unfold main, ensureVideosDir in H.
  cbn [videos now mkdirFails writeFileFails] in *.
  destruct root as [size|entries| | |]; try discriminate.
  destruct (buildNode collator_compare [] (FsDir entries)) as [[root|]|e] eqn:Hb;
    try discriminate.
  destruct mk; [discriminate|]. destruct wr; [discriminate|].
  exists entries, root. split; [reflexivity|]. split; [exact Hb|].
  split; [|now inversion H].
  rewrite buildNode_dir in Hb.
  destruct (walkEntries (buildNode collator_compare) [] entries []);
    [|discriminate].
  cbv zeta in Hb. now inversion Hb.
Qed.

End Placement.

(** X23: the children of the node of a directory are the nodes of the
    entries that are kept, one for each, under the names of the entries:
    nothing is lost or repeated by the walk or by the sort. *)
Theorem children_are_kept_entries : forall collator_compare fullPath entries n,
  buildNode collator_compare fullPath (FsDir entries) = OK (Some n) ->
  Permutation (map name (children n)) (map fst (filter keptEntry entries)).
Proof.
  intros cmp fullPath entries n Hb. rewrite buildNode_dir in Hb.
  destruct (walkEntries (buildNode cmp) fullPath entries []) as [kids|e] eqn:Hw;
    [|discriminate].
  cbv zeta in Hb. inversion Hb; subst. cbn [children].
  pose proof (walkEntries_names cmp fullPath entries [] kids Hw) as Hn.
  cbn [map app] in Hn. rewrite <- Hn.
  apply Permutation_map, Permutation_sym, sort_Permutation.
Qed.

Lemma children_are_kept_entries_witness :
  buildNode codePointOrder [] (FsDir sampleEntries) = OK (Some sampleRootNode)
  /\ Permutation (map name (children sampleRootNode))
                 (map fst (filter keptEntry sampleEntries)).
Proof.
  split; [reflexivity|].
  apply (children_are_kept_entries codePointOrder [] sampleEntries sampleRootNode).
  reflexivity.
Defined.

(** X24: the manifest that a run writes holds the entries of [videos] and
    nothing else.  The names of its categories are the names of the kept
    entries of [videos], one for each.  Every category is the node of an
    entry of [videos], and every node below it is the node of an entry of
    the directory that its parent stands for: it has the name of that
    entry, which does not start with a dot, and as its path [videos/]
    followed by the names of the entries from [videos] down to it, joined
    by [/]; a Video stands for a regular file with the extension [.mp4],
    has its size and the count 1; a Directory stands for a directory and
    has the number of the videos below it as its count. *)
Theorem main_places_nodes : forall collator_compare w file,
  main collator_compare w = Wrote file ->
  exists entries,
    videos w = FsDir entries
    /\ Permutation (map name (categories file))
                   (map fst (filter keptEntry entries))
    /\ forallb (fun category =>
                  existsb (fun entry => nodeOf [] (fst entry) (snd entry) category)
                          entries)
               (categories file) = true.
Proof.
  intros cmp w file H.
  destruct (main_Wrote cmp w file H) as (entries & root & Hroot & Hb & Hdir & ->).
  exists entries. split; [exact Hroot|]. cbn [categories].
  rewrite buildNode_dir in Hb.
  destruct (walkEntries (buildNode cmp) [] entries []) as [kids|e] eqn:Hw;
    [|discriminate].
  cbv zeta in Hb. inversion Hb; subst. cbn [children]. split.
  - pose proof (walkEntries_names cmp [] entries [] kids Hw) as Hn.
    cbn [map app] in Hn. rewrite <- Hn.
    apply Permutation_map, Permutation_sym, sort_Permutation.
  - apply forallb_forall. intros category Hc.
    apply (Permutation_in _ (Permutation_sym
             (sort_Permutation _ (compareEntries cmp) kids))) in Hc.
    assert (Hkids : Forall (fun child =>
                      existsb (fun entry =>
                                 nodeOf [] (fst entry) (snd entry) child)
                              entries = true) kids).
    { apply (walkEntries_Forall cmp _ [] entries) with (children := []);
        [|exact Hw|constructor].
      intros nm target c Hin Hnd Hbc. apply existsb_exists.
      exists (nm, target). split; [exact Hin|].
      exact (buildNode_nodeOf cmp target [] nm c Hnd Hbc). }
    rewrite Forall_forall in Hkids. now apply Hkids.
Qed.

Lemma main_places_nodes_witness :
  main codePointOrder sampleWorld
  = Wrote {| generatedAt := sampleNow; categories := children sampleRootNode |}
  /\ exists entries,
       videos sampleWorld = FsDir entries
       /\ Permutation (map name (children sampleRootNode))
                      (map fst (filter keptEntry entries))
       /\ forallb (fun category =>
                     existsb (fun entry =>
                                nodeOf [] (fst entry) (snd entry) category)
                             entries)
                  (children sampleRootNode) = true.
Proof.
  split; [reflexivity|].
  apply (main_places_nodes codePointOrder sampleWorld
           {| generatedAt := sampleNow; categories := children sampleRootNode |}).
  reflexivity.
Defined.

(** A manifest with a node that no entry of [videos] stands behind does
    not pass: neither under a wrong name nor with a wrong size. *)
Example nodeOf_rejects_strangers :
  existsb (fun entry => nodeOf [] (fst entry) (snd entry)
                               (Video (str "other.mp4") (str "videos/other.mp4") 1 1))
          sampleEntries = false
  /\ nodeOf [] (str "a.mp4") (FsFile 5)
            (Video (str "a.mp4") (str "videos/a.mp4") 5 1) = true
  /\ nodeOf [] (str "a.mp4") (FsFile 5)
            (Video (str "a.mp4") (str "videos/a.mp4") 6 1) = false
  /\ nodeOf [] (str "a.mp4") (FsFile 5)
            (Video (str "a.mp4") (str "videos/b/a.mp4") 5 1) = false.
Proof. repeat split. Qed.

End IndexFacts.

(** ** The viewer on a manifest that the indexer wrote *)
Module PipelineFacts.
Import JS Manifest Reference Notions JSFacts.

Lemma placedAt_fields : forall fullPath n,
  placedAt fullPath n = true ->
  name n = Indexer.basename fullPath /\ path n = Indexer.manifestPath fullPath.
Proof.
  intros fullPath n H.
  assert (H' : str_eqb (name n) (Indexer.basename fullPath)
               && str_eqb (path n) (Indexer.manifestPath fullPath) = true).
  { destruct n; cbn [placedAt] in H; apply andb_true_iff in H; exact (proj1 H). }
  apply andb_true_iff in H'. destruct H' as [Hn Hp].
  split; now apply str_eqb_eq.
Qed.

Lemma placed_child : forall fullPath n child,
  placedAt fullPath n = true -> In child (children n) ->
  isDotName (name child) = false
  /\ placedAt (fullPath ++ [name child]) child = true.
Proof.
  intros fullPath [nm p c cs|nm p sz c] child H Hin; [|destruct Hin].
  rewrite IndexFacts.placedAt_dir in H. apply andb_true_iff in H.
  destruct H as [_ H]. rewrite forallb_forall in H. specialize (H child Hin).
  apply andb_true_iff in H. destruct H as [Hd Hp].
  split; [now apply negb_true_iff | exact Hp].
Qed.

Lemma placed_video : forall fullPath v,
  placedAt fullPath v = true -> isDirectory v = false ->
  hasMp4Extension (name v) = true /\ videoCount v = 1.
Proof.
  intros fullPath [nm p c cs|nm p sz c] H Hv; [discriminate|].
  cbn [placedAt] in H. apply andb_true_iff in H. destruct H as [_ H].
  apply andb_true_iff in H. destruct H as [Hc Hext].
  split; [exact Hext | now apply Z.eqb_eq].
Qed.

Lemma placed_route : forall route fullPath n v,
  placedAt fullPath n = true -> isRoute n route v ->
  placedAt (fullPath ++ map name route ++ [name v]) v = true
  /\ Forall (fun r => truthy (path r) = true) route.
Proof.
  induction route as [|r rest IH]; intros fullPath n v Hn Hr.
  - split; [|constructor]. exact (proj2 (placed_child fullPath n v Hn Hr)).
  - destruct Hr as (Hin & _ & Hrest).
    destruct (placed_child fullPath n r Hn Hin) as [_ Hp].
    destruct (IH _ _ _ Hp Hrest) as [Hv Hdirs].
    rewrite <- app_assoc in Hv. split; [exact Hv|].
    constructor; [|exact Hdirs].
    rewrite (proj2 (placedAt_fields _ _ Hp)). apply IndexFacts.manifestPath_truthy.
Qed.

Lemma placed_videoPaths : forall n fullPath,
  placedAt fullPath n = true ->
  Forall (fun p => truthy p = true) (videoPaths n).
Proof.
  induction n as [nm p sz c|nm p c cs Hcs] using ViewerFacts.ManifestNode_tree_ind;
    intros fullPath H.
  - pose proof (proj2 (placedAt_fields _ _ H)) as Hp. cbn [path] in Hp.
    constructor; [|constructor]. rewrite Hp. apply IndexFacts.manifestPath_truthy.
  - cbn [videoPaths]. apply Forall_forall. intros q Hq.
    apply in_flat_map in Hq. destruct Hq as (child & Hchild & Hq).
    rewrite Forall_forall in Hcs.
    destruct (placed_child fullPath _ child H Hchild) as [_ Hp].
    pose proof (Hcs child Hchild _ Hp) as Hall.
    rewrite Forall_forall in Hall. now apply Hall.
Qed.

(** *** Different files have different paths *)

Lemma slashFree_pieces : forall names,
  forallb slashFree names = true ->
  Forall (Forall (fun c => c <> Url.SLASH)) names.
Proof.
  intros names H. apply Forall_forall. intros nm Hnm.
  rewrite forallb_forall in H. specialize (H nm Hnm).
  apply Forall_forall. intros c Hc. unfold slashFree in H.
  rewrite forallb_forall in H. specialize (H c Hc).
  apply negb_true_iff, Z.eqb_neq in H. exact H.
Qed.

Lemma join_injective : forall a b,
  a <> [] -> b <> [] ->
  forallb slashFree a = true -> forallb slashFree b = true ->
  join (str "/") a = join (str "/") b -> a = b.
Proof.
  intros a b Ha Hb Hsa Hsb Heq.
  rewrite <- (UrlFacts.split_join Url.SLASH a Ha (slashFree_pieces a Hsa)).
  rewrite <- (UrlFacts.split_join Url.SLASH b Hb (slashFree_pieces b Hsb)).
  change [Url.SLASH] with (str "/"). now rewrite Heq.
Qed.

Lemma video_placed_path : forall fullPath v,
  placedAt fullPath v = true -> isDirectory v = false ->
  path v = str "videos/" ++ join (str "/") fullPath /\ fullPath <> [].
Proof.
  intros fullPath v H Hv.
  destruct (placedAt_fields _ _ H) as [Hname Hpath].
  destruct (placed_video _ _ H Hv) as [Hext _].
  rewrite Hpath. destruct fullPath as [|a [|b rest]].
  - rewrite Hname in Hext. discriminate.
  - split; [|discriminate]. cbn in Hname. rewrite Hname in Hext.
    destruct a; [discriminate | reflexivity].
  - split; [apply IndexFacts.manifestPath_deep | discriminate].
Qed.

Lemma NoDup_flat_map_keys :
  forall (A B K : Type) (key : A -> K) (f : A -> list B) l,
  NoDup (map key l) ->
  (forall x, In x l -> NoDup (f x)) ->
  (forall x y p, In x l -> In y l -> In p (f x) -> In p (f y) -> key x = key y) ->
  NoDup (flat_map f l).
Proof.
  intros A B K key f. induction l as [|x l IH]; intros Hk Hf Hkey; [constructor|].
  inversion Hk as [|? ? Hnot Hrest]; subst. cbn [flat_map].
  apply NoDup_app.
  - apply Hf. now left.
  - apply IH; [exact Hrest | |].
    + intros y Hy. apply Hf. now right.
    + intros y z p Hy Hz. apply Hkey; now right.
  - intros p Hp Hq. apply in_flat_map in Hq. destruct Hq as (y & Hy & Hq).
    apply Hnot. rewrite (Hkey x y p); [now apply in_map | now left | now right
                                       | exact Hp | exact Hq].
Qed.

Lemma paths_below : forall n fullPath,
  placedAt fullPath n = true -> wellNamedTree n = true ->
  Forall (fun p => exists rest,
            p = str "videos/" ++ join (str "/") (fullPath ++ rest)
            /\ forallb slashFree rest = true /\ fullPath ++ rest <> [])
         (videoPaths n).
Proof.
  induction n as [nm p sz c|nm p c cs Hcs] using ViewerFacts.ManifestNode_tree_ind;
    intros fullPath Hp Hw.
  - destruct (video_placed_path _ _ Hp eq_refl) as [Hpath Hne].
    constructor; [|constructor]. exists []. rewrite app_nil_r.
    split; [exact Hpath|]. split; [reflexivity | exact Hne].
  - rewrite IndexFacts.wellNamedTree_dir in Hw.
    apply andb_true_iff in Hw. destruct Hw as [Hw Hall].
    apply andb_true_iff in Hw. destruct Hw as [_ Hsf].
    cbn [videoPaths]. apply Forall_forall. intros q Hq.
    apply in_flat_map in Hq. destruct Hq as (child & Hchild & Hq).
    rewrite Forall_forall in Hcs.
    destruct (placed_child fullPath _ child Hp Hchild) as [_ Hpc].
    rewrite forallb_forall in Hall.
    pose proof (Hcs child Hchild _ Hpc (Hall child Hchild)) as Hbelow.
    rewrite Forall_forall in Hbelow.
    destruct (Hbelow q Hq) as (rest & Heq & Hrest & Hne).
    exists (name child :: rest). rewrite <- app_assoc in Heq, Hne.
    split; [exact Heq|]. split; [|exact Hne].
    cbn [forallb]. rewrite Hrest, andb_true_r.
    rewrite forallb_forall in Hsf. apply Hsf. now apply in_map.
Qed.

Lemma paths_distinct : forall n fullPath,
  placedAt fullPath n = true -> wellNamedTree n = true ->
  forallb slashFree fullPath = true ->
  NoDup (videoPaths n).
Proof.
  induction n as [nm p sz c|nm p c cs Hcs] using ViewerFacts.ManifestNode_tree_ind;
    intros fullPath Hp Hw Hfp; [repeat constructor; intros []|].
  pose proof Hw as Hw'. rewrite IndexFacts.wellNamedTree_dir in Hw'.
  apply andb_true_iff in Hw'. destruct Hw' as [Hw' Hall].
  apply andb_true_iff in Hw'. destruct Hw' as [Hd Hsf].
  rewrite forallb_forall in Hall, Hsf. rewrite Forall_forall in Hcs.
  cbn [videoPaths]. apply NoDup_flat_map_keys with (key := name).
  - now apply IndexFacts.distinct_NoDup.
  - intros child Hchild.
    destruct (placed_child fullPath _ child Hp Hchild) as [_ Hpc].
    apply (Hcs child Hchild _ Hpc (Hall child Hchild)).
    rewrite forallb_app, Hfp. cbn [forallb]. rewrite andb_true_r.
    apply Hsf. now apply in_map.
  - intros x y q Hx Hy Hqx Hqy.
    destruct (placed_child fullPath _ x Hp Hx) as [_ Hpx].
    destruct (placed_child fullPath _ y Hp Hy) as [_ Hpy].
    pose proof (paths_below x _ Hpx (Hall x Hx)) as Hbx.
    pose proof (paths_below y _ Hpy (Hall y Hy)) as Hby.
    rewrite Forall_forall in Hbx, Hby.
    destruct (Hbx q Hqx) as (rx & Hex & Hrx & Hnx).
    destruct (Hby q Hqy) as (ry & Hey & Hry & Hny).
    rewrite Hex in Hey. apply app_inv_head in Hey.
    assert (Hsx : forallb slashFree ((fullPath ++ [name x]) ++ rx) = true).
    { rewrite !forallb_app, Hfp, Hrx. cbn [forallb].
      rewrite (Hsf (name x)) by now apply in_map. reflexivity. }
    assert (Hsy : forallb slashFree ((fullPath ++ [name y]) ++ ry) = true).
    { rewrite !forallb_app, Hfp, Hry. cbn [forallb].
      rewrite (Hsf (name y)) by now apply in_map. reflexivity. }
    apply (join_injective _ _ Hnx Hny Hsx Hsy) in Hey.
    rewrite <- !app_assoc in Hey. apply app_inv_head in Hey.
    now inversion Hey.
Qed.

(** X25: in the tree of a manifest that a run of the indexer wrote, the
    path of the video of every leaf is [videos/] followed by its
    breadcrumbs, joined by [/]; its name has the extension [.mp4]; the
    folders to open all have a path; and its address is the prefix followed
    by the address it has without a prefix. *)
Theorem tree_of_indexed_manifest :
  forall collator_compare w file completed st s prefix,
  Indexer.main collator_compare w = Indexer.Wrote file ->
  Tree.categories st = Indexer.categories file ->
  In s (flat_map clicks (contentOf (Tree.renderTree completed st))) ->
  path (Tree.node s) = str "videos/" ++ join (str "/") (Tree.breadcrumbs s)
  /\ hasMp4Extension (name (Tree.node s)) = true
  /\ Forall (fun p => truthy p = true) (Tree.directories s)
  /\ Url.resolveVideoSrc prefix (path (Tree.node s))
     = option_map (app prefix) (Url.resolveVideoSrc [] (path (Tree.node s))).
Proof.
  intros cmp w file completed st s prefix Hmain Hcats Hin.
  destruct (IndexFacts.main_Wrote cmp w file Hmain)
    as (entries & root & _ & Hb & _ & ->).
  cbn [Indexer.categories] in Hcats.
  pose proof (IndexFacts.buildNode_placed cmp (Indexer.FsDir entries) [] root
                eq_refl Hb) as Hroot.
  destruct (TreeFacts.rendered_click completed st s Hin) as (category & Hat & Hs).
  destruct (TreeFacts.children_routes _ _ _ _ _ _ _ Hs)
    as (route & Hr & Hv & Hcrumbs & Hdirs).
  assert (Hc : In category (children root))
    by (rewrite <- Hcats; exact (TreeFacts.at_index_In _ _ _ _ Hat)).
  destruct (placed_child [] root category Hroot Hc) as [_ Hplaced].
  destruct (placed_route route _ _ _ Hplaced Hr) as [Hvideo Hroute].
  cbn [app] in Hvideo, Hcrumbs, Hdirs.
  assert (Hpath : path (Tree.node s)
                  = str "videos/" ++ join (str "/") (Tree.breadcrumbs s)).
  { rewrite (proj2 (placedAt_fields _ _ Hvideo)), Hcrumbs.
    destruct route as [|r rest]; apply IndexFacts.manifestPath_deep. }
  split; [exact Hpath|]. split; [exact (proj1 (placed_video _ _ Hvideo Hv))|].
  split.
  - rewrite Hdirs. apply Forall_forall. intros p Hp.
    apply in_map_iff in Hp. destruct Hp as (r & <- & Hrin).
    rewrite Forall_forall in Hroute. now apply Hroute.
  - apply UrlFacts.resolveVideoSrc_videos. rewrite Hpath.
    apply UrlFacts.startsWith_prefix.
Qed.

Lemma tree_of_indexed_manifest_witness :
  let st := Tree.selectCategory 0
              {| Tree.categories := children sampleRootNode;
                 Tree.selectedCategoryIndex := -1;
                 Tree.selectedVideo := None;
                 Tree.openPaths := Set_empty |} in
  let s := {| Tree.node := Video (str "z.MP4")
                             (str "videos/" ++ sampleAdvanced ++ str "/z.MP4") 7 1;
              Tree.breadcrumbs := [sampleAdvanced; str "z.MP4"];
              Tree.directories := [] |} in
  Indexer.main codePointOrder sampleWorld
  = Indexer.Wrote {| Indexer.generatedAt := sampleNow;
                     Indexer.categories := children sampleRootNode |}
  /\ In s (flat_map clicks (contentOf (Tree.renderTree Set_empty st)))
  /\ path (Tree.node s) = str "videos/" ++ join (str "/") (Tree.breadcrumbs s)
  /\ hasMp4Extension (name (Tree.node s)) = true
  /\ Forall (fun p => truthy p = true) (Tree.directories s)
  /\ Url.resolveVideoSrc CDN (path (Tree.node s))
     = option_map (app CDN) (Url.resolveVideoSrc [] (path (Tree.node s))).
Proof.
  intros st s. split; [reflexivity|].
  assert (Hin : In s (flat_map clicks (contentOf (Tree.renderTree Set_empty st))))
    by (left; reflexivity).
  split; [exact Hin|].
  apply (tree_of_indexed_manifest codePointOrder sampleWorld
           {| Indexer.generatedAt := sampleNow;
              Indexer.categories := children sampleRootNode |}
           Set_empty st s CDN); [reflexivity | reflexivity | exact Hin].
Defined.

(** X26: on a manifest that a run of the indexer wrote, the total that the
    viewer counts is the number of regular files with the extension
    [.mp4] below [videos], entries whose name starts with a dot left out,
    and the valid paths are the paths of the videos of the manifest, all of
    them: no video is left without a check box that works. *)
Theorem viewer_counts_the_files : forall collator_compare w file raw,
  Indexer.main collator_compare w = Indexer.Wrote file ->
  let pg := Viewer.init raw (Some (Indexer.categories file)) Viewer.initialPage in
  Viewer.totalVideos pg = spec_countVideos (str "videos") (Indexer.videos w)
  /\ forall p, Set_has (Viewer.validVideoPaths pg) p = true
               <-> In p (videoPathsIn (Indexer.categories file)).
Proof.
  intros cmp w file raw Hmain pg.
  destruct (IndexFacts.main_Wrote cmp w file Hmain)
    as (entries & root & Hw & Hb & Hdir & ->).
  cbn [Indexer.categories] in *.
  pose proof (IndexFacts.buildNode_placed cmp (Indexer.FsDir entries) [] root
                eq_refl Hb) as Hroot.
  pose proof (WalkFacts.buildNode_accounts cmp (Indexer.FsDir entries) []
                (Some root) eq_refl Hb) as (Hcount & _ & Hnum).
  assert (Hstats : Viewer.totalVideos pg = numVideosIn (children root)
                   /\ Viewer.validVideoPaths pg
                      = Set_from (filter truthy (videoPathsIn (children root)))).
  { subst pg. unfold Viewer.init. cbn [Viewer.updateProgressUI Viewer.totalVideos
                                        Viewer.validVideoPaths].
    destruct (ViewerFacts.prune_keeps_stats
                (Viewer.storeStats (children root)
                   (Viewer.loadCompletedVideos raw Viewer.initialPage)))
      as [Hv Ht].
    rewrite Hv, Ht. unfold Viewer.storeStats.
    cbn [Viewer.totalVideos Viewer.validVideoPaths].
    now rewrite ViewerFacts.collectVideoStats_eq. }
  destruct Hstats as [Ht Hv]. split.
  - rewrite Ht, Hw. change (str "videos") with (Indexer.basename []).
    rewrite <- Hcount, Hnum. destruct root; [reflexivity | discriminate].
  - intro p. rewrite Hv, Set_has_from, Set_has_filter, andb_true_iff, Set_has_In.
    split; [tauto|]. intro Hp. split; [exact Hp|].
    assert (Hall : Forall (fun q => truthy q = true) (videoPaths root))
      by exact (placed_videoPaths root [] Hroot).
    rewrite Forall_forall in Hall. apply Hall.
    destruct root; [exact Hp | discriminate].
Qed.

Lemma viewer_counts_the_files_witness :
  let pg := Viewer.init None (Some (children sampleRootNode)) Viewer.initialPage in
  Indexer.main codePointOrder sampleWorld
  = Indexer.Wrote {| Indexer.generatedAt := sampleNow;
                     Indexer.categories := children sampleRootNode |}
  /\ Viewer.totalVideos pg = 3
  /\ forall p, Set_has (Viewer.validVideoPaths pg) p = true
               <-> In p (videoPathsIn (children sampleRootNode)).
Proof.
  intro pg. split; [reflexivity|].
  apply (viewer_counts_the_files codePointOrder sampleWorld
           {| Indexer.generatedAt := sampleNow;
              Indexer.categories := children sampleRootNode |} None).
  reflexivity.
Defined.

(** X27: when the names below [videos] are as a file system has them,
    different in each directory and without a [/], the videos of the
    manifest that a run writes have paths that differ from each other, so
    the viewer has as many valid paths as it counts videos: every video
    can be checked on its own, and the progress can reach the total. *)
Theorem distinct_files_have_distinct_paths : forall collator_compare w file raw,
  wellNamed (Indexer.videos w) = true ->
  Indexer.main collator_compare w = Indexer.Wrote file ->
  let pg := Viewer.init raw (Some (Indexer.categories file)) Viewer.initialPage in
  NoDup (videoPathsIn (Indexer.categories file))
  /\ Set_size (Viewer.validVideoPaths pg) = Viewer.totalVideos pg.
Proof.
  intros cmp w file raw Hwn Hmain pg.
  destruct (IndexFacts.main_Wrote cmp w file Hmain)
    as (entries & root & Hw & Hb & Hdir & ->).
  cbn [Indexer.categories] in *. rewrite Hw in Hwn.
  pose proof (IndexFacts.buildNode_placed cmp (Indexer.FsDir entries) [] root
                eq_refl Hb) as Hroot.
  pose proof (IndexFacts.buildNode_wellNamed cmp (Indexer.FsDir entries) [] root
                Hwn Hb) as Htree.
  pose proof (paths_distinct root [] Hroot Htree eq_refl) as Hnd.
  pose proof (placed_videoPaths root [] Hroot) as Htruthy.
  assert (Hpaths : videoPaths root = videoPathsIn (children root))
    by (destruct root; [reflexivity | discriminate]).
  rewrite Hpaths in Hnd, Htruthy. split; [exact Hnd|].
  assert (Hstats : Viewer.totalVideos pg = numVideosIn (children root)
                   /\ Viewer.validVideoPaths pg
                      = Set_from (filter truthy (videoPathsIn (children root)))).
  { subst pg. unfold Viewer.init. cbn [Viewer.updateProgressUI Viewer.totalVideos
                                        Viewer.validVideoPaths].
    destruct (ViewerFacts.prune_keeps_stats
                (Viewer.storeStats (children root)
                   (Viewer.loadCompletedVideos raw Viewer.initialPage)))
      as [Hv Ht].
    rewrite Hv, Ht. unfold Viewer.storeStats.
    cbn [Viewer.totalVideos Viewer.validVideoPaths].
    now rewrite ViewerFacts.collectVideoStats_eq. }
  destruct Hstats as [Ht Hv].
  rewrite Ht, Hv, ViewerFacts.numVideosIn_length.
  rewrite SessionFacts.filter_all by (apply forallb_forall; now apply Forall_forall).
  now rewrite (SessionFacts.Set_from_id _ Hnd).
Qed.

Lemma distinct_files_have_distinct_paths_witness :
  let pg := Viewer.init None (Some (children sampleRootNode)) Viewer.initialPage in
  wellNamed (Indexer.videos sampleWorld) = true
  /\ NoDup (videoPathsIn (children sampleRootNode))
  /\ Set_size (Viewer.validVideoPaths pg) = Viewer.totalVideos pg.
Proof.
  intro pg. split; [reflexivity|].
  apply (distinct_files_have_distinct_paths codePointOrder sampleWorld
           {| Indexer.generatedAt := sampleNow;
              Indexer.categories := children sampleRootNode |} None);
    reflexivity.
Defined.

End PipelineFacts.

(** ** The indexer: the order of the children *)
Module OrderFacts.
Import JS Manifest Indexer Reference Notions JSFacts NumberFacts.

(** *** Rounding keeps a full mantissa *)

Lemma shr_1_half : forall mrs, 0 <= shr_m mrs -> shr_m (shr_1 mrs) = shr_m mrs / 2.
Proof.
  intros [m r s] H. cbn [shr_m] in H. destruct m as [|p|p]; [reflexivity| |lia].
  destruct p as [p|p|]; unfold shr_1; cbn [shr_m].
  - rewrite (Pos2Z.inj_xI p). apply Z.div_unique with 1; lia.
  - rewrite (Pos2Z.inj_xO p). apply Z.div_unique with 0; lia.
  - reflexivity.
Qed.

Lemma iter_shr_1_value : forall n mrs,
  0 <= shr_m mrs -> shr_m (iter_pos shr_1 n mrs) = shr_m mrs / 2 ^ Z.pos n.
Proof.
  induction n as [n IH|n IH|]; intros mrs H; cbn [iter_pos].
  - rewrite IH by (apply iter_shr_1_nonneg, shr_1_nonneg, H).
    rewrite IH by (apply shr_1_nonneg, H). rewrite shr_1_half by exact H.
    assert (Hp : 0 < 2 ^ Z.pos n) by (apply Z.pow_pos_nonneg; lia).
    rewrite !Z.div_div by lia. f_equal.
    replace (Z.pos n~1) with (1 + Z.pos n + Z.pos n) by lia.
    rewrite !Z.pow_add_r by lia. rewrite Z.pow_1_r. ring.
  - rewrite IH by (apply iter_shr_1_nonneg, H). rewrite IH by exact H.
    assert (Hp : 0 < 2 ^ Z.pos n) by (apply Z.pow_pos_nonneg; lia).
    rewrite Z.div_div by lia. f_equal.
    replace (Z.pos n~0) with (Z.pos n + Z.pos n) by lia.
    rewrite Z.pow_add_r by lia. reflexivity.
  - rewrite shr_1_half by exact H. reflexivity.
Qed.

Lemma digits2_pos_unique : forall m k,
  2 ^ (k - 1) <= Z.pos m < 2 ^ k -> Z.pos (digits2_pos m) = k.
Proof.
  intros m k [Hlo Hhi]. pose proof (digits2_pos_bounds m) as [Dlo Dhi].
  set (d := Z.pos (digits2_pos m)) in *.
  assert (Hk : 0 < k).
  { destruct (Z_lt_le_dec 0 k) as [|Hle]; [assumption|].
    destruct (Z.eq_dec k 0) as [->|Hne]; [simpl in Hhi; lia|].
    rewrite Z.pow_neg_r in Hhi by lia. lia. }
  destruct (Z.lt_trichotomy d k) as [Hlt|[Heq|Hgt]]; [|assumption|].
  - assert (2 ^ d <= 2 ^ (k - 1)) by (apply Z.pow_le_mono_r; lia). lia.
  - assert (2 ^ k <= 2 ^ (d - 1)) by (apply Z.pow_le_mono_r; lia). lia.
Qed.

Lemma shr_fexp_normal : forall m e l,
  53 <= Z.pos (digits2_pos m) -> -1074 <= e ->
  shr_fexp 53 1024 (Z.pos m) e l
  = shr (shr_record_of_loc (Z.pos m) l) e (Z.pos (digits2_pos m) - 53).
Proof.
  intros m e l Hd He. unfold shr_fexp, fexp, emin. cbn [Zdigits2]. f_equal. lia.
Qed.

Lemma shr_record_m : forall m l, shr_m (shr_record_of_loc m l) = m.
Proof. intros m [|[]]; reflexivity. Qed.

Lemma shr_value : forall mrs e n,
  0 <= shr_m mrs -> 0 <= n ->
  shr_m (fst (shr mrs e n)) = shr_m mrs / 2 ^ n /\ snd (shr mrs e n) = e + n.
Proof.
  intros mrs e [|p|p] Hm Hn; [| |lia]; cbn [shr fst snd].
  - rewrite Z.pow_0_r, Z.div_1_r. lia.
  - split; [now apply iter_shr_1_value | reflexivity].
Qed.

Lemma round_nearest_even_bounds : forall m l,
  m <= round_nearest_even m l <= m + 1.
Proof.
  intros m [|[]]; cbn [round_nearest_even]; try lia. destruct (Z.even m); lia.
Qed.

(** Rounding a mantissa of 53 bits or more gives infinity or a Number with
    a mantissa of exactly 53 bits, never zero and never a smaller one. *)
Lemma binary_round_aux_normal : forall s mz ez,
  53 <= Z.pos (digits2_pos mz) -> -1074 <= ez ->
  binary_round_aux 53 1024 s (Z.pos mz) ez loc_Exact = S754_infinity s
  \/ exists m e,
       binary_round_aux 53 1024 s (Z.pos mz) ez loc_Exact = S754_finite s m e
       /\ Z.pos (digits2_pos m) = 53 /\ ez <= e <= 971.
Proof.
  intros s mz ez Hd He. unfold binary_round_aux.
  rewrite shr_fexp_normal by assumption.
  pose proof (digits2_pos_bounds mz) as [Dlo Dhi].
  set (d := Z.pos (digits2_pos mz)) in *.
  pose proof (shr_value (shr_record_of_loc (Z.pos mz) loc_Exact) ez (d - 53)) as V1.
  destruct (shr (shr_record_of_loc (Z.pos mz) loc_Exact) ez (d - 53))
    as [mrs1 e1].
  cbn [fst snd shr_record_of_loc shr_m] in V1.
  destruct V1 as [Vm Ve]; [lia | lia |].
  assert (Hpow : 0 < 2 ^ (d - 53)) by (apply Z.pow_pos_nonneg; lia).
  assert (B1 : 2 ^ 52 <= shr_m mrs1 < 2 ^ 53).
  { rewrite Vm. split.
    - apply Z.div_le_lower_bound; [exact Hpow|].
      rewrite <- Z.pow_add_r by lia.
      replace (d - 53 + 52) with (d - 1) by lia. exact Dlo.
    - apply Z.div_lt_upper_bound; [exact Hpow|].
      rewrite <- Z.pow_add_r by lia.
      replace (d - 53 + 53) with d by lia. exact Dhi. }
  pose proof (round_nearest_even_bounds (shr_m mrs1) (loc_of_shr_record mrs1)) as B2.
  destruct (round_nearest_even (shr_m mrs1) (loc_of_shr_record mrs1))
    as [|q|q] eqn:Em2; [change (2 ^ 52) with 4503599627370496 in B1; lia | |lia].
  destruct (Z.eq_dec (Z.pos q) (2 ^ 53)) as [Hcarry|Hfit].
  - assert (Hq : q = 9007199254740992%positive) by (injection Hcarry; auto).
    subst q.
    rewrite (shr_fexp_normal 9007199254740992 e1 loc_Exact)
      by (change (Z.pos (digits2_pos 9007199254740992)) with 54; lia).
    change (Z.pos (digits2_pos 9007199254740992) - 53) with 1.
    cbn [shr iter_pos shr_1 shr_record_of_loc shr_m orb].
    change (1024 - 53) with 971.
    destruct (e1 + 1 <=? 971) eqn:E; [|now left].
    right. exists 4503599627370496%positive, (e1 + 1).
    apply Z.leb_le in E. split; [reflexivity|]. split; [reflexivity | lia].
  - assert (Hdq : Z.pos (digits2_pos q) = 53)
      by (apply digits2_pos_unique; change (53 - 1) with 52; lia).
    rewrite shr_fexp_normal by lia. rewrite Hdq.
    change (53 - 53) with 0. cbn [shr shr_record_of_loc shr_m].
    change (1024 - 53) with 971.
    destruct (e1 <=? 971) eqn:E; [|now left].
    right. exists q, e1. apply Z.leb_le in E.
    split; [reflexivity|]. split; [exact Hdq | lia].
Qed.

Lemma binary_round_normal : forall s m e,
  -1022 <= e ->
  binary_round 53 1024 s m e = S754_infinity s
  \/ exists m' e',
       binary_round 53 1024 s m e = S754_finite s m' e'
       /\ Z.pos (digits2_pos m') = 53 /\ e - 52 <= e' <= 971.
Proof.
  intros s m e He. unfold binary_round, shl_align, fexp, emin.
  assert (Hd : 1 <= Z.pos (digits2_pos m)) by lia.
  destruct (Z_lt_le_dec (Z.pos (digits2_pos m)) 53) as [Hlt|Hge].
  - replace (Z.max (Z.pos (digits2_pos m) + e - 53) (3 - 1024 - 53) - e)
      with (Z.pos (digits2_pos m) - 53) by lia.
    replace (Z.max (Z.pos (digits2_pos m) + e - 53) (3 - 1024 - 53))
      with (Z.pos (digits2_pos m) + e - 53) by lia.
    destruct (Z.pos (digits2_pos m) - 53) as [|q|q] eqn:Eq; [lia | lia |].
    destruct (binary_round_aux_normal s (Pos.iter xO m q)
                (Z.pos (digits2_pos m) + e - 53))
      as [Hinf|(m' & e' & Hfin & Hd' & He')].
    + rewrite iter_xO_digits. lia.
    + lia.
    + now left.
    + right. exists m', e'. split; [exact Hfin|]. split; [exact Hd' | lia].
  - replace (Z.max (Z.pos (digits2_pos m) + e - 53) (3 - 1024 - 53) - e)
      with (Z.pos (digits2_pos m) - 53) by lia.
    destruct (Z.pos (digits2_pos m) - 53) as [|q|q] eqn:Eq; [| |lia].
    + destruct (binary_round_aux_normal s m e) as [Hinf|(m' & e' & Hfin & Hd' & He')];
        [lia | lia | now left |].
      right. exists m', e'. split; [exact Hfin|]. split; [exact Hd' | lia].
    + destruct (binary_round_aux_normal s m e) as [Hinf|(m' & e' & Hfin & Hd' & He')];
        [lia | lia | now left |].
      right. exists m', e'. split; [exact Hfin|]. split; [exact Hd' | lia].
Qed.

(** *** Weights and their order *)

Lemma isWeight_finite : forall m e,
  Z.pos (digits2_pos m) = 53 -> -52 <= e <= 971 ->
  isWeight (S754_finite false m e) = true.
Proof.
  intros m e Hd He. cbn [isWeight]. rewrite Hd.
  destruct He as [H1 H2]. apply Z.leb_le in H1. apply Z.leb_le in H2.
  now rewrite H1, H2.
Qed.

Lemma isWeight_inv : forall x,
  isWeight x = true ->
  x = S754_zero false \/ x = POSITIVE_INFINITY
  \/ exists m e, x = S754_finite false m e
       /\ Z.pos (digits2_pos m) = 53 /\ -52 <= e <= 971.
Proof.
  intros [[|]|[|]| |[|] m e] H; try discriminate; auto.
  right. right. exists m, e. cbn [isWeight] in H.
  apply andb_true_iff in H. destruct H as [H H2].
  apply andb_true_iff in H. destruct H as [H0 H1].
  apply Z.eqb_eq in H0. apply Z.leb_le in H1. apply Z.leb_le in H2. auto.
Qed.

Lemma Number_of_Z_isWeight : forall n, 0 <= n -> isWeight (Number_of_Z n) = true.
Proof.
  intros [|p|p] H; [reflexivity| |lia]. unfold Number_of_Z, binary_normalize.
  destruct (binary_round_normal false p 0) as [Hinf|(m & e & Hfin & Hd & He)];
    [lia | now rewrite Hinf |].
  rewrite Hfin. apply isWeight_finite; [exact Hd | lia].
Qed.

Lemma weight_isWeight : forall nm, isWeight (getLeadingNumberWeight nm) = true.
Proof.
  intro nm. rewrite WeightFacts.weight_of_trimmed.
  destruct (spec_leadingNumberWeight (trim nm)) as [n|] eqn:E; [|reflexivity].
  apply Number_of_Z_isWeight. eapply WeightFacts.spec_weight_nonneg; eassumption.
Qed.

Lemma rank_exponent : forall m1 e1 m2 e2,
  Z.pos (digits2_pos m1) = 53 -> Z.pos (digits2_pos m2) = 53 ->
  -1074 <= e1 -> e1 < e2 ->
  Z.pos m1 * 2 ^ (e1 + 1074) < Z.pos m2 * 2 ^ (e2 + 1074).
Proof.
  intros m1 e1 m2 e2 H1 H2 He Hlt.
  pose proof (digits2_pos_bounds m1) as [_ B1].
  pose proof (digits2_pos_bounds m2) as [B2 _].
  rewrite H1 in B1. rewrite H2 in B2. change (53 - 1) with 52 in B2.
  replace (e2 + 1074) with ((e2 - e1 - 1) + 1 + (e1 + 1074)) by lia.
  rewrite (Z.pow_add_r 2 (e2 - e1 - 1 + 1) (e1 + 1074)) by lia.
  rewrite (Z.pow_add_r 2 (e2 - e1 - 1) 1) by lia.
  assert (HP : 0 < 2 ^ (e1 + 1074)) by (apply Z.pow_pos_nonneg; lia).
  assert (HQ : 0 < 2 ^ (e2 - e1 - 1)) by (apply Z.pow_pos_nonneg; lia).
  set (P := 2 ^ (e1 + 1074)) in *. set (Q := 2 ^ (e2 - e1 - 1)) in *.
  change (2 ^ 1) with 2. change (2 ^ 53) with (2 ^ 52 * 2) in B1.
  set (T := 2 ^ 52) in *.
  assert (HT : 0 < T) by (subst T; reflexivity).
  apply Z.lt_le_trans with (T * 2 * P).
  - apply Z.mul_lt_mono_pos_r; assumption.
  - replace (Z.pos m2 * (Q * 2 * P)) with (Z.pos m2 * Q * (2 * P)) by ring.
    replace (T * 2 * P) with (T * 1 * (2 * P)) by ring.
    apply Z.mul_le_mono_nonneg_r; [lia|].
    apply Z.mul_le_mono_nonneg; lia.
Qed.

(** On weights, [<] of Numbers is the order of the values. *)
Lemma lt_rank : forall a b,
  isWeight a = true -> isWeight b = true ->
  lt a b = rankLt (rank a) (rank b).
Proof.
  intros a b Ha Hb.
  destruct (isWeight_inv a Ha) as [->|[->|(m1 & e1 & -> & D1 & E1)]];
    destruct (isWeight_inv b Hb) as [->|[->|(m2 & e2 & -> & D2 & E2)]];
    try reflexivity.
  - cbn [rank rankLt].
    change (lt (S754_zero false) (S754_finite false m2 e2)) with true.
    symmetry. apply Z.ltb_lt.
    apply Z.mul_pos_pos; [lia | apply Z.pow_pos_nonneg; lia].
  - cbn [rank rankLt].
    change (lt (S754_finite false m1 e1) (S754_zero false)) with false.
    symmetry. apply Z.ltb_ge. apply Z.lt_le_incl.
    apply Z.mul_pos_pos; [lia | apply Z.pow_pos_nonneg; lia].
  - unfold lt, SFltb, SFcompare. cbn [rank rankLt].
    destruct (Z.compare_spec e1 e2) as [Heq|Hlt|Hgt].
    + subst e2. change (Pos.compare_cont Eq m1 m2) with (Pos.compare m1 m2).
      assert (HP : 0 < 2 ^ (e1 + 1074)) by (apply Z.pow_pos_nonneg; lia).
      destruct (Pos.compare_spec m1 m2) as [Hm|Hm|Hm]; symmetry.
      * subst m2. apply Z.ltb_irrefl.
      * apply Z.ltb_lt. apply Z.mul_lt_mono_pos_r; [exact HP | lia].
      * apply Z.ltb_ge. apply Z.mul_le_mono_nonneg_r; lia.
    + symmetry. apply Z.ltb_lt. apply rank_exponent; lia.
    + symmetry. apply Z.ltb_ge. apply Z.lt_le_incl. apply rank_exponent; lia.
Qed.

Lemma shl_align_value : forall m e ez,
  ez <= e ->
  Z.pos (fst (shl_align m e ez)) = Z.pos m * 2 ^ (e - ez).
Proof.
  intros m e ez H. unfold shl_align.
  destruct (ez - e) as [|d|d] eqn:E; cbn [fst]; [| lia |].
  - replace (e - ez) with 0 by lia. lia.
  - rewrite iter_xO_value. f_equal. f_equal. lia.
Qed.

(** The sign of the difference of two finite weights is the sign of the
    difference of their values, and the difference is zero only when the
    values are equal. *)
Lemma sub_finite_weights : forall m1 e1 m2 e2,
  Z.pos (digits2_pos m1) = 53 -> -52 <= e1 <= 971 ->
  Z.pos (digits2_pos m2) = 53 -> -52 <= e2 <= 971 ->
  let d := sub (S754_finite false m1 e1) (S754_finite false m2 e2) in
  let r1 := Z.pos m1 * 2 ^ (e1 + 1074) in
  let r2 := Z.pos m2 * 2 ^ (e2 + 1074) in
  (r1 < r2 -> lt zero d = false /\ strictNe d zero = true)
  /\ (r2 < r1 -> lt zero d = true /\ strictNe d zero = true)
  /\ (r1 = r2 -> strictNe d zero = false).
Proof.
  intros m1 e1 m2 e2 D1 E1 D2 E2 d r1 r2.
  subst d. unfold sub, SFsub. cbn [cond_Zopp].
  set (ez := Z.min e1 e2).
  rewrite (shl_align_value m1 e1 ez) by (subst ez; lia).
  rewrite (shl_align_value m2 e2 ez) by (subst ez; lia).
  set (a := Z.pos m1 * 2 ^ (e1 - ez)). set (b := Z.pos m2 * 2 ^ (e2 - ez)).
  assert (HK : 0 < 2 ^ (ez + 1074)) by (apply Z.pow_pos_nonneg; subst ez; lia).
  assert (Hr1 : r1 = a * 2 ^ (ez + 1074)).
  { subst r1 a. rewrite <- Z.mul_assoc, <- Z.pow_add_r by (subst ez; lia).
    f_equal. f_equal. lia. }
  assert (Hr2 : r2 = b * 2 ^ (ez + 1074)).
  { subst r2 b. rewrite <- Z.mul_assoc, <- Z.pow_add_r by (subst ez; lia).
    f_equal. f_equal. lia. }
  assert (Hsign : (r1 < r2 <-> a < b) /\ (r2 < r1 <-> b < a) /\ (r1 = r2 <-> a = b)).
  { rewrite Hr1, Hr2. repeat split; intro H.
    - apply Z.mul_lt_mono_pos_r in H; assumption.
    - apply Z.mul_lt_mono_pos_r; assumption.
    - apply Z.mul_lt_mono_pos_r in H; assumption.
    - apply Z.mul_lt_mono_pos_r; assumption.
    - apply Z.mul_reg_r in H; lia.
    - now rewrite H. }
  destruct Hsign as (S1 & S2 & S3).
  unfold binary_normalize. destruct (a - b) as [|p|p] eqn:Eab.
  - split; [|split]; intro H.
    + apply S1 in H. lia.
    + apply S2 in H. lia.
    + reflexivity.
  - assert (Hpos : lt zero (binary_round 53 1024 false p ez) = true
                   /\ strictNe (binary_round 53 1024 false p ez) zero = true).
    { destruct (binary_round_normal false p ez) as [Hr|(m & e & Hr & _)];
        [subst ez; lia | |]; rewrite Hr; split; reflexivity. }
    split; [|split]; intro H.
    + apply S1 in H. lia.
    + exact Hpos.
    + apply S3 in H. lia.
  - assert (Hneg : lt zero (binary_round 53 1024 true p ez) = false
                   /\ strictNe (binary_round 53 1024 true p ez) zero = true).
    { destruct (binary_round_normal true p ez) as [Hr|(m & e & Hr & _)];
        [subst ez; lia | |]; rewrite Hr; split; reflexivity. }
    split; [|split]; intro H.
    + exact Hneg.
    + apply S2 in H. lia.
    + apply S3 in H. lia.
Qed.

Section Order.
Variable collator_compare : jsstring -> jsstring -> Number.

(** What the comparator says of two nodes agrees with their weights:
    the first is moved behind the second only if its weight is not
    smaller, and is left before it only if its weight is not larger. *)
Lemma sortsAfter_weights : forall x y,
  if JSArray.sortsAfter (compareEntries collator_compare) x y
  then weightLe y x = true
  else weightLe x y = true.
Proof.
  intros x y. unfold weightLe, weightOf.
  pose proof (weight_isWeight (name x)) as Wx.
  pose proof (weight_isWeight (name y)) as Wy.
  rewrite !lt_rank by assumption.
  unfold JSArray.sortsAfter, compareEntries.
  destruct (isWeight_inv _ Wx) as [Hx|[Hx|(m1 & e1 & Hx & D1 & E1)]];
    destruct (isWeight_inv _ Wy) as [Hy|[Hy|(m2 & e2 & Hy & D2 & E2)]];
    rewrite Hx, Hy; try reflexivity.
  - cbn. destruct (lt zero (collator_compare (name x) (name y))); reflexivity.
  - cbn [rank rankLt].
    assert (HP : 0 < Z.pos m2 * 2 ^ (e2 + 1074))
      by (apply Z.mul_pos_pos; [lia | apply Z.pow_pos_nonneg; lia]).
    change (sub (S754_zero false) (S754_finite false m2 e2))
      with (S754_finite true m2 e2).
    change (strictNe (S754_finite true m2 e2) zero) with true. cbv iota.
    change (lt zero (S754_finite true m2 e2)) with false. cbv iota.
    apply negb_true_iff, Z.ltb_ge. lia.
  - cbn [rank rankLt].
    assert (HP : 0 < Z.pos m1 * 2 ^ (e1 + 1074))
      by (apply Z.mul_pos_pos; [lia | apply Z.pow_pos_nonneg; lia]).
    change (sub (S754_finite false m1 e1) (S754_zero false))
      with (S754_finite false m1 e1).
    change (strictNe (S754_finite false m1 e1) zero) with true. cbv iota.
    change (lt zero (S754_finite false m1 e1)) with true. cbv iota.
    apply negb_true_iff, Z.ltb_ge. lia.
  - destruct (sub_finite_weights m1 e1 m2 e2 D1 E1 D2 E2) as (Hlt & Hgt & Heq).
    cbv zeta in Hlt, Hgt, Heq. cbn [rank rankLt].
    destruct (Z.lt_trichotomy (Z.pos m1 * 2 ^ (e1 + 1074))
                              (Z.pos m2 * 2 ^ (e2 + 1074))) as [H|[H|H]].
    + destruct (Hlt H) as [H1 H2]. rewrite H2, H1.
      apply negb_true_iff, Z.ltb_ge. lia.
    + rewrite (Heq H), H.
      destruct (lt zero (collator_compare (name x) (name y)));
        apply negb_true_iff, Z.ltb_irrefl.
    + destruct (Hgt H) as [H1 H2]. rewrite H2, H1.
      apply negb_true_iff, Z.ltb_ge. lia.
Qed.

Lemma weightLe_trans : forall x y z,
  weightLe x y = true -> weightLe y z = true -> weightLe x z = true.
Proof.
  intros x y z. unfold weightLe, weightOf.
  rewrite !lt_rank by apply weight_isWeight.
  destruct (rank (getLeadingNumberWeight (name x))) as [rx|],
           (rank (getLeadingNumberWeight (name y))) as [ry|],
           (rank (getLeadingNumberWeight (name z))) as [rz|];
    cbn [rankLt negb]; intros H1 H2; try reflexivity; try discriminate.
  apply negb_true_iff, Z.ltb_ge in H1, H2. apply negb_true_iff, Z.ltb_ge. lia.
Qed.

Lemma insert_weightOrdered : forall x l,
  weightOrdered l = true ->
  weightOrdered (JSArray.insert (compareEntries collator_compare) x l) = true.
Proof.
  intros x l. induction l as [|y l IH]; intro Hl; [reflexivity|].
  cbn [weightOrdered] in Hl. apply andb_true_iff in Hl. destruct Hl as [Hy Hrest].
  cbn [JSArray.insert]. pose proof (sortsAfter_weights x y) as Hxy.
  destruct (JSArray.sortsAfter (compareEntries collator_compare) x y).
  - cbn [weightOrdered]. rewrite (IH Hrest), andb_true_r.
    rewrite WeightFacts.forallb_insert, Hxy, Hy. reflexivity.
  - cbn [weightOrdered forallb]. rewrite Hxy, Hy, Hrest. cbn [andb].
    rewrite andb_true_r. apply forallb_forall. intros z Hz.
    rewrite forallb_forall in Hy. exact (weightLe_trans x y z Hxy (Hy z Hz)).
Qed.

Lemma sort_weightOrdered : forall l,
  weightOrdered (JSArray.sort (compareEntries collator_compare) l) = true.
Proof.
  induction l as [|x l IH]; [reflexivity|]. cbn [JSArray.sort].
  now apply insert_weightOrdered.
Qed.

Lemma buildNode_orderedTree : forall stats fullPath n,
  buildNode collator_compare fullPath stats = OK (Some n) ->
  orderedTree n = true.
Proof.
  induction stats as [size|entries IH| | |] using WalkFacts.FsNode_tree_ind;
    intros fullPath n Hb.
  - simpl in Hb. destruct (str_eqb _ _); inversion Hb; subst. reflexivity.
  - rewrite WalkFacts.buildNode_dir in Hb.
    destruct (walkEntries (buildNode collator_compare) fullPath entries [])
      as [kids|e] eqn:Hw; [|discriminate].
    cbv zeta in Hb. inversion Hb; subst. clear Hb.
    change (weightOrdered (JSArray.sort (compareEntries collator_compare) kids)
            && forallb orderedTree
                 (JSArray.sort (compareEntries collator_compare) kids) = true).
    rewrite sort_weightOrdered. cbn [andb].
    apply forallb_forall. intros child Hchild.
    apply (Permutation_in _ (Permutation_sym
             (sort_Permutation _ (compareEntries collator_compare) kids)))
      in Hchild.
    assert (Hkids : Forall (fun child => orderedTree child = true) kids).
    { apply (IndexFacts.walkEntries_Forall collator_compare _ fullPath entries)
        with (children := []); [|exact Hw|constructor].
      intros nm target c Hin _ Hc. exact (IH nm target Hin _ _ Hc). }
    rewrite Forall_forall in Hkids. now apply Hkids.
  - simpl in Hb. discriminate.
  - discriminate.
  - discriminate.
Qed.

End Order.

(** X28: in the manifest that a run writes, for every collation, the
    categories and the children of every Directory are in the order of
    their weights: no node is followed, directly or later, by a node of
    smaller weight, so numbered entries come in the order of their numbers
    and before the entries without a number. *)
Theorem manifest_ordered_by_weight : forall collator_compare w file,
  main collator_compare w = Wrote file ->
  weightOrdered (categories file) = true
  /\ forallb orderedTree (categories file) = true.
Proof.
  intros cmp w file H.
  destruct (IndexFacts.main_Wrote cmp w file H) as (entries & root & _ & Hb & Hdir & ->).
  cbn [categories].
  pose proof (buildNode_orderedTree cmp (FsDir entries) [] root Hb) as Ho.
  destruct root as [nm p c cs|]; [|discriminate].
  change (weightOrdered cs && forallb orderedTree cs = true) in Ho.
  now apply andb_true_iff in Ho.
Qed.

Lemma manifest_ordered_by_weight_witness :
  main codePointOrder sampleWorld
  = Wrote {| generatedAt := sampleNow; categories := children sampleRootNode |}
  /\ weightOrdered (children sampleRootNode) = true
  /\ forallb orderedTree (children sampleRootNode) = true.
Proof.
  split; [reflexivity|].
  apply (manifest_ordered_by_weight codePointOrder sampleWorld
           {| generatedAt := sampleNow; categories := children sampleRootNode |}).
  reflexivity.
Defined.

(** *** The order in terms of the numbers of the names *)

Lemma rank_integer : forall x n,
  isWeight x = true -> integerValue x = Some n -> rank x = Some (n * 2 ^ 1074).
Proof.
  intros x n Hx Hn.
  destruct (isWeight_inv x Hx) as [->|[->|(m & e & -> & _ & He)]].
  - inversion Hn. reflexivity.
  - discriminate.
  - cbn [integerValue rank] in *. f_equal.
    destruct (0 <=? e) eqn:E0.
    + apply Z.leb_le in E0.
      assert (Hv : n = Z.pos m * 2 ^ e) by congruence. subst n.
      rewrite <- Z.mul_assoc, <- Z.pow_add_r by lia. reflexivity.
    + apply Z.leb_gt in E0.
      destruct (Z.pos m mod 2 ^ (- e) =? 0) eqn:Em; [|discriminate].
      apply Z.eqb_eq in Em.
      assert (Hv : n = Z.pos m / 2 ^ (- e)) by congruence. subst n.
      assert (Hp : 0 < 2 ^ (- e)) by (apply Z.pow_pos_nonneg; lia).
      assert (Hm : Z.pos m = 2 ^ (- e) * (Z.pos m / 2 ^ (- e)))
        by (apply Z.div_exact; lia).
      rewrite Hm at 1.
      replace (e + 1074) with (- e + (e + 1074) + e) at 1 by lia.
      replace (2 ^ (- e) * (Z.pos m / 2 ^ (- e)) * 2 ^ (- e + (e + 1074) + e))
        with ((Z.pos m / 2 ^ (- e)) * (2 ^ (- e) * 2 ^ (- e + (e + 1074) + e)))
        by ring.
      rewrite <- Z.pow_add_r by lia. f_equal. f_equal. lia.
Qed.

Lemma rank_small_number : forall n,
  0 <= n <= 2 ^ 53 -> rank (Number_of_Z n) = Some (n * 2 ^ 1074).
Proof.
  intros n Hn. apply rank_integer.
  - apply Number_of_Z_isWeight. lia.
  - now apply Number_of_Z_exact.
Qed.

Lemma weightOrdered_pair : forall l1 a l2 b l3,
  weightOrdered (l1 ++ a :: l2 ++ b :: l3) = true -> weightLe a b = true.
Proof.
  induction l1 as [|x l1 IH]; intros a l2 b l3 H.
  - cbn [app weightOrdered] in H. apply andb_true_iff in H. destruct H as [H _].
    rewrite forallb_app in H. apply andb_true_iff in H. destruct H as [_ H].
    cbn [forallb] in H. apply andb_true_iff in H. exact (proj1 H).
  - cbn [app weightOrdered] in H. apply andb_true_iff in H.
    exact (IH _ _ _ _ (proj2 H)).
Qed.

(** X29: in the node of a directory, a child whose name starts with a
    number up to [2^53] has only numbered children before it, and each of
    those whose number is up to [2^53] too has a number that is not
    larger: the children are in the order of their numbers, for every
    collation. *)
Theorem numbered_children_in_order :
  forall collator_compare fullPath entries node l1 a l2 b l3 nb,
  buildNode collator_compare fullPath (FsDir entries) = OK (Some node) ->
  children node = l1 ++ a :: l2 ++ b :: l3 ->
  spec_leadingNumberWeight (trim (name b)) = Finite nb ->
  nb <= 2 ^ 53 ->
  exists na,
    spec_leadingNumberWeight (trim (name a)) = Finite na
    /\ (na <= 2 ^ 53 -> na <= nb).
Proof.
  intros cmp fullPath entries node l1 a l2 b l3 nb Hb Hkids Hnb Hsmall.
  assert (Hord : weightOrdered (children node) = true).
  { rewrite WalkFacts.buildNode_dir in Hb.
    destruct (walkEntries (buildNode cmp) fullPath entries []) as [kids|e];
      [|discriminate].
    cbv zeta in Hb. inversion Hb; subst. cbn [children].
    apply sort_weightOrdered. }
  rewrite Hkids in Hord. apply weightOrdered_pair in Hord.
  unfold weightLe, weightOf in Hord.
  rewrite lt_rank in Hord by apply weight_isWeight.
  rewrite !WeightFacts.weight_of_trimmed, Hnb in Hord.
  pose proof (WeightFacts.spec_weight_nonneg _ _ Hnb) as Hnb0.
  cbn [Number_of_Weight] in Hord.
  rewrite (rank_small_number nb) in Hord by lia.
  destruct (spec_leadingNumberWeight (trim (name a))) as [na|] eqn:Hna;
    [|discriminate].
  exists na. split; [reflexivity|]. intro Hna53.
  pose proof (WeightFacts.spec_weight_nonneg _ _ Hna) as Hna0.
  cbn [Number_of_Weight] in Hord.
  rewrite (rank_small_number na) in Hord by lia.
  cbn [rankLt] in Hord. apply negb_true_iff, Z.ltb_ge in Hord.
  assert (HK : 0 < 2 ^ 1074) by (apply Z.pow_pos_nonneg; lia).
  apply Z.mul_le_mono_pos_r in Hord; assumption.
Qed.

Lemma numbered_children_in_order_witness :
  buildNode codePointOrder []
    (FsDir [ (str "10 last.mp4", FsFile 1); (str "notes", FsDir []);
             (str "2 first.mp4", FsFile 1) ])
  = OK (Some (Directory (str "videos") (str "videos") 2
                [ Video (str "2 first.mp4") (str "videos/2 first.mp4") 1 1;
                  Video (str "10 last.mp4") (str "videos/10 last.mp4") 1 1;
                  Directory (str "notes") (str "videos/notes") 0 [] ]))
  /\ exists na,
       spec_leadingNumberWeight (trim (str "2 first.mp4")) = Finite na
       /\ (na <= 2 ^ 53 -> na <= 10).
Proof.
  split; [reflexivity|].
  apply (numbered_children_in_order codePointOrder []
           [ (str "10 last.mp4", FsFile 1); (str "notes", FsDir []);
             (str "2 first.mp4", FsFile 1) ]
           (Directory (str "videos") (str "videos") 2
              [ Video (str "2 first.mp4") (str "videos/2 first.mp4") 1 1;
                Video (str "10 last.mp4") (str "videos/10 last.mp4") 1 1;
                Directory (str "notes") (str "videos/notes") 0 [] ])
           [] (Video (str "2 first.mp4") (str "videos/2 first.mp4") 1 1)
           [] (Video (str "10 last.mp4") (str "videos/10 last.mp4") 1 1)
           [Directory (str "notes") (str "videos/notes") 0 []] 10).
  - reflexivity.
  - reflexivity.
  - reflexivity.
  - vm_compute. discriminate.
Defined.

(** *** Ties, under a consistent collation *)

Section Ties.
Variable collator_compare : jsstring -> jsstring -> Number.

(** The comparator in terms of the values of the weights: the larger
    weight sorts after the smaller, the collation decides between equal
    finite weights, and two names without a number are left as they are. *)
Lemma sortsAfter_spec : forall x y,
  JSArray.sortsAfter (compareEntries collator_compare) x y
  = match rank (weightOf x), rank (weightOf y) with
    | Some rx, Some ry =>
        if ry <? rx then true
        else if rx <? ry then false
        else lt zero (collator_compare (name x) (name y))
    | None, Some _ => true
    | _, None => false
    end.
Proof.
  intros x y. unfold weightOf.
  pose proof (weight_isWeight (name x)) as Wx.
  pose proof (weight_isWeight (name y)) as Wy.
  unfold JSArray.sortsAfter, compareEntries.
  destruct (isWeight_inv _ Wx) as [Hx|[Hx|(m1 & e1 & Hx & D1 & E1)]];
    destruct (isWeight_inv _ Wy) as [Hy|[Hy|(m2 & e2 & Hy & D2 & E2)]];
    rewrite Hx, Hy; try reflexivity.
  - cbn [rank].
    assert (HP : 0 < Z.pos m2 * 2 ^ (e2 + 1074))
      by (apply Z.mul_pos_pos; [lia | apply Z.pow_pos_nonneg; lia]).
    change (sub (S754_zero false) (S754_finite false m2 e2))
      with (S754_finite true m2 e2).
    change (strictNe (S754_finite true m2 e2) zero) with true. cbv iota.
    change (lt zero (S754_finite true m2 e2)) with false.
    destruct (Z.pos m2 * 2 ^ (e2 + 1074) <? 0) eqn:Q1;
      [apply Z.ltb_lt in Q1; lia|].
    destruct (0 <? Z.pos m2 * 2 ^ (e2 + 1074)) eqn:Q2;
      [reflexivity | apply Z.ltb_ge in Q2; lia].
  - cbn [rank].
    assert (HP : 0 < Z.pos m1 * 2 ^ (e1 + 1074))
      by (apply Z.mul_pos_pos; [lia | apply Z.pow_pos_nonneg; lia]).
    change (sub (S754_finite false m1 e1) (S754_zero false))
      with (S754_finite false m1 e1).
    change (strictNe (S754_finite false m1 e1) zero) with true. cbv iota.
    change (lt zero (S754_finite false m1 e1)) with true.
    destruct (0 <? Z.pos m1 * 2 ^ (e1 + 1074)) eqn:Q2;
      [reflexivity | apply Z.ltb_ge in Q2; lia].
  - destruct (sub_finite_weights m1 e1 m2 e2 D1 E1 D2 E2) as (Hlt & Hgt & Heq).
    cbv zeta in Hlt, Hgt, Heq. cbn [rank].
    destruct (Z.lt_trichotomy (Z.pos m1 * 2 ^ (e1 + 1074))
                              (Z.pos m2 * 2 ^ (e2 + 1074))) as [H|[H|H]].
    + destruct (Hlt H) as [H1 H2]. rewrite H2, H1.
      destruct (Z.pos m2 * 2 ^ (e2 + 1074) <? Z.pos m1 * 2 ^ (e1 + 1074)) eqn:Q;
        [apply Z.ltb_lt in Q; lia|].
      apply Z.ltb_lt in H. now rewrite H.
    + rewrite (Heq H), H, Z.ltb_irrefl. reflexivity.
    + destruct (Hgt H) as [H1 H2]. rewrite H2, H1.
      apply Z.ltb_lt in H. now rewrite H.
Qed.

Hypothesis collation : consistent collator_compare.

Lemma sortsAfter_asymmetric : forall x y,
  JSArray.sortsAfter (compareEntries collator_compare) x y = true ->
  JSArray.sortsAfter (compareEntries collator_compare) y x = false.
Proof.
  intros x y. rewrite !sortsAfter_spec.
  destruct (rank (weightOf x)) as [rx|], (rank (weightOf y)) as [ry|];
    try reflexivity; try discriminate.
  destruct (ry <? rx) eqn:E1, (rx <? ry) eqn:E2; try reflexivity;
    try discriminate.
  - apply Z.ltb_lt in E1, E2. lia.
  - apply (proj1 collation).
Qed.

Lemma sortsAfter_transitive : forall x y z,
  JSArray.sortsAfter (compareEntries collator_compare) x y = false ->
  JSArray.sortsAfter (compareEntries collator_compare) y z = false ->
  JSArray.sortsAfter (compareEntries collator_compare) x z = false.
Proof.
  intros x y z. rewrite !sortsAfter_spec.
  destruct (rank (weightOf x)) as [rx|], (rank (weightOf y)) as [ry|],
           (rank (weightOf z)) as [rz|];
    try reflexivity; try discriminate.
  destruct (ry <? rx) eqn:E1; [discriminate|].
  destruct (rz <? ry) eqn:E2; [intros _; discriminate|].
  apply Z.ltb_ge in E1, E2.
  destruct (rx <? ry) eqn:E3.
  - apply Z.ltb_lt in E3. intros _ _.
    destruct (rz <? rx) eqn:E4; [apply Z.ltb_lt in E4; lia|].
    destruct (rx <? rz) eqn:E5; [reflexivity | apply Z.ltb_ge in E5; lia].
  - apply Z.ltb_ge in E3. assert (rx = ry) by lia. subst ry.
    destruct (rx <? rz) eqn:E5.
    + intros _ _. destruct (rz <? rx) eqn:E4;
        [apply Z.ltb_lt in E4, E5; lia | reflexivity].
    + apply Z.ltb_ge in E5. assert (rz = rx) by lia. subst rz.
      rewrite Z.ltb_irrefl. apply (proj2 collation).
Qed.

Lemma insert_comparatorOrdered : forall x l,
  comparatorOrdered (compareEntries collator_compare) l = true ->
  comparatorOrdered (compareEntries collator_compare)
    (JSArray.insert (compareEntries collator_compare) x l) = true.
Proof.
  intros x l. induction l as [|y l IH]; intro Hl; [reflexivity|].
  cbn [comparatorOrdered] in Hl. apply andb_true_iff in Hl.
  destruct Hl as [Hy Hrest]. cbn [JSArray.insert].
  destruct (JSArray.sortsAfter (compareEntries collator_compare) x y) eqn:Hxy.
  - cbn [comparatorOrdered]. rewrite (IH Hrest), andb_true_r.
    rewrite WeightFacts.forallb_insert, Hy, andb_true_r.
    now rewrite (sortsAfter_asymmetric x y Hxy).
  - cbn [comparatorOrdered forallb]. rewrite Hxy, Hy, Hrest. cbn [negb andb].
    rewrite andb_true_r. apply forallb_forall. intros z Hz.
    rewrite forallb_forall in Hy. specialize (Hy z Hz).
    apply negb_true_iff in Hy. apply negb_true_iff.
    exact (sortsAfter_transitive x y z Hxy Hy).
Qed.

Lemma sort_comparatorOrdered : forall l,
  comparatorOrdered (compareEntries collator_compare)
    (JSArray.sort (compareEntries collator_compare) l) = true.
Proof.
  induction l as [|x l IH]; [reflexivity|]. cbn [JSArray.sort fold_right].
  now apply insert_comparatorOrdered.
Qed.

End Ties.

Lemma comparatorOrdered_pair :
  forall (A : Type) (cmp : A -> A -> Number) l1 a l2 b l3,
  comparatorOrdered cmp (l1 ++ a :: l2 ++ b :: l3) = true ->
  JSArray.sortsAfter cmp a b = false.
Proof.
  intros A cmp. induction l1 as [|x l1 IH]; intros a l2 b l3 H.
  - cbn [app comparatorOrdered] in H. apply andb_true_iff in H.
    destruct H as [H _]. rewrite forallb_app in H.
    apply andb_true_iff in H. destruct H as [_ H].
    cbn [forallb] in H. apply andb_true_iff in H.
    now apply negb_true_iff, (proj1 H).
  - cbn [app comparatorOrdered] in H. apply andb_true_iff in H.
    exact (IH _ _ _ _ (proj2 H)).
Qed.

(** The order of the code points, the collation of the examples, is
    consistent. *)
Lemma codePointOrder_sign : forall a b,
  codePointOrder a b = Number_of_Z (-1) \/ codePointOrder a b = zero
  \/ codePointOrder a b = Number_of_Z 1.
Proof.
  induction a as [|x a IH]; intros [|y b]; cbn [codePointOrder]; auto.
  destruct (x <? y); [auto|]. destruct (y <? x); [auto | apply IH].
Qed.

Lemma codePointOrder_asymmetric : forall a b,
  lt zero (codePointOrder a b) = true -> lt zero (codePointOrder b a) = false.
Proof.
  induction a as [|x a IH]; intros [|y b]; cbn [codePointOrder];
    try reflexivity; try discriminate.
  destruct (x <? y) eqn:E1; [discriminate|].
  destruct (y <? x) eqn:E2; [reflexivity|]. apply IH.
Qed.

Lemma codePointOrder_transitive : forall a b c,
  lt zero (codePointOrder a b) = false ->
  lt zero (codePointOrder b c) = false ->
  lt zero (codePointOrder a c) = false.
Proof.
  induction a as [|x a IH]; intros [|y b] [|z c]; cbn [codePointOrder];
    try reflexivity; try discriminate.
  destruct (x <? y) eqn:E1.
  - intros _. apply Z.ltb_lt in E1. destruct (y <? z) eqn:E2.
    + intros _. apply Z.ltb_lt in E2.
      assert (E3 : (x <? z) = true) by (apply Z.ltb_lt; lia).
      now rewrite E3.
    + destruct (z <? y) eqn:E3; [discriminate|].
      apply Z.ltb_ge in E2, E3. intros _.
      assert (E4 : (x <? z) = true) by (apply Z.ltb_lt; lia).
      now rewrite E4.
  - destruct (y <? x) eqn:E2; [discriminate|].
    apply Z.ltb_ge in E1, E2. assert (x = y) by lia. subst y. intro Hab.
    destruct (x <? z) eqn:E3; [reflexivity|].
    destruct (z <? x) eqn:E4; [discriminate|]. now apply IH.
Qed.

Lemma codePointOrder_consistent : consistent codePointOrder.
Proof.
  split; [exact codePointOrder_asymmetric | exact codePointOrder_transitive].
Qed.

(** X30: under a consistent collation, the children of the node of a
    directory are sorted by the comparator: no child is to be sorted after
    a later one.  So of two children with the same number, the earlier
    does not collate after the later. *)
Theorem children_sorted_by_comparator :
  forall collator_compare fullPath entries node l1 a l2 b l3,
  consistent collator_compare ->
  buildNode collator_compare fullPath (FsDir entries) = OK (Some node) ->
  children node = l1 ++ a :: l2 ++ b :: l3 ->
  JSArray.sortsAfter (compareEntries collator_compare) a b = false
  /\ (isFiniteNumber (weightOf a) = true -> weightOf a = weightOf b ->
      lt zero (collator_compare (name a) (name b)) = false).
Proof.
  intros cmp fullPath entries node l1 a l2 b l3 Hcons Hb Hkids.
  assert (Hord : comparatorOrdered (compareEntries cmp) (children node) = true).
  { rewrite WalkFacts.buildNode_dir in Hb.
    destruct (walkEntries (buildNode cmp) fullPath entries []) as [kids|e];
      [|discriminate].
    cbv zeta in Hb. inversion Hb; subst. cbn [children].
    now apply sort_comparatorOrdered. }
  rewrite Hkids in Hord. apply comparatorOrdered_pair in Hord.
  split; [exact Hord|]. intros Hfin Heq.
  unfold JSArray.sortsAfter in Hord.
  now rewrite (WeightFacts.compareEntries_equal_finite_weights cmp a b Hfin Heq)
    in Hord.
Qed.

Lemma children_sorted_by_comparator_witness :
  let a := Video (str "1_a.mp4") (str "videos/1_a.mp4") 0 1 in
  let b := Video (str "1_b.mp4") (str "videos/1_b.mp4") 0 1 in
  buildNode codePointOrder []
    (FsDir [(str "1_b.mp4", FsFile 0); (str "1_a.mp4", FsFile 0)])
  = OK (Some (Directory (str "videos") (str "videos") 2 [a; b]))
  /\ JSArray.sortsAfter (compareEntries codePointOrder) a b = false
  /\ (isFiniteNumber (weightOf a) = true -> weightOf a = weightOf b ->
      lt zero (codePointOrder (name a) (name b)) = false).
Proof.
  intros a b. split; [reflexivity|].
  apply (children_sorted_by_comparator codePointOrder []
           [(str "1_b.mp4", FsFile 0); (str "1_a.mp4", FsFile 0)]
           (Directory (str "videos") (str "videos") 2 [a; b]) [] a [] b []).
  - exact codePointOrder_consistent.
  - reflexivity.
  - reflexivity.
Defined.

End OrderFacts.
